(** * Sortable: drag-and-drop reordering of DOM containers

    A shallow embedding of [src/app/arrange/sortable/Sortable.ts] and of the
    DOM helpers it imports from [utils] ([matches], [closest], [lastChild],
    [getChild], [index]).

    The document is a forest of element nodes: every element that has
    children owns an ordered list of them.  Text nodes are not represented;
    they never change the relative order of elements, which is all the
    embedded code observes through [children], [previousElementSibling],
    [nextElementSibling] and [lastElementChild]. *)

From Stdlib Require Import ZArith QArith Qabs Qround Lqa Ascii String.
From stdpp Require Import gmap strings list fin_maps.

Local Open Scope Z_scope.

(** ** The document tree *)

Abbreviation Node := nat (only parsing).

(** [document] is the root every attached element descends from. *)
Definition document : Node := 0%nat.

(** The element children of every element, and the set of elements that
    carry an inline [display: none]. *)
Record Dom := mkDom {
  kids : gmap nat (list nat);
  inlineNone : gset nat
}.

Definition children (d : Dom) (p : Node) : list nat :=
  default [] (kids d !! p).

(** All attached elements, container by container. *)
Definition allItems (k : gmap nat (list nat)) : list nat :=
  mjoin ((map_to_list k).*2).

Definition parentNode (d : Dom) (n : Node) : option nat :=
  (λ r, r.2.1) <$> list_find (λ pc : nat * list nat, n ∈ pc.2) (map_to_list (kids d)).

Fixpoint indexOf (n : Node) (cs : list nat) : option nat :=
  match cs with
  | [] => None
  | c :: cs' => if decide (c = n) then Some 0%nat else S <$> indexOf n cs'
  end.

Definition previousElementSibling (d : Dom) (n : Node) : option nat :=
  p ← parentNode d n;
  i ← indexOf n (children d p);
  match i with
  | O => None
  | S j => children d p !! j
  end.

Definition nextElementSibling (d : Dom) (n : Node) : option nat :=
  p ← parentNode d n;
  i ← indexOf n (children d p);
  children d p !! S i.

Definition lastElementChild (d : Dom) (p : Node) : option nat :=
  last (children d p).

(** [a.contains(b)]: [b] is [a] or one of its descendants.  The walk up
    from [b] is bounded by the number of attached elements. *)
Fixpoint containsLoop (fuel : nat) (d : Dom) (a b : Node) : bool :=
  if decide (a = b) then true
  else match fuel with
       | O => false
       | S f => match parentNode d b with
                | Some p => containsLoop f d a p
                | None => false
                end
       end.

Definition contains (d : Dom) (a : Node) (b : option nat) : bool :=
  match b with
  | None => false
  | Some b => containsLoop (length (allItems (kids d))) d a b
  end.

(** Detaching a node removes it from the child list that holds it. *)
Definition detach (n : Node) (k : gmap nat (list nat)) : gmap nat (list nat) :=
  filter (λ c, c ≠ n) <$> k.

Fixpoint insertAt (n : Node) (ref : Node) (cs : list nat) : list nat :=
  match cs with
  | [] => [n]
  | c :: cs' => if decide (c = ref) then n :: c :: cs' else c :: insertAt n ref cs'
  end.

(** [p.appendChild(n)].  The DOM refuses (HierarchyRequestError) to put a
    node inside itself or one of its descendants: [None]. *)
Definition appendChild (d : Dom) (p n : Node) : option Dom :=
  if contains d n (Some p) then None
  else
    let k := detach n (kids d) in
    Some (mkDom (<[p := default [] (k !! p) ++ [n]]> k) (inlineNone d)).

(** [p.insertBefore(n, ref)].  A reference that is not a child of [p] is
    refused (NotFoundError); a null reference appends; when the reference is
    the node itself the DOM takes the node's next sibling instead. *)
Definition insertBefore (d : Dom) (p n : Node) (ref : option nat) : option Dom :=
  match ref with
  | None => appendChild d p n
  | Some r =>
      if contains d n (Some p) then None
      else if decide (r ∈ children d p) then
        let ref' := if decide (r = n) then nextElementSibling d n else Some r in
        let k := detach n (kids d) in
        let cs := default [] (k !! p) in
        Some (mkDom (<[p := match ref' with
                            | Some r' => insertAt n r' cs
                            | None => cs ++ [n]
                            end]> k) (inlineNone d))
      else None
  end.

(** [p.removeChild(n)]: refused (NotFoundError) unless [n] is a child of [p]. *)
Definition removeChild (d : Dom) (p n : Node) : option Dom :=
  if decide (n ∈ children d p)
  then Some (mkDom (detach n (kids d)) (inlineNone d))
  else None.

Definition setInlineNone (n : Node) (b : bool) (d : Dom) : Dom :=
  mkDom (kids d) (if b then {[n]} ∪ inlineNone d else inlineNone d ∖ {[n]}).

(** A well-formed document holds every element at most once. *)
Definition wfDom (d : Dom) : Prop := NoDup (allItems (kids d)).


(** ** What the page supplies

    Facts about elements that the embedded code only reads: tag names, the
    selector engine, style-sheet visibility, attributes, and the flags the
    animation collaborator keeps on elements. *)

Record Rect := mkRect {
  rTop : Q; rLeft : Q; rBottom : Q; rRight : Q; rWidth : Q; rHeight : Q
}.

Record Page := mkPage {
  nodeName : nat → string;
  elMatches : nat → string → bool;      (* [el.matches(sel)]; a throwing selector counts as [false] *)
  sheetNone : nat → bool;               (* hidden by a style sheet rather than inline *)
  getAttribute : nat → string → option string;
  _generateId : nat → string;
  isContentEditable : nat → bool;
  animated : nat → bool;
  animatingX : nat → bool;
  animatingY : nat → bool;
  toRect : nat → option Rect
}.

Definition upcase (c : ascii) : ascii :=
  let n := nat_of_ascii c in
  if (97 <=? n)%nat && (n <=? 122)%nat then ascii_of_nat (n - 32) else c.

Fixpoint toUpperCase (s : string) : string :=
  match s with
  | EmptyString => EmptyString
  | String c r => String (upcase c) (toUpperCase r)
  end.

Definition startsWithGt (selector : string) : bool :=
  match selector with
  | String c _ => Ascii.eqb c ">"
  | EmptyString => false
  end.

(** [matches(el, selector)]: an empty selector never matches; a leading [>]
    is dropped before the selector engine is asked. *)
Definition matches (pg : Page) (el : Node) (selector : string) : bool :=
  match selector with
  | EmptyString => false
  | String c rest => elMatches pg el (if Ascii.eqb c ">" then rest else selector)
  end.

(** [css(el, 'display') === 'none'] reads the computed style,
    [el.style.display !== 'none'] only the inline one. *)
Definition cssDisplayNone (pg : Page) (d : Dom) (n : Node) : bool :=
  bool_decide (n ∈ inlineNone d) || sheetNone pg n.

Definition styleDisplayNone (d : Dom) (n : Node) : bool :=
  bool_decide (n ∈ inlineNone d).

Fixpoint closestLoop (fuel : nat) (pg : Page) (d : Dom) (el : Node)
    (selector : option string) (ctx : Node) (includeCTX : bool) : option nat :=
  if (match selector with
      | Some sel =>
          if startsWithGt sel
          then bool_decide (parentNode d el = Some ctx) && matches pg el sel
          else matches pg el sel
      | None => false
      end) || (includeCTX && bool_decide (el = ctx))
  then Some el
  else if decide (el = ctx) then None
  else match fuel with
       | O => None
       | S f => match parentNode d el with
                | Some p => closestLoop f pg d p selector ctx includeCTX
                | None => None
                end
       end.

(** [closest(el, selector, ctx, includeCTX)]: the nearest ancestor-or-self of
    [el], not above [ctx], that matches.  The walk follows [parentNode];
    the step from a shadow root to its host is not represented. *)
Definition closest (pg : Page) (d : Dom) (el : option nat)
    (selector : option string) (ctx : Node) (includeCTX : bool) : option nat :=
  match el with
  | None => None
  | Some n => closestLoop (length (allItems (kids d))) pg d n selector ctx includeCTX
  end.

(** [lastChild(el, selector)]: scans back from the last element child, past
    the ghost, hidden elements and, under a non-empty selector, elements
    that do not match it. *)
Fixpoint lastChildLoop (pg : Page) (d : Dom) (ghost : option nat)
    (selector : string) (backwards : list nat) : option nat :=
  match backwards with
  | [] => None
  | last :: prev =>
      if bool_decide (Some last = ghost) || cssDisplayNone pg d last
         || (negb (String.eqb selector "") && negb (matches pg last selector))
      then lastChildLoop pg d ghost selector prev
      else Some last
  end.

Definition lastChild (pg : Page) (d : Dom) (ghost : option nat) (el : Node)
    (selector : string) : option nat :=
  lastChildLoop pg d ghost selector (reverse (children d el)).

(** [getChild(el, childNum, options, includeDragEl)], with the [draggable]
    option passed for [options]. *)
Fixpoint getChildLoop (pg : Page) (d : Dom) (ghost dragged : option nat)
    (el : Node) (draggable : string) (includeDragEl : bool)
    (childNum currentChild : nat) (rest : list nat) : option nat :=
  match rest with
  | [] => None
  | c :: rest' =>
      if negb (styleDisplayNone d c)
         && negb (bool_decide (Some c = ghost))
         && (includeDragEl || negb (bool_decide (Some c = dragged)))
         && bool_decide (is_Some (closest pg d (Some c) (Some draggable) el false))
      then if decide (currentChild = childNum) then Some c
           else getChildLoop pg d ghost dragged el draggable includeDragEl
                  childNum (S currentChild) rest'
      else getChildLoop pg d ghost dragged el draggable includeDragEl
             childNum currentChild rest'
  end.

Definition getChild (pg : Page) (d : Dom) (ghost dragged : option nat)
    (el : Node) (childNum : nat) (draggable : string) (includeDragEl : bool)
    : option nat :=
  getChildLoop pg d ghost dragged el draggable includeDragEl childNum 0 (children d el).

(** The test [index] applies to each preceding sibling. *)
Definition indexCounts (pg : Page) (clone : option nat) (selector : option string)
    (el : Node) : bool :=
  negb (String.eqb (toUpperCase (nodeName pg el)) "TEMPLATE")
  && negb (bool_decide (Some el = clone))
  && match selector with
     | None => true
     | Some sel => String.eqb sel "" || matches pg el sel
     end.

Fixpoint indexLoop (fuel : nat) (pg : Page) (d : Dom) (clone : option nat)
    (selector : option string) (el : Node) (index : Z) : Z :=
  match fuel with
  | O => index
  | S f =>
      match previousElementSibling d el with
      | None => index
      | Some prev =>
          indexLoop f pg d clone selector prev
            (if indexCounts pg clone selector prev then index + 1 else index)
      end
  end.

(** [index(el, selector)].  [clone] is [Sortable.clone].  The loop follows
    [previousElementSibling] until it runs out; the number of siblings
    bounds it. *)
Definition index (pg : Page) (d : Dom) (clone : option nat) (el : option nat)
    (selector : option string) : Z :=
  match el with
  | None => -1
  | Some n =>
      match parentNode d n with
      | None => -1
      | Some p => indexLoop (length (children d p)) pg d clone selector n 0
      end
  end.

(** ** Options, instances and the module state *)

Inductive PullMode := PullFalse | PullTrue | PullClone.

#[global] Instance PullMode_eq_dec : EqDecision PullMode.
Proof. solve_decision. Defined.

(** What the move hook answers: [false], [-1], [1], or anything else. *)
Inductive MoveVector := MvFalse | MvBefore | MvAfter | MvOther.

Inductive Direction := DirString (s : string) | DirFunction.

Inductive Filter := FilterFunction | FilterSelectors (criteria : list string).

(** A group object.  [gid] stands for the identity of the object, which is
    what [activeGroup === group] compares. *)
Record SortableGroup := mkGroup { gid : nat; revertClone : bool }.

#[global] Instance SortableGroup_eq_dec : EqDecision SortableGroup.
Proof. solve_decision. Defined.

Record Store := mkStore { hasGet : bool; hasSet : bool }.

Record SortableOptions := mkOptions {
  group : option SortableGroup;
  sort : bool;
  disabled : bool;
  store : option Store;
  handle : option string;
  draggable : string;
  swapThreshold : Q;
  invertSwap : bool;
  invertedSwapThreshold : option Q;
  removeCloneOnHide : bool;
  direction : Direction;
  filter_ : option Filter;      (* the [filter] option *)
  preventOnFilter : bool;
  dropBubble : bool;
  dragoverBubble : bool;
  dataIdAttr : string;
  delay : nat;
  delayOnTouchOnly : bool;
  forceFallback : bool;
  supportPointer : bool;
  emptyInsertThreshold : Q
}.

(** A [Sortable] instance; it is reached from its root element through the
    expando property. *)
Record Sortable := mkSortable {
  el : nat;
  options : SortableOptions;
  _ignoreWhileAnimating : option nat;
  lastPutMode : option PullMode;
  nativeDraggable : bool
}.

Record DragEvent := mkDragEvent {
  evTarget : option nat;
  evRootEl : option nat;
  clientX : Q;
  clientY : Q
}.

(** The arguments of the move hook [onMove], in the order of the call. *)
Record MoveArgs := mkMoveArgs {
  mvFrom : option nat;
  mvTo : nat;
  mvDragEl : option nat;
  mvDragRect : option Rect;
  mvTarget : option nat;
  mvTargetRect : option Rect;
  mvEvt : DragEvent;
  mvWillInsertAfter : bool
}.

Inductive Timer := ClearSilent | DragStartFn (s : nat).

(** A module variable that holds an element or nothing: [undefined] until
    it is first written, [null] once [_nulling] has reset it.  The two are
    told apart by [===]. *)
Inductive ElRef := ElUndefined | ElNull | ElNode (n : nat).

(** The element a variable holds, if any. *)
Definition refNode (v : ElRef) : option nat :=
  match v with
  | ElNode n => Some n
  | _ => None
  end.

(** [v === target] for a [target] that is an element or [null]. *)
Definition sameRef (v : ElRef) (target : option nat) : bool :=
  match v, target with
  | ElNull, None => true
  | ElNode n, Some t => bool_decide (n = t)
  | _, _ => false
  end.

(** Calls that leave the module, and the DOM mutations, in program order
    (most recent first). *)
Inductive Effect :=
| ECapture (s : nat)                       (* [s.captureAnimationState()] *)
| EAnimateAll (s : nat)                    (* [s.animateAll(...)] *)
| EAnimate (s : nat)                       (* [s.animate(dragEl, cloneEl)] *)
| EMove (a : MoveArgs) (r : MoveVector)    (* [onMove(...)] and its answer *)
| EInsertBefore (p n : nat) (ref : option nat)
| EAppendChild (p n : nat)
| ERemoveChild (p n : nat)
| EStoreSet (s : nat)                      (* [store.set(s)] *)
| EDetectEmpty (evt : DragEvent)           (* [nearestEmptyInsertDetectEvent(evt, ...)] *)
| EScrollBy (n : nat).

(** The module-level variables of [Sortable.ts], the statics of the class,
    the document, and the record of outgoing calls.  Pointer-tracking
    variables that only position the ghost are left out. *)
Record State := mkState {
  dom : Dom;
  expando : gmap nat Sortable;
  sortables : list nat;
  dragEl : option nat;
  parentEl : option nat;
  rootEl : option nat;
  nextEl : option nat;
  lastDownEl : ElRef;
  oldIndex : option Z;
  newIndex : option Z;
  oldDraggableIndex : option Z;
  newDraggableIndex : option Z;
  activeGroup : option SortableGroup;
  putSortable : option nat;
  moved : bool;
  tapEvt : option (Q * Q);
  awaitingDragStarted : bool;
  ignoreNextClick : bool;
  ghostEl : option nat;
  cloneEl : option nat;
  cloneHidden : bool;
  lastTarget : option nat;
  lastDirection : option Z;
  pastFirstInvertThresh : bool;
  isCircumstantialInvert : bool;
  targetMoveDistance : option Q;
  _silent : bool;
  savedInputChecked : list nat;
  Sortable_ghost : option nat;
  Sortable_clone : option nat;
  Sortable_dragged : option nat;
  Sortable_active : option nat;
  Sortable_eventCanceled : bool;
  timers : list (nat * Timer);
  log : list Effect
}.

Definition set_dom (v : Dom) (st : State) : State :=
  mkState v (expando st) (sortables st) (dragEl st) (parentEl st) (rootEl st)
    (nextEl st) (lastDownEl st) (oldIndex st) (newIndex st)
    (oldDraggableIndex st) (newDraggableIndex st) (activeGroup st)
    (putSortable st) (moved st) (tapEvt st) (awaitingDragStarted st)
    (ignoreNextClick st) (ghostEl st) (cloneEl st) (cloneHidden st)
    (lastTarget st) (lastDirection st) (pastFirstInvertThresh st)
    (isCircumstantialInvert st) (targetMoveDistance st) (_silent st)
    (savedInputChecked st) (Sortable_ghost st) (Sortable_clone st)
    (Sortable_dragged st) (Sortable_active st) (Sortable_eventCanceled st)
    (timers st) (log st).

Definition set_expando (v : gmap nat Sortable) (st : State) : State :=
  mkState (dom st) v (sortables st) (dragEl st) (parentEl st) (rootEl st)
    (nextEl st) (lastDownEl st) (oldIndex st) (newIndex st)
    (oldDraggableIndex st) (newDraggableIndex st) (activeGroup st)
    (putSortable st) (moved st) (tapEvt st) (awaitingDragStarted st)
    (ignoreNextClick st) (ghostEl st) (cloneEl st) (cloneHidden st)
    (lastTarget st) (lastDirection st) (pastFirstInvertThresh st)
    (isCircumstantialInvert st) (targetMoveDistance st) (_silent st)
    (savedInputChecked st) (Sortable_ghost st) (Sortable_clone st)
    (Sortable_dragged st) (Sortable_active st) (Sortable_eventCanceled st)
    (timers st) (log st).

Definition set_sortables (v : list nat) (st : State) : State :=
  mkState (dom st) (expando st) v (dragEl st) (parentEl st) (rootEl st)
    (nextEl st) (lastDownEl st) (oldIndex st) (newIndex st)
    (oldDraggableIndex st) (newDraggableIndex st) (activeGroup st)
    (putSortable st) (moved st) (tapEvt st) (awaitingDragStarted st)
    (ignoreNextClick st) (ghostEl st) (cloneEl st) (cloneHidden st)
    (lastTarget st) (lastDirection st) (pastFirstInvertThresh st)
    (isCircumstantialInvert st) (targetMoveDistance st) (_silent st)
    (savedInputChecked st) (Sortable_ghost st) (Sortable_clone st)
    (Sortable_dragged st) (Sortable_active st) (Sortable_eventCanceled st)
    (timers st) (log st).

Definition set_dragEl (v : option nat) (st : State) : State :=
  mkState (dom st) (expando st) (sortables st) v (parentEl st) (rootEl st)
    (nextEl st) (lastDownEl st) (oldIndex st) (newIndex st)
    (oldDraggableIndex st) (newDraggableIndex st) (activeGroup st)
    (putSortable st) (moved st) (tapEvt st) (awaitingDragStarted st)
    (ignoreNextClick st) (ghostEl st) (cloneEl st) (cloneHidden st)
    (lastTarget st) (lastDirection st) (pastFirstInvertThresh st)
    (isCircumstantialInvert st) (targetMoveDistance st) (_silent st)
    (savedInputChecked st) (Sortable_ghost st) (Sortable_clone st)
    (Sortable_dragged st) (Sortable_active st) (Sortable_eventCanceled st)
    (timers st) (log st).

Definition set_parentEl (v : option nat) (st : State) : State :=
  mkState (dom st) (expando st) (sortables st) (dragEl st) v (rootEl st)
    (nextEl st) (lastDownEl st) (oldIndex st) (newIndex st)
    (oldDraggableIndex st) (newDraggableIndex st) (activeGroup st)
    (putSortable st) (moved st) (tapEvt st) (awaitingDragStarted st)
    (ignoreNextClick st) (ghostEl st) (cloneEl st) (cloneHidden st)
    (lastTarget st) (lastDirection st) (pastFirstInvertThresh st)
    (isCircumstantialInvert st) (targetMoveDistance st) (_silent st)
    (savedInputChecked st) (Sortable_ghost st) (Sortable_clone st)
    (Sortable_dragged st) (Sortable_active st) (Sortable_eventCanceled st)
    (timers st) (log st).

Definition set_rootEl (v : option nat) (st : State) : State :=
  mkState (dom st) (expando st) (sortables st) (dragEl st) (parentEl st) v
    (nextEl st) (lastDownEl st) (oldIndex st) (newIndex st)
    (oldDraggableIndex st) (newDraggableIndex st) (activeGroup st)
    (putSortable st) (moved st) (tapEvt st) (awaitingDragStarted st)
    (ignoreNextClick st) (ghostEl st) (cloneEl st) (cloneHidden st)
    (lastTarget st) (lastDirection st) (pastFirstInvertThresh st)
    (isCircumstantialInvert st) (targetMoveDistance st) (_silent st)
    (savedInputChecked st) (Sortable_ghost st) (Sortable_clone st)
    (Sortable_dragged st) (Sortable_active st) (Sortable_eventCanceled st)
    (timers st) (log st).

Definition set_nextEl (v : option nat) (st : State) : State :=
  mkState (dom st) (expando st) (sortables st) (dragEl st) (parentEl st)
    (rootEl st) v (lastDownEl st) (oldIndex st) (newIndex st)
    (oldDraggableIndex st) (newDraggableIndex st) (activeGroup st)
    (putSortable st) (moved st) (tapEvt st) (awaitingDragStarted st)
    (ignoreNextClick st) (ghostEl st) (cloneEl st) (cloneHidden st)
    (lastTarget st) (lastDirection st) (pastFirstInvertThresh st)
    (isCircumstantialInvert st) (targetMoveDistance st) (_silent st)
    (savedInputChecked st) (Sortable_ghost st) (Sortable_clone st)
    (Sortable_dragged st) (Sortable_active st) (Sortable_eventCanceled st)
    (timers st) (log st).

Definition set_lastDownEl (v : ElRef) (st : State) : State :=
  mkState (dom st) (expando st) (sortables st) (dragEl st) (parentEl st)
    (rootEl st) (nextEl st) v (oldIndex st) (newIndex st)
    (oldDraggableIndex st) (newDraggableIndex st) (activeGroup st)
    (putSortable st) (moved st) (tapEvt st) (awaitingDragStarted st)
    (ignoreNextClick st) (ghostEl st) (cloneEl st) (cloneHidden st)
    (lastTarget st) (lastDirection st) (pastFirstInvertThresh st)
    (isCircumstantialInvert st) (targetMoveDistance st) (_silent st)
    (savedInputChecked st) (Sortable_ghost st) (Sortable_clone st)
    (Sortable_dragged st) (Sortable_active st) (Sortable_eventCanceled st)
    (timers st) (log st).

Definition set_oldIndex (v : option Z) (st : State) : State :=
  mkState (dom st) (expando st) (sortables st) (dragEl st) (parentEl st)
    (rootEl st) (nextEl st) (lastDownEl st) v (newIndex st)
    (oldDraggableIndex st) (newDraggableIndex st) (activeGroup st)
    (putSortable st) (moved st) (tapEvt st) (awaitingDragStarted st)
    (ignoreNextClick st) (ghostEl st) (cloneEl st) (cloneHidden st)
    (lastTarget st) (lastDirection st) (pastFirstInvertThresh st)
    (isCircumstantialInvert st) (targetMoveDistance st) (_silent st)
    (savedInputChecked st) (Sortable_ghost st) (Sortable_clone st)
    (Sortable_dragged st) (Sortable_active st) (Sortable_eventCanceled st)
    (timers st) (log st).

Definition set_newIndex (v : option Z) (st : State) : State :=
  mkState (dom st) (expando st) (sortables st) (dragEl st) (parentEl st)
    (rootEl st) (nextEl st) (lastDownEl st) (oldIndex st) v
    (oldDraggableIndex st) (newDraggableIndex st) (activeGroup st)
    (putSortable st) (moved st) (tapEvt st) (awaitingDragStarted st)
    (ignoreNextClick st) (ghostEl st) (cloneEl st) (cloneHidden st)
    (lastTarget st) (lastDirection st) (pastFirstInvertThresh st)
    (isCircumstantialInvert st) (targetMoveDistance st) (_silent st)
    (savedInputChecked st) (Sortable_ghost st) (Sortable_clone st)
    (Sortable_dragged st) (Sortable_active st) (Sortable_eventCanceled st)
    (timers st) (log st).

Definition set_oldDraggableIndex (v : option Z) (st : State) : State :=
  mkState (dom st) (expando st) (sortables st) (dragEl st) (parentEl st)
    (rootEl st) (nextEl st) (lastDownEl st) (oldIndex st) (newIndex st) v
    (newDraggableIndex st) (activeGroup st) (putSortable st) (moved st)
    (tapEvt st) (awaitingDragStarted st) (ignoreNextClick st) (ghostEl st)
    (cloneEl st) (cloneHidden st) (lastTarget st) (lastDirection st)
    (pastFirstInvertThresh st) (isCircumstantialInvert st)
    (targetMoveDistance st) (_silent st) (savedInputChecked st)
    (Sortable_ghost st) (Sortable_clone st) (Sortable_dragged st)
    (Sortable_active st) (Sortable_eventCanceled st) (timers st) (log st).

Definition set_newDraggableIndex (v : option Z) (st : State) : State :=
  mkState (dom st) (expando st) (sortables st) (dragEl st) (parentEl st)
    (rootEl st) (nextEl st) (lastDownEl st) (oldIndex st) (newIndex st)
    (oldDraggableIndex st) v (activeGroup st) (putSortable st) (moved st)
    (tapEvt st) (awaitingDragStarted st) (ignoreNextClick st) (ghostEl st)
    (cloneEl st) (cloneHidden st) (lastTarget st) (lastDirection st)
    (pastFirstInvertThresh st) (isCircumstantialInvert st)
    (targetMoveDistance st) (_silent st) (savedInputChecked st)
    (Sortable_ghost st) (Sortable_clone st) (Sortable_dragged st)
    (Sortable_active st) (Sortable_eventCanceled st) (timers st) (log st).

Definition set_activeGroup (v : option SortableGroup) (st : State) : State :=
  mkState (dom st) (expando st) (sortables st) (dragEl st) (parentEl st)
    (rootEl st) (nextEl st) (lastDownEl st) (oldIndex st) (newIndex st)
    (oldDraggableIndex st) (newDraggableIndex st) v (putSortable st)
    (moved st) (tapEvt st) (awaitingDragStarted st) (ignoreNextClick st)
    (ghostEl st) (cloneEl st) (cloneHidden st) (lastTarget st)
    (lastDirection st) (pastFirstInvertThresh st) (isCircumstantialInvert st)
    (targetMoveDistance st) (_silent st) (savedInputChecked st)
    (Sortable_ghost st) (Sortable_clone st) (Sortable_dragged st)
    (Sortable_active st) (Sortable_eventCanceled st) (timers st) (log st).

Definition set_putSortable (v : option nat) (st : State) : State :=
  mkState (dom st) (expando st) (sortables st) (dragEl st) (parentEl st)
    (rootEl st) (nextEl st) (lastDownEl st) (oldIndex st) (newIndex st)
    (oldDraggableIndex st) (newDraggableIndex st) (activeGroup st) v
    (moved st) (tapEvt st) (awaitingDragStarted st) (ignoreNextClick st)
    (ghostEl st) (cloneEl st) (cloneHidden st) (lastTarget st)
    (lastDirection st) (pastFirstInvertThresh st) (isCircumstantialInvert st)
    (targetMoveDistance st) (_silent st) (savedInputChecked st)
    (Sortable_ghost st) (Sortable_clone st) (Sortable_dragged st)
    (Sortable_active st) (Sortable_eventCanceled st) (timers st) (log st).

Definition set_moved (v : bool) (st : State) : State :=
  mkState (dom st) (expando st) (sortables st) (dragEl st) (parentEl st)
    (rootEl st) (nextEl st) (lastDownEl st) (oldIndex st) (newIndex st)
    (oldDraggableIndex st) (newDraggableIndex st) (activeGroup st)
    (putSortable st) v (tapEvt st) (awaitingDragStarted st)
    (ignoreNextClick st) (ghostEl st) (cloneEl st) (cloneHidden st)
    (lastTarget st) (lastDirection st) (pastFirstInvertThresh st)
    (isCircumstantialInvert st) (targetMoveDistance st) (_silent st)
    (savedInputChecked st) (Sortable_ghost st) (Sortable_clone st)
    (Sortable_dragged st) (Sortable_active st) (Sortable_eventCanceled st)
    (timers st) (log st).

Definition set_tapEvt (v : option (Q * Q)) (st : State) : State :=
  mkState (dom st) (expando st) (sortables st) (dragEl st) (parentEl st)
    (rootEl st) (nextEl st) (lastDownEl st) (oldIndex st) (newIndex st)
    (oldDraggableIndex st) (newDraggableIndex st) (activeGroup st)
    (putSortable st) (moved st) v (awaitingDragStarted st)
    (ignoreNextClick st) (ghostEl st) (cloneEl st) (cloneHidden st)
    (lastTarget st) (lastDirection st) (pastFirstInvertThresh st)
    (isCircumstantialInvert st) (targetMoveDistance st) (_silent st)
    (savedInputChecked st) (Sortable_ghost st) (Sortable_clone st)
    (Sortable_dragged st) (Sortable_active st) (Sortable_eventCanceled st)
    (timers st) (log st).

Definition set_awaitingDragStarted (v : bool) (st : State) : State :=
  mkState (dom st) (expando st) (sortables st) (dragEl st) (parentEl st)
    (rootEl st) (nextEl st) (lastDownEl st) (oldIndex st) (newIndex st)
    (oldDraggableIndex st) (newDraggableIndex st) (activeGroup st)
    (putSortable st) (moved st) (tapEvt st) v (ignoreNextClick st)
    (ghostEl st) (cloneEl st) (cloneHidden st) (lastTarget st)
    (lastDirection st) (pastFirstInvertThresh st) (isCircumstantialInvert st)
    (targetMoveDistance st) (_silent st) (savedInputChecked st)
    (Sortable_ghost st) (Sortable_clone st) (Sortable_dragged st)
    (Sortable_active st) (Sortable_eventCanceled st) (timers st) (log st).

Definition set_ignoreNextClick (v : bool) (st : State) : State :=
  mkState (dom st) (expando st) (sortables st) (dragEl st) (parentEl st)
    (rootEl st) (nextEl st) (lastDownEl st) (oldIndex st) (newIndex st)
    (oldDraggableIndex st) (newDraggableIndex st) (activeGroup st)
    (putSortable st) (moved st) (tapEvt st) (awaitingDragStarted st) v
    (ghostEl st) (cloneEl st) (cloneHidden st) (lastTarget st)
    (lastDirection st) (pastFirstInvertThresh st) (isCircumstantialInvert st)
    (targetMoveDistance st) (_silent st) (savedInputChecked st)
    (Sortable_ghost st) (Sortable_clone st) (Sortable_dragged st)
    (Sortable_active st) (Sortable_eventCanceled st) (timers st) (log st).

Definition set_ghostEl (v : option nat) (st : State) : State :=
  mkState (dom st) (expando st) (sortables st) (dragEl st) (parentEl st)
    (rootEl st) (nextEl st) (lastDownEl st) (oldIndex st) (newIndex st)
    (oldDraggableIndex st) (newDraggableIndex st) (activeGroup st)
    (putSortable st) (moved st) (tapEvt st) (awaitingDragStarted st)
    (ignoreNextClick st) v (cloneEl st) (cloneHidden st) (lastTarget st)
    (lastDirection st) (pastFirstInvertThresh st) (isCircumstantialInvert st)
    (targetMoveDistance st) (_silent st) (savedInputChecked st)
    (Sortable_ghost st) (Sortable_clone st) (Sortable_dragged st)
    (Sortable_active st) (Sortable_eventCanceled st) (timers st) (log st).

Definition set_cloneEl (v : option nat) (st : State) : State :=
  mkState (dom st) (expando st) (sortables st) (dragEl st) (parentEl st)
    (rootEl st) (nextEl st) (lastDownEl st) (oldIndex st) (newIndex st)
    (oldDraggableIndex st) (newDraggableIndex st) (activeGroup st)
    (putSortable st) (moved st) (tapEvt st) (awaitingDragStarted st)
    (ignoreNextClick st) (ghostEl st) v (cloneHidden st) (lastTarget st)
    (lastDirection st) (pastFirstInvertThresh st) (isCircumstantialInvert st)
    (targetMoveDistance st) (_silent st) (savedInputChecked st)
    (Sortable_ghost st) (Sortable_clone st) (Sortable_dragged st)
    (Sortable_active st) (Sortable_eventCanceled st) (timers st) (log st).

Definition set_cloneHidden (v : bool) (st : State) : State :=
  mkState (dom st) (expando st) (sortables st) (dragEl st) (parentEl st)
    (rootEl st) (nextEl st) (lastDownEl st) (oldIndex st) (newIndex st)
    (oldDraggableIndex st) (newDraggableIndex st) (activeGroup st)
    (putSortable st) (moved st) (tapEvt st) (awaitingDragStarted st)
    (ignoreNextClick st) (ghostEl st) (cloneEl st) v (lastTarget st)
    (lastDirection st) (pastFirstInvertThresh st) (isCircumstantialInvert st)
    (targetMoveDistance st) (_silent st) (savedInputChecked st)
    (Sortable_ghost st) (Sortable_clone st) (Sortable_dragged st)
    (Sortable_active st) (Sortable_eventCanceled st) (timers st) (log st).

Definition set_lastTarget (v : option nat) (st : State) : State :=
  mkState (dom st) (expando st) (sortables st) (dragEl st) (parentEl st)
    (rootEl st) (nextEl st) (lastDownEl st) (oldIndex st) (newIndex st)
    (oldDraggableIndex st) (newDraggableIndex st) (activeGroup st)
    (putSortable st) (moved st) (tapEvt st) (awaitingDragStarted st)
    (ignoreNextClick st) (ghostEl st) (cloneEl st) (cloneHidden st) v
    (lastDirection st) (pastFirstInvertThresh st) (isCircumstantialInvert st)
    (targetMoveDistance st) (_silent st) (savedInputChecked st)
    (Sortable_ghost st) (Sortable_clone st) (Sortable_dragged st)
    (Sortable_active st) (Sortable_eventCanceled st) (timers st) (log st).

Definition set_lastDirection (v : option Z) (st : State) : State :=
  mkState (dom st) (expando st) (sortables st) (dragEl st) (parentEl st)
    (rootEl st) (nextEl st) (lastDownEl st) (oldIndex st) (newIndex st)
    (oldDraggableIndex st) (newDraggableIndex st) (activeGroup st)
    (putSortable st) (moved st) (tapEvt st) (awaitingDragStarted st)
    (ignoreNextClick st) (ghostEl st) (cloneEl st) (cloneHidden st)
    (lastTarget st) v (pastFirstInvertThresh st) (isCircumstantialInvert st)
    (targetMoveDistance st) (_silent st) (savedInputChecked st)
    (Sortable_ghost st) (Sortable_clone st) (Sortable_dragged st)
    (Sortable_active st) (Sortable_eventCanceled st) (timers st) (log st).

Definition set_pastFirstInvertThresh (v : bool) (st : State) : State :=
  mkState (dom st) (expando st) (sortables st) (dragEl st) (parentEl st)
    (rootEl st) (nextEl st) (lastDownEl st) (oldIndex st) (newIndex st)
    (oldDraggableIndex st) (newDraggableIndex st) (activeGroup st)
    (putSortable st) (moved st) (tapEvt st) (awaitingDragStarted st)
    (ignoreNextClick st) (ghostEl st) (cloneEl st) (cloneHidden st)
    (lastTarget st) (lastDirection st) v (isCircumstantialInvert st)
    (targetMoveDistance st) (_silent st) (savedInputChecked st)
    (Sortable_ghost st) (Sortable_clone st) (Sortable_dragged st)
    (Sortable_active st) (Sortable_eventCanceled st) (timers st) (log st).

Definition set_isCircumstantialInvert (v : bool) (st : State) : State :=
  mkState (dom st) (expando st) (sortables st) (dragEl st) (parentEl st)
    (rootEl st) (nextEl st) (lastDownEl st) (oldIndex st) (newIndex st)
    (oldDraggableIndex st) (newDraggableIndex st) (activeGroup st)
    (putSortable st) (moved st) (tapEvt st) (awaitingDragStarted st)
    (ignoreNextClick st) (ghostEl st) (cloneEl st) (cloneHidden st)
    (lastTarget st) (lastDirection st) (pastFirstInvertThresh st) v
    (targetMoveDistance st) (_silent st) (savedInputChecked st)
    (Sortable_ghost st) (Sortable_clone st) (Sortable_dragged st)
    (Sortable_active st) (Sortable_eventCanceled st) (timers st) (log st).

Definition set_targetMoveDistance (v : option Q) (st : State) : State :=
  mkState (dom st) (expando st) (sortables st) (dragEl st) (parentEl st)
    (rootEl st) (nextEl st) (lastDownEl st) (oldIndex st) (newIndex st)
    (oldDraggableIndex st) (newDraggableIndex st) (activeGroup st)
    (putSortable st) (moved st) (tapEvt st) (awaitingDragStarted st)
    (ignoreNextClick st) (ghostEl st) (cloneEl st) (cloneHidden st)
    (lastTarget st) (lastDirection st) (pastFirstInvertThresh st)
    (isCircumstantialInvert st) v (_silent st) (savedInputChecked st)
    (Sortable_ghost st) (Sortable_clone st) (Sortable_dragged st)
    (Sortable_active st) (Sortable_eventCanceled st) (timers st) (log st).

Definition set__silent (v : bool) (st : State) : State :=
  mkState (dom st) (expando st) (sortables st) (dragEl st) (parentEl st)
    (rootEl st) (nextEl st) (lastDownEl st) (oldIndex st) (newIndex st)
    (oldDraggableIndex st) (newDraggableIndex st) (activeGroup st)
    (putSortable st) (moved st) (tapEvt st) (awaitingDragStarted st)
    (ignoreNextClick st) (ghostEl st) (cloneEl st) (cloneHidden st)
    (lastTarget st) (lastDirection st) (pastFirstInvertThresh st)
    (isCircumstantialInvert st) (targetMoveDistance st) v
    (savedInputChecked st) (Sortable_ghost st) (Sortable_clone st)
    (Sortable_dragged st) (Sortable_active st) (Sortable_eventCanceled st)
    (timers st) (log st).

Definition set_savedInputChecked (v : list nat) (st : State) : State :=
  mkState (dom st) (expando st) (sortables st) (dragEl st) (parentEl st)
    (rootEl st) (nextEl st) (lastDownEl st) (oldIndex st) (newIndex st)
    (oldDraggableIndex st) (newDraggableIndex st) (activeGroup st)
    (putSortable st) (moved st) (tapEvt st) (awaitingDragStarted st)
    (ignoreNextClick st) (ghostEl st) (cloneEl st) (cloneHidden st)
    (lastTarget st) (lastDirection st) (pastFirstInvertThresh st)
    (isCircumstantialInvert st) (targetMoveDistance st) (_silent st) v
    (Sortable_ghost st) (Sortable_clone st) (Sortable_dragged st)
    (Sortable_active st) (Sortable_eventCanceled st) (timers st) (log st).

Definition set_Sortable_ghost (v : option nat) (st : State) : State :=
  mkState (dom st) (expando st) (sortables st) (dragEl st) (parentEl st)
    (rootEl st) (nextEl st) (lastDownEl st) (oldIndex st) (newIndex st)
    (oldDraggableIndex st) (newDraggableIndex st) (activeGroup st)
    (putSortable st) (moved st) (tapEvt st) (awaitingDragStarted st)
    (ignoreNextClick st) (ghostEl st) (cloneEl st) (cloneHidden st)
    (lastTarget st) (lastDirection st) (pastFirstInvertThresh st)
    (isCircumstantialInvert st) (targetMoveDistance st) (_silent st)
    (savedInputChecked st) v (Sortable_clone st) (Sortable_dragged st)
    (Sortable_active st) (Sortable_eventCanceled st) (timers st) (log st).

Definition set_Sortable_clone (v : option nat) (st : State) : State :=
  mkState (dom st) (expando st) (sortables st) (dragEl st) (parentEl st)
    (rootEl st) (nextEl st) (lastDownEl st) (oldIndex st) (newIndex st)
    (oldDraggableIndex st) (newDraggableIndex st) (activeGroup st)
    (putSortable st) (moved st) (tapEvt st) (awaitingDragStarted st)
    (ignoreNextClick st) (ghostEl st) (cloneEl st) (cloneHidden st)
    (lastTarget st) (lastDirection st) (pastFirstInvertThresh st)
    (isCircumstantialInvert st) (targetMoveDistance st) (_silent st)
    (savedInputChecked st) (Sortable_ghost st) v (Sortable_dragged st)
    (Sortable_active st) (Sortable_eventCanceled st) (timers st) (log st).

Definition set_Sortable_dragged (v : option nat) (st : State) : State :=
  mkState (dom st) (expando st) (sortables st) (dragEl st) (parentEl st)
    (rootEl st) (nextEl st) (lastDownEl st) (oldIndex st) (newIndex st)
    (oldDraggableIndex st) (newDraggableIndex st) (activeGroup st)
    (putSortable st) (moved st) (tapEvt st) (awaitingDragStarted st)
    (ignoreNextClick st) (ghostEl st) (cloneEl st) (cloneHidden st)
    (lastTarget st) (lastDirection st) (pastFirstInvertThresh st)
    (isCircumstantialInvert st) (targetMoveDistance st) (_silent st)
    (savedInputChecked st) (Sortable_ghost st) (Sortable_clone st) v
    (Sortable_active st) (Sortable_eventCanceled st) (timers st) (log st).

Definition set_Sortable_active (v : option nat) (st : State) : State :=
  mkState (dom st) (expando st) (sortables st) (dragEl st) (parentEl st)
    (rootEl st) (nextEl st) (lastDownEl st) (oldIndex st) (newIndex st)
    (oldDraggableIndex st) (newDraggableIndex st) (activeGroup st)
    (putSortable st) (moved st) (tapEvt st) (awaitingDragStarted st)
    (ignoreNextClick st) (ghostEl st) (cloneEl st) (cloneHidden st)
    (lastTarget st) (lastDirection st) (pastFirstInvertThresh st)
    (isCircumstantialInvert st) (targetMoveDistance st) (_silent st)
    (savedInputChecked st) (Sortable_ghost st) (Sortable_clone st)
    (Sortable_dragged st) v (Sortable_eventCanceled st) (timers st) (log st).

Definition set_Sortable_eventCanceled (v : bool) (st : State) : State :=
  mkState (dom st) (expando st) (sortables st) (dragEl st) (parentEl st)
    (rootEl st) (nextEl st) (lastDownEl st) (oldIndex st) (newIndex st)
    (oldDraggableIndex st) (newDraggableIndex st) (activeGroup st)
    (putSortable st) (moved st) (tapEvt st) (awaitingDragStarted st)
    (ignoreNextClick st) (ghostEl st) (cloneEl st) (cloneHidden st)
    (lastTarget st) (lastDirection st) (pastFirstInvertThresh st)
    (isCircumstantialInvert st) (targetMoveDistance st) (_silent st)
    (savedInputChecked st) (Sortable_ghost st) (Sortable_clone st)
    (Sortable_dragged st) (Sortable_active st) v (timers st) (log st).

Definition set_timers (v : list (nat * Timer)) (st : State) : State :=
  mkState (dom st) (expando st) (sortables st) (dragEl st) (parentEl st)
    (rootEl st) (nextEl st) (lastDownEl st) (oldIndex st) (newIndex st)
    (oldDraggableIndex st) (newDraggableIndex st) (activeGroup st)
    (putSortable st) (moved st) (tapEvt st) (awaitingDragStarted st)
    (ignoreNextClick st) (ghostEl st) (cloneEl st) (cloneHidden st)
    (lastTarget st) (lastDirection st) (pastFirstInvertThresh st)
    (isCircumstantialInvert st) (targetMoveDistance st) (_silent st)
    (savedInputChecked st) (Sortable_ghost st) (Sortable_clone st)
    (Sortable_dragged st) (Sortable_active st) (Sortable_eventCanceled st) v
    (log st).

Definition set_log (v : list Effect) (st : State) : State :=
  mkState (dom st) (expando st) (sortables st) (dragEl st) (parentEl st)
    (rootEl st) (nextEl st) (lastDownEl st) (oldIndex st) (newIndex st)
    (oldDraggableIndex st) (newDraggableIndex st) (activeGroup st)
    (putSortable st) (moved st) (tapEvt st) (awaitingDragStarted st)
    (ignoreNextClick st) (ghostEl st) (cloneEl st) (cloneHidden st)
    (lastTarget st) (lastDirection st) (pastFirstInvertThresh st)
    (isCircumstantialInvert st) (targetMoveDistance st) (_silent st)
    (savedInputChecked st) (Sortable_ghost st) (Sortable_clone st)
    (Sortable_dragged st) (Sortable_active st) (Sortable_eventCanceled st)
    (timers st) v.

Definition emit (e : Effect) (st : State) : State := set_log (e :: log st) st.

(** How a call ends: it returns a value, or an exception escapes it. *)
Inductive Outcome (A : Type) :=
| Returns (a : A) (st : State)
| Throws (st : State).
Arguments Returns {A} a st.
Arguments Throws {A} st.

Definition stateOf {A} (o : Outcome A) : State :=
  match o with Returns _ st => st | Throws st => st end.

Definition andThen {A B} (o : Outcome A) (k : A → State → Outcome B) : Outcome B :=
  match o with
  | Returns a st => k a st
  | Throws st => Throws st
  end.

(** [Sortable.get(el)]. *)
Definition Sortable_get (st : State) (s : Node) : option Sortable := expando st !! s.

Definition updSortable (s : Node) (f : Sortable → Sortable) (st : State) : State :=
  set_expando (alter f s (expando st)) st.

Definition set_ignoreWhileAnimating (v : option nat) (x : Sortable) : Sortable :=
  mkSortable (el x) (options x) v (lastPutMode x) (nativeDraggable x).

Definition set_lastPutMode (v : option PullMode) (x : Sortable) : Sortable :=
  mkSortable (el x) (options x) (_ignoreWhileAnimating x) v (nativeDraggable x).

(** The DOM calls of the module, recorded and applied. *)
Definition domAppendChild (p n : Node) (st : State) : Outcome unit :=
  match appendChild (dom st) p n with
  | Some d => Returns () (set_dom d (emit (EAppendChild p n) st))
  | None => Throws st
  end.

Definition domInsertBefore (p n : Node) (ref : option nat) (st : State) : Outcome unit :=
  match insertBefore (dom st) p n ref with
  | Some d => Returns () (set_dom d (emit (EInsertBefore p n ref) st))
  | None => Throws st
  end.

Definition domRemoveChild (p n : Node) (st : State) : Outcome unit :=
  match removeChild (dom st) p n with
  | Some d => Returns () (set_dom d (emit (ERemoveChild p n) st))
  | None => Throws st
  end.

(** ** What the host supplies

    The helpers of [helpers/sortable], the browser flags, the geometry and
    the user's hooks.  Geometry depends on the current document, so those
    helpers read the state. *)

Record SwapArgs := mkSwapArgs {
  saEvt : DragEvent;
  saTarget : option nat;
  saTargetRect : Rect;
  saVertical : bool;
  saSwapThreshold : Q;
  saInvertedSwapThreshold : Q;
  saInvertSwap : bool;
  saIsLastTarget : bool;
  saDragEl : option nat;
  saTargetMoveDistance : option Q;
  saPastFirstInvertThresh : bool;
  saLastDirection : option Z
}.

Record TapEvent := mkTapEvent {
  tapCancelable : bool;
  tapIsMouseOrPointerDown : bool;     (* [/mousedown|pointerdown/.test(type)] *)
  tapButton : Z;
  tapTouch : bool;
  tapTarget : nat;
  tapOriginalTarget : nat;
  tapX : Q;
  tapY : Q
}.

Record Host := mkHost {
  page : Page;
  Safari : bool;
  FireFox : bool;
  Edge : bool;
  supportDraggable : bool;
  _prepareGroup : nat → SortableOptions → SortableOptions;
  _saveInputCheckedState : nat → Dom → list nat;
  filterFn : nat → TapEvent → option nat → bool;
  directionFn : nat → DragEvent → option nat → option nat → string;
  checkPull : SortableGroup → nat → nat → option nat → DragEvent → PullMode;
  checkPut : SortableGroup → nat → nat → option nat → DragEvent → bool;
  getRect : State → nat → Rect;
  _ghostIsLast : State → DragEvent → bool → nat → bool;
  _ghostIsFirst : State → DragEvent → bool → nat → bool;
  _dragElInRowColumn : Rect → Rect → bool → bool;
  isScrolledPast : State → nat → option nat;
  _getSwapDirection : SwapArgs → Z;
  onMove : MoveArgs → MoveVector;
  storeGet : nat → list string
}.

(** ** Clone visibility *)

(** [_hideClone()] on instance [a]. *)
Definition _hideClone (a : Node) (st : State) : Outcome unit :=
  match Sortable_get st a with
  | None => Throws st
  | Some this =>
      if cloneHidden st then Returns () st
      else if Sortable_eventCanceled st then Returns () st
      else
        let st1 := match cloneEl st with
                   | Some c => set_dom (setInlineNone c true (dom st)) st
                   | None => st
                   end in
        if removeCloneOnHide (options this) then
          match cloneEl st1 with
          | None => Throws st1
          | Some c =>
              match parentNode (dom st1) c with
              | Some p => andThen (domRemoveChild p c st1)
                            (λ _ st2, Returns () (set_cloneHidden true st2))
              | None => Returns () (set_cloneHidden true st1)
              end
          end
        else Returns () (set_cloneHidden true st1)
  end.

(** [_showClone(putSortable)] on instance [a].  The group of the instance
    is read for [revertClone]: in the test that places the clone when the
    dragged item still sits in the original root, and again after the
    clone was placed; a missing group throws at whichever comes first. *)
Definition _showClone (a : Node) (put : Node) (st : State) : Outcome unit :=
  match Sortable_get st a, Sortable_get st put with
  | Some this, Some putS =>
      if negb (bool_decide (lastPutMode putS = Some PullClone)) then _hideClone a st
      else if negb (cloneHidden st) then Returns () st
      else if Sortable_eventCanceled st then Returns () st
      else
        match dragEl st with
        | None => Throws st
        | Some d =>
            let grp := group (options this) in
            let inserted : Outcome unit :=
              if bool_decide (parentNode (dom st) d = rootEl st)
              then match grp with
                   | None => Throws st
                   | Some g =>
                       if negb (revertClone g)
                       then match rootEl st, cloneEl st with
                            | None, _ => Returns () st
                            | Some r, Some c => domInsertBefore r c (Some d) st
                            | Some r, None => Throws st
                            end
                       else match rootEl st, cloneEl st, nextEl st with
                            | None, _, _ => Returns () st
                            | Some r, None, _ => Throws st
                            | Some r, Some c, Some nx => domInsertBefore r c (Some nx) st
                            | Some r, Some c, None => domAppendChild r c st
                            end
                   end
              else match rootEl st, cloneEl st, nextEl st with
                   | None, _, _ => Returns () st
                   | Some r, None, _ => Throws st
                   | Some r, Some c, Some nx => domInsertBefore r c (Some nx) st
                   | Some r, Some c, None => domAppendChild r c st
                   end in
            andThen inserted (λ _ st1,
              match grp with
              | None => Throws st1
              | Some g =>
                  let st2 := if revertClone g then emit (EAnimate a) st1 else st1 in
                  let st3 := match cloneEl st2 with
                             | Some c => set_dom (setInlineNone c false (dom st2)) st2
                             | None => st2
                             end in
                  Returns () (set_cloneHidden false st3)
              end)
        end
  | _, _ => Throws st
  end.

(** [_isOutsideThisEl(target)] on instance [a]. *)
Definition _isOutsideThisEl (a : Node) (target : option nat) (st : State) : State :=
  if negb (contains (dom st) a target) && negb (bool_decide (target = Some a))
  then set_lastTarget None st
  else st.

(** ** Dragover: resolver and placement *)

Inductive Ret := RUndefined | RFalse | RTrue.

(** The inner function [capture]. *)
Definition capture (s : Node) (fromSortable : option nat) (st : State) : State :=
  let st1 := emit (ECapture s) st in
  match fromSortable with
  | Some f => if decide (f = s) then st1 else emit (ECapture f) st1
  | None => st1
  end.

(** The inner function [changed]. *)
Definition changed (h : Host) (opts : SortableOptions) (st : State) : State :=
  let st1 := set_newIndex
               (Some (index (page h) (dom st) (Sortable_clone st) (dragEl st) None)) st in
  set_newDraggableIndex
    (Some (index (page h) (dom st1) (Sortable_clone st1) (dragEl st1)
             (Some (draggable opts)))) st1.

(** The block of the inner function [completed] that runs after an
    insertion.  [isOwner], [activeSortable] and [fromSortable] were fixed
    when [_onDragOver] was entered; [target] is the current value of the
    local variable.  Class toggling is presentation and is not recorded. *)
Definition insertionEffects (s : Node) (isOwner : bool)
    (activeSortable fromSortable : option nat) (target : option nat) (st : State)
    : Outcome unit :=
  andThen
    (match activeSortable with
     | None => Returns () st
     | Some a => if isOwner then _hideClone a st else _showClone a s st
     end)
    (λ _ st1,
      let st2 :=
        if negb (bool_decide (putSortable st1 = Some s))
           && negb (bool_decide (Sortable_active st1 = Some s))
        then set_putSortable (Some s) st1
        else if bool_decide (Sortable_active st1 = Some s)
                && bool_decide (is_Some (putSortable st1))
        then set_putSortable None st1
        else st1 in
      let st3 := if decide (fromSortable = Some s)
                 then updSortable s (set_ignoreWhileAnimating target) st2
                 else st2 in
      let st4 := emit (EAnimateAll s) st3 in
      if decide (fromSortable = Some s) then Returns () st4
      else match fromSortable with
           | None => Throws st4
           | Some f =>
               Returns () (updSortable f (set_ignoreWhileAnimating None)
                             (emit (EAnimateAll f) st4))
           end).

(** The rest of [completed]: forget [lastTarget] when the pointer is on the
    dragged item or on the root itself, look for a nearby empty list when
    nothing was inserted, and answer [true].  Event propagation is not
    recorded. *)
Definition completedTail (h : Host) (s : Node) (evt : DragEvent) (opts : SortableOptions)
    (target : option nat) (insertion : bool) (st : State) : Outcome Ret :=
  let nullLast : Outcome unit :=
    match dragEl st with
    | Some d =>
        if (bool_decide (target = Some d) && negb (animated (page h) d))
           || (bool_decide (target = Some s) && negb (animated (page h) s))
        then Returns () (set_lastTarget None st)
        else Returns () st
    | None =>
        match target with
        | None => Throws st
        | Some t =>
            if bool_decide (t = s) && negb (animated (page h) s)
            then Returns () (set_lastTarget None st)
            else Returns () st
        end
    end in
  andThen nullLast (λ _ st2,
    if negb (dragoverBubble opts)
       && negb (bool_decide (is_Some (evRootEl evt)))
       && negb (bool_decide (target = Some document))
    then
      match dragEl st2 ≫= parentNode (dom st2) with
      | Some p =>
          match Sortable_get st2 p with
          | Some _ =>
              let st3 := _isOutsideThisEl p (evTarget evt) st2 in
              Returns RTrue (if insertion then st3 else emit (EDetectEmpty evt) st3)
          | None => Throws st2
          end
      | None => Throws st2
      end
    else Returns RTrue st2).

(** The inner function [completed]. *)
Definition completed (h : Host) (s : Node) (evt : DragEvent) (opts : SortableOptions)
    (isOwner : bool) (activeSortable fromSortable : option nat)
    (target : option nat) (insertion : bool) (st : State) : Outcome Ret :=
  if insertion
  then andThen (insertionEffects s isOwner activeSortable fromSortable target st)
         (λ _ st1, completedTail h s evt opts target true st1)
  else completedTail h s evt opts target false st.

Definition _getDirection (h : Host) (s : Node) (opts : SortableOptions)
    (evt : DragEvent) (target : option nat) (st : State) : string :=
  match direction opts with
  | DirFunction => directionFn h s evt target (dragEl st)
  | DirString x => x
  end.

Definition isVetoed (mv : MoveVector) : bool :=
  match mv with MvFalse => true | _ => false end.

(** The tail of [_onDragOver] that every un-committed branch reaches. *)
Definition fallThrough (h : Host) (s : Node) (evt : DragEvent) (opts : SortableOptions)
    (isOwner : bool) (activeSortable fromSortable : option nat)
    (target : option nat) (st : State) : Outcome Ret :=
  if contains (dom st) s (dragEl st)
  then completed h s evt opts isOwner activeSortable fromSortable target false st
  else Returns RFalse st.

(** Reverting the item into its original list ([revert]). *)
Definition revertBranch (h : Host) (s : Node) (evt : DragEvent) (opts : SortableOptions)
    (isOwner : bool) (activeSortable fromSortable : option nat)
    (d : Node) (target : option nat) (st : State) : Outcome Ret :=
  let st1 := capture s fromSortable (set_parentEl (rootEl st) st) in
  andThen (_hideClone s st1) (λ _ st2,
    andThen
      (if Sortable_eventCanceled st2 then Returns () st2
       else match rootEl st2 with
            | None => Returns () st2
            | Some r =>
                match nextEl st2 with
                | Some nx => domInsertBefore r d (Some nx) st2
                | None => domAppendChild r d st2
                end
            end)
      (λ _ st3, completed h s evt opts isOwner activeSortable fromSortable target true st3)).

(** Insert to end of list. *)
Definition endBranch (h : Host) (s : Node) (evt : DragEvent) (opts : SortableOptions)
    (isOwner : bool) (activeSortable fromSortable : option nat)
    (d : Node) (dragRect : Rect) (target elLastChild : option nat) (st : State)
    : Outcome Ret :=
  if bool_decide (elLastChild = Some d)
  then completed h s evt opts isOwner activeSortable fromSortable target false st
  else
    let target1 :=
      if bool_decide (is_Some elLastChild) && bool_decide (evTarget evt = Some s)
      then elLastChild else target in
    let targetRect := getRect h st <$> target1 in
    let args := mkMoveArgs (rootEl st) s (Some d) (Some dragRect) target1 targetRect evt
                  (bool_decide (is_Some target1)) in
    let mv := onMove h args in
    let st1 := emit (EMove args mv) st in
    if isVetoed mv
    then fallThrough h s evt opts isOwner activeSortable fromSortable target1 st1
    else
      let st2 := capture s fromSortable st1 in
      andThen
        (match elLastChild ≫= nextElementSibling (dom st2) with
         | Some nx => domInsertBefore s d (Some nx) st2
         | None => domAppendChild s d st2
         end)
        (λ _ st3,
          completed h s evt opts isOwner activeSortable fromSortable target1 true
            (changed h opts (set_parentEl (Some s) st3))).

(** Insert to start of list. *)
Definition startBranch (h : Host) (s : Node) (evt : DragEvent) (opts : SortableOptions)
    (isOwner : bool) (activeSortable fromSortable : option nat)
    (d : Node) (dragRect : Rect) (target : option nat) (st : State) : Outcome Ret :=
  let firstChild :=
    getChild (page h) (dom st) (Sortable_ghost st) (Sortable_dragged st) s 0
      (draggable opts) true in
  if bool_decide (firstChild = Some d)
  then completed h s evt opts isOwner activeSortable fromSortable target false st
  else
    match firstChild with
    | None => Throws st
    | Some fc =>
        let targetRect := getRect h st fc in
        let args := mkMoveArgs (rootEl st) s (Some d) (Some dragRect) (Some fc)
                      (Some targetRect) evt false in
        let mv := onMove h args in
        let st1 := emit (EMove args mv) st in
        if isVetoed mv
        then fallThrough h s evt opts isOwner activeSortable fromSortable (Some fc) st1
        else
          let st2 := capture s fromSortable st1 in
          andThen (domInsertBefore s d (Some fc) st2) (λ _ st3,
            completed h s evt opts isOwner activeSortable fromSortable (Some fc) true
              (changed h opts (set_parentEl (Some s) st3)))
    end.

(** The walk that looks for the element beside [dragEl]: from [dragIndex],
    step by [-direction] through [parentEl.children], past hidden elements
    and the ghost.  An index outside the collection reads [undefined]. *)
Fixpoint besideLoop (fuel : nat) (pg : Page) (d : Dom) (ghost : option nat)
    (cs : list nat) (direction dragIndex : Z) : option nat :=
  match fuel with
  | O => None
  | S f =>
      let dragIndex' := dragIndex - direction in
      match (if dragIndex' <? 0 then None else cs !! Z.to_nat dragIndex') with
      | Some sibling =>
          if cssDisplayNone pg d sibling || bool_decide (Some sibling = ghost)
          then besideLoop f pg d ghost cs direction dragIndex'
          else Some sibling
      | None => None
      end
  end.

Definition beside (h : Host) (st : State) (direction : Z) : option nat :=
  let cs := match parentEl st with Some p => children (dom st) p | None => [] end in
  besideLoop (S (length cs)) (page h) (dom st) (ghostEl st) cs direction
    (index (page h) (dom st) (Sortable_clone st) (dragEl st) None).

Definition side1 (vertical : bool) (r : Rect) : Q :=
  if vertical then rTop r else rLeft r.

Definition rectOr (pg : Page) (n : Node) (r : Rect) : Rect :=
  if animated pg n then default r (toRect pg n) else r.

(** The arguments [_onDragOver] hands to [_getSwapDirection]. *)
Definition swapArgs (opts : SortableOptions) (evt : DragEvent) (d t : Node)
    (targetRect : Rect) (vertical differentRowCol : bool) (st : State) : SwapArgs :=
  mkSwapArgs evt (Some t) targetRect vertical
    (if differentRowCol then 1%Q else swapThreshold opts)
    (match invertedSwapThreshold opts with
     | None => swapThreshold opts
     | Some x => x
     end)
    (isCircumstantialInvert st)
    (bool_decide (lastTarget st = Some t))
    (Some d) (targetMoveDistance st) (pastFirstInvertThresh st) (lastDirection st).

(** The swap state as it stands when the direction is asked for: a new
    target resets the hysteresis flag and latches the invert condition. *)
Definition latchSwapState (opts : SortableOptions) (t : Node)
    (differentRowCol differentLevel : bool) (st : State) : State :=
  if bool_decide (lastTarget st = Some t) then st
  else set_isCircumstantialInvert
         ((negb differentRowCol && invertSwap opts) || differentLevel)
         (set_pastFirstInvertThresh false st).

(** Whether the dragged item and the target fail to share a row (or a
    column), judged on the rectangles they are animating towards, if any. *)
Definition differentRowCol (h : Host) (d : Node) (dragRect : Rect) (t : Node)
    (targetRect : Rect) (vertical : bool) : bool :=
  negb (_dragElInRowColumn h (rectOr (page h) d dragRect)
          (rectOr (page h) t targetRect) vertical).

(** The state in which a mid-list swap asks for its direction. *)
Definition swapDecisionState (h : Host) (s : Node) (opts : SortableOptions)
    (d : Node) (dragRect : Rect) (t : Node) (vertical : bool) (st : State) : State :=
  latchSwapState opts t
    (differentRowCol h d dragRect t (getRect h st t) vertical)
    (negb (bool_decide (parentNode (dom st) d = Some s))) st.

(** The direction a mid-list swap obtains from [_getSwapDirection]. *)
Definition swapDirection (h : Host) (s : Node) (evt : DragEvent) (opts : SortableOptions)
    (d : Node) (dragRect : Rect) (t : Node) (vertical : bool) (st : State) : Z :=
  _getSwapDirection h
    (swapArgs opts evt d t (getRect h st t) vertical
       (differentRowCol h d dragRect t (getRect h st t) vertical)
       (swapDecisionState h s opts d dragRect t vertical st)).

(** The part of a mid-list swap that follows the test for an item already
    beside its target: the direction is recorded, the move hook is asked,
    and, unless it refuses, the guard is set and the item is placed.
    [st1] is the state in which the direction was obtained. *)
Definition swapPlace (h : Host) (s : Node) (evt : DragEvent) (opts : SortableOptions)
    (isOwner : bool) (activeSortable fromSortable : option nat)
    (d : Node) (dragRect : Rect) (t : Node) (vertical : bool)
    (targetRect : Rect) (scrolledPastTop : option nat) (targetBeforeFirstSwap : option Q)
    (direction : Z) (st1 : State) : Outcome Ret :=
  let st2 := set_lastDirection (Some direction) (set_lastTarget (Some t) st1) in
  let nextSibling := nextElementSibling (dom st2) t in
  let args := mkMoveArgs (rootEl st2) s (Some d) (Some dragRect) (Some t)
                (Some targetRect) evt (direction =? 1) in
  let moveVector := onMove h args in
  let st3 := emit (EMove args moveVector) st2 in
  if isVetoed moveVector
  then fallThrough h s evt opts isOwner activeSortable fromSortable (Some t) st3
  else
    let after := match moveVector with
                 | MvAfter => true
                 | MvBefore => false
                 | _ => direction =? 1
                 end in
    let st4 := set_timers ((30%nat, ClearSilent) :: timers st3) (set__silent true st3) in
    let st5 := capture s fromSortable st4 in
    andThen
      (if after && negb (bool_decide (is_Some nextSibling))
       then domAppendChild s d st5
       else match parentNode (dom st5) t with
            | Some p => domInsertBefore p d (if after then nextSibling else Some t) st5
            | None => Returns () st5
            end)
      (λ _ st6,
        let st7 := match scrolledPastTop with
                   | Some x => emit (EScrollBy x) st6
                   | None => st6
                   end in
        let st8 := set_parentEl (parentNode (dom st7) d) st7 in
        let st9 :=
          match targetBeforeFirstSwap with
          | Some before =>
              if isCircumstantialInvert st8 then st8
              else set_targetMoveDistance
                     (Some (Qabs (before - side1 vertical (getRect h st8 t)))) st8
          | None => st8
          end in
        completed h s evt opts isOwner activeSortable fromSortable (Some t) true
          (changed h opts st9)).

(** Mid-list swap over the target [t], a child of the root. *)
Definition swapBranch (h : Host) (s : Node) (evt : DragEvent) (opts : SortableOptions)
    (isOwner : bool) (activeSortable fromSortable : option nat)
    (d : Node) (dragRect : Rect) (t : Node) (vertical : bool) (st : State)
    : Outcome Ret :=
  let targetRect := getRect h st t in
  let scrolledPastTop :=
    match isScrolledPast h st t with
    | Some x => Some x
    | None => isScrolledPast h st d
    end in
  let targetBeforeFirstSwap :=
    if bool_decide (lastTarget st = Some t) then None
    else Some (side1 vertical targetRect) in
  let st1 := swapDecisionState h s opts d dragRect t vertical st in
  let direction := swapDirection h s evt opts d dragRect t vertical st in
  let sibling := if direction =? 0 then None else beside h st1 direction in
  if (direction =? 0) || bool_decide (sibling = Some t)
  then completed h s evt opts isOwner activeSortable fromSortable (Some t) false st1
  else swapPlace h s evt opts isOwner activeSortable fromSortable d dragRect t vertical
         targetRect scrolledPastTop targetBeforeFirstSwap direction st1.

(** Whether the instance may receive the dragged item, whether this is a
    revert into the original list, and the state after [lastPutMode] was
    written. *)
Definition permission (h : Host) (s : Node) (opts : SortableOptions) (evt : DragEvent)
    (st : State) : bool * bool * State :=
  match Sortable_active st with
  | None => (false, false, st)
  | Some a =>
      if disabled opts then (false, false, st)
      else if bool_decide (activeGroup st = group opts) then
        if sort opts then (true, false, st)
        else let revert := negb (bool_decide (parentEl st = rootEl st)) in
             (revert, revert, st)
      else if bool_decide (putSortable st = Some s) then (true, false, st)
      else
        let pull := (λ g, checkPull h g s a (dragEl st) evt) <$> activeGroup st in
        let st1 := updSortable s (set_lastPutMode pull) st in
        match pull with
        | Some PullTrue | Some PullClone =>
            (match group opts with
             | Some g => checkPut h g s a (dragEl st1) evt
             | None => false
             end, false, st1)
        | _ => (false, false, st1)
        end
  end.

(** [_onDragOver(evt)] on the instance whose root is [s].  The calls on the
    event itself ([preventDefault], [stopPropagation]) and the toggling of
    CSS classes are not represented: they write nothing that the code
    embedded here reads. *)
Definition _onDragOver (h : Host) (s : Node) (evt : DragEvent) (st : State)
    : Outcome Ret :=
  match Sortable_get st s with
  | None => Throws st
  | Some this =>
      let opts := options this in
      let activeSortable := Sortable_active st in
      let isOwner := bool_decide (activeGroup st = group opts) in
      let fromSortable := match putSortable st with
                          | Some p => Some p
                          | None => activeSortable
                          end in
      if _silent st then Returns RUndefined st
      else
        let target := closest (page h) (dom st) (evTarget evt) (Some (draggable opts)) s true in
        if Sortable_eventCanceled st then Returns RFalse st
        else if (match dragEl st with
                 | Some d => contains (dom st) d (evTarget evt)
                 | None => false
                 end)
                || (match target with
                    | Some t => animated (page h) t && animatingX (page h) t
                                && animatingY (page h) t
                    | None => false
                    end)
                || bool_decide (_ignoreWhileAnimating this = target)
        then completed h s evt opts isOwner activeSortable fromSortable target false st
        else
          let st0 := set_ignoreNextClick false st in
          let '(permitted, revert, st1) := permission h s opts evt st0 in
          if permitted then
            let vertical := String.eqb (_getDirection h s opts evt target st1) "vertical" in
            match dragEl st1 with
            | None => Throws st1
            | Some d =>
                let dragRect := getRect h st1 d in
                if Sortable_eventCanceled st1 then Returns RFalse st1
                else if revert
                then revertBranch h s evt opts isOwner activeSortable fromSortable d target st1
                else
                  let elLastChild :=
                    lastChild (page h) (dom st1) (Sortable_ghost st1) s (draggable opts) in
                  if match elLastChild with
                     | None => true
                     | Some l => _ghostIsLast h st1 evt vertical s && negb (animated (page h) l)
                     end
                  then endBranch h s evt opts isOwner activeSortable fromSortable d dragRect
                         target elLastChild st1
                  else if _ghostIsFirst h st1 evt vertical s
                  then startBranch h s evt opts isOwner activeSortable fromSortable d dragRect
                         target st1
                  else match target with
                       | Some t =>
                           if bool_decide (parentNode (dom st1) t = Some s)
                           then swapBranch h s evt opts isOwner activeSortable fromSortable
                                  d dragRect t vertical st1
                           else fallThrough h s evt opts isOwner activeSortable fromSortable
                                  target st1
                       | None =>
                           fallThrough h s evt opts isOwner activeSortable fromSortable
                             target st1
                       end
            end
          else Returns RFalse st1
  end.

(** ** Drop *)

(** [_nulling()].  Restoring [checked] on the saved inputs is a write to
    those inputs only and is not represented. *)
Definition _nulling (st : State) : State :=
  mkState (dom st) (expando st) (sortables st)
    None None None None ElNull
    None None None None
    None None
    false None (awaitingDragStarted st) (ignoreNextClick st)
    None None false
    None None
    (pastFirstInvertThresh st) (isCircumstantialInvert st) (targetMoveDistance st)
    (_silent st) []
    None None None None (Sortable_eventCanceled st)
    (timers st) (log st).

(** [save()] on instance [a]. *)
Definition save (a : Node) (st : State) : Outcome unit :=
  match Sortable_get st a with
  | None => Throws st
  | Some this =>
      match store (options this) with
      | Some sto => if hasSet sto then Returns () (emit (EStoreSet a) st) else Returns () st
      | None => Returns () st
      end
  end.

Definition isDragStartOf (s : Node) (t : nat * Timer) : bool :=
  match t.2 with
  | DragStartFn s' => bool_decide (s' = s)
  | ClearSilent => false
  end.

(** [_onDrop(evt)] on instance [s], up to but excluding its closing
    [_nulling()].  [hasEvt] tells whether an event was passed. *)
Definition dropSettle (h : Host) (s : Node) (hasEvt : bool) (st : State) : Outcome unit :=
  match Sortable_get st s with
  | None => Throws st
  | Some this =>
      let opts := options this in
      let reindex (st : State) : State :=
        let st1 := set_newIndex
                     (Some (index (page h) (dom st) (Sortable_clone st) (dragEl st) None)) st in
        set_newDraggableIndex
          (Some (index (page h) (dom st1) (Sortable_clone st1) (dragEl st1)
                   (Some (draggable opts)))) st1 in
      let st1 := reindex st in
      let st2 := set_parentEl (dragEl st1 ≫= parentNode (dom st1)) st1 in
      let st3 := reindex st2 in
      if Sortable_eventCanceled st3 then Returns () st3
      else
        let st4 := set_pastFirstInvertThresh false
                     (set_isCircumstantialInvert false
                        (set_awaitingDragStarted false st3)) in
        let st5 := set_timers (filter (λ t, negb (isDragStartOf s t) = true) (timers st4)) st4 in
        if negb hasEvt then Returns () st5
        else
          andThen
            (match ghostEl st5 with
             | Some g => match parentNode (dom st5) g with
                         | Some p => domRemoveChild p g st5
                         | None => Returns () st5
                         end
             | None => Returns () st5
             end)
            (λ _ st6,
              let cloneGoes :=
                bool_decide (rootEl st6 = parentEl st6)
                || match putSortable st6 ≫= Sortable_get st6 with
                   | Some put => negb (bool_decide (lastPutMode put = Some PullClone))
                   | None => false
                   end in
              andThen
                (if cloneGoes then
                   match cloneEl st6 with
                   | Some c => match parentNode (dom st6) c with
                               | Some p => domRemoveChild p c st6
                               | None => Returns () st6
                               end
                   | None => Returns () st6
                   end
                 else Returns () st6)
                (λ _ st7,
                  match dragEl st7 with
                  | None => Returns () st7
                  | Some _ =>
                      andThen
                        (if bool_decide (rootEl st7 = parentEl st7) then Returns () st7
                         else match putSortable st7 with
                              | Some put => save put st7
                              | None => Returns () st7
                              end)
                        (λ _ st8,
                          match Sortable_active st8 with
                          | None => Returns () st8
                          | Some _ =>
                              let st9 :=
                                match newIndex st8 with
                                | None | Some (-1) =>
                                    set_newDraggableIndex (oldDraggableIndex st8)
                                      (set_newIndex (oldIndex st8) st8)
                                | Some _ => st8
                                end in
                              save s st9
                          end)
                  end))
  end.

Definition _onDrop (h : Host) (s : Node) (hasEvt : bool) (st : State) : Outcome unit :=
  andThen (dropSettle h s hasEvt st) (λ _ st1, Returns () (_nulling st1)).

(** ** Tap start *)

(** The function [dragStartFn] built by [_prepareDragStart]; binding the
    drag events and styling the chosen item leave no trace in the state. *)
Definition dragStartFn (h : Host) (s : Node) (st : State) : Outcome unit :=
  if Sortable_eventCanceled st then _onDrop h s false st
  else Returns () st.

(** [_prepareDragStart(evt, touch, target)] on instance [s]. *)
Definition _prepareDragStart (h : Host) (s : Node) (evt : TapEvent)
    (target : option nat) (st : State) : Outcome unit :=
  match Sortable_get st s with
  | None => Throws st
  | Some this =>
      let opts := options this in
      match target with
      | Some t =>
          if negb (bool_decide (is_Some (dragEl st)))
             && bool_decide (parentNode (dom st) t = Some s)
          then
            let st1 :=
              set_tapEvt (Some (tapX evt, tapY evt))
                (set_Sortable_dragged (Some t)
                   (set_activeGroup (group opts)
                      (set_lastDownEl (ElNode t)
                         (set_nextEl (nextElementSibling (dom st) t)
                            (set_parentEl (parentNode (dom st) t)
                               (set_dragEl (Some t)
                                  (set_rootEl (Some s) st))))))) in
            if negb (delay opts =? 0)%nat
               && (negb (delayOnTouchOnly opts) || tapTouch evt)
               && (negb (nativeDraggable this) || negb (Edge h))
            then
              if Sortable_eventCanceled st1 then _onDrop h s false st1
              else Returns () (set_timers ((delay opts, DragStartFn s) :: timers st1) st1)
            else dragStartFn h s st1
          else Returns () st
      | None => Returns () st
      end
  end.

(** [_onTapStart(evt)], the listener of the root [s].  It runs with [this]
    the root element: the instance is [Sortable.get(this)], and
    [this.nativeDraggable], read off the element, is [undefined], which
    leaves the Safari test to the browser and the tag of the target. *)
Definition _onTapStart (h : Host) (s : Node) (evt : TapEvent) (st : State) : Outcome unit :=
  if negb (tapCancelable evt) then Returns () st
  else
    match Sortable_get st s with
    | None => Throws st
    | Some this =>
        let opts := options this in
        let st1 := set_savedInputChecked (_saveInputCheckedState h s (dom st)) st in
        if bool_decide (is_Some (dragEl st1)) then Returns () st1
        else if (tapIsMouseOrPointerDown evt && negb (tapButton evt =? 0)) || disabled opts
        then Returns () st1
        else if isContentEditable (page h) (tapOriginalTarget evt) then Returns () st1
        else if Safari h
                && String.eqb (toUpperCase (nodeName (page h) (tapTarget evt))) "SELECT"
        then Returns () st1
        else
          let target := closest (page h) (dom st1) (Some (tapTarget evt))
                          (Some (draggable opts)) s false in
          if match target with Some t => animated (page h) t | None => false end
          then Returns () st1
          else if sameRef (lastDownEl st1) target then Returns () st1
          else
            let st2 := set_oldIndex
                         (Some (index (page h) (dom st1) (Sortable_clone st1) target None)) st1 in
            let st3 := set_oldDraggableIndex
                         (Some (index (page h) (dom st2) (Sortable_clone st2) target
                                  (Some (draggable opts)))) st2 in
            let filtered :=
              match filter_ opts with
              | Some FilterFunction => filterFn h s evt target
              | Some (FilterSelectors criteria) =>
                  existsb (λ c, bool_decide (is_Some
                                   (closest (page h) (dom st3) (Some (tapOriginalTarget evt))
                                      (Some c) s false))) criteria
              | None => false
              end in
            if filtered then Returns () st3
            else if match handle opts with
                    | Some hd =>
                        negb (String.eqb hd "")
                        && negb (bool_decide (is_Some
                                   (closest (page h) (dom st3) (Some (tapOriginalTarget evt))
                                      (Some hd) s false)))
                    | None => false
                    end
            then Returns () st3
            else _prepareDragStart h s evt target st3
    end.

(** A pending timer fires. *)
Definition fireTimer (h : Host) (t : Timer) (st : State) : Outcome unit :=
  match t with
  | ClearSilent => Returns () (set__silent false st)
  | DragStartFn s => dragStartFn h s st
  end.

(** ** Serialising and applying an order *)

(** [el.getAttribute(options.dataIdAttr) || _generateId(el)]. *)
Definition itemId (pg : Page) (opts : SortableOptions) (c : Node) : string :=
  match getAttribute pg c (dataIdAttr opts) with
  | Some a => if String.eqb a "" then _generateId pg c else a
  | None => _generateId pg c
  end.

Definition isDraggableChild (pg : Page) (d : Dom) (opts : SortableOptions)
    (root : Node) (c : option nat) : bool :=
  bool_decide (is_Some (closest pg d c (Some (draggable opts)) root false)).

Fixpoint toArrayLoop (pg : Page) (d : Dom) (opts : SortableOptions) (root : Node)
    (rest : list nat) : list string :=
  match rest with
  | [] => []
  | c :: rest' =>
      if isDraggableChild pg d opts root (Some c)
      then itemId pg opts c :: toArrayLoop pg d opts root rest'
      else toArrayLoop pg d opts root rest'
  end.

(** What [Sortable.get] is handed: an element, or, in [Sortable.get(this)]
    inside a method called on an instance, that instance. *)
Inductive GetArg := OfElement (n : Node) | OfInstance (this : Sortable).

(** [Sortable.get(x)], that is [x[expando]].  The expando is written on
    root elements only (constructor, line 183; [destroy], line 1546); read
    off an instance object it is [undefined]. *)
Definition Sortable_getOf (st : State) (x : GetArg) : option Sortable :=
  match x with
  | OfElement n => Sortable_get st n
  | OfInstance _ => None
  end.

(** [toArray()] called on the instance [this]: [_this] is
    [Sortable.get(this)], the children are those of [this.el], and
    [_this.options], the last of the declarations, throws without an
    instance. *)
Definition toArray (pg : Page) (this : Sortable) (st : State) : Outcome (list string) :=
  match Sortable_getOf st (OfInstance this) with
  | None => Throws st
  | Some _this =>
      Returns (toArrayLoop pg (dom st) (options _this) (el this)
                 (children (dom st) (el this))) st
  end.

(** The first [forEach] of [sort]: the [i]-th identifier of [toArray()] is
    bound to the [i]-th child of the root, if that child is draggable.
    The map holds the own properties of the plain object [items]. *)
Fixpoint collectItems (pg : Page) (d : Dom) (opts : SortableOptions) (root : Node)
    (ids : list string) (i : nat) (items : gmap string nat) : gmap string nat :=
  match ids with
  | [] => items
  | id :: ids' =>
      let child := children d root !! i in
      collectItems pg d opts root ids' (S i)
        (match child with
         | Some c => if isDraggableChild pg d opts root child
                     then <[id := c]> items else items
         | None => items
         end)
  end.

(** The names every plain object answers to through [Object.prototype]. *)
Definition Object_prototype_names : list string :=
  ["constructor"; "toString"; "toLocaleString"; "valueOf"; "hasOwnProperty";
   "isPrototypeOf"; "propertyIsEnumerable"; "__proto__"; "__defineGetter__";
   "__defineSetter__"; "__lookupGetter__"; "__lookupSetter__"]%string.

(** What [items[id]] reads: a child, a member of [Object.prototype], or
    nothing.  An identifier [__proto__] among the children, which would
    replace the prototype of [items], is not represented. *)
Inductive ItemSlot := SlotChild (c : nat) | SlotInherited | SlotEmpty.

Definition itemsGet (items : gmap string nat) (id : string) : ItemSlot :=
  match items !! id with
  | Some c => SlotChild c
  | None => if bool_decide (id ∈ Object_prototype_names) then SlotInherited else SlotEmpty
  end.

(** The second [forEach] of [sort].  An inherited member is truthy and not
    a node: [removeChild] throws on it. *)
Fixpoint applyOrder (root : Node) (items : gmap string nat) (order : list string)
    (st : State) : Outcome unit :=
  match order with
  | [] => Returns () st
  | id :: order' =>
      match itemsGet items id with
      | SlotChild c =>
          andThen (domRemoveChild root c st) (λ _ st1,
            andThen (domAppendChild root c st1) (λ _ st2,
              applyOrder root items order' st2))
      | SlotInherited => Throws st
      | SlotEmpty => applyOrder root items order' st
      end
  end.

(** [sort(order, useAnimation)] called on the instance [this]: [_this] is
    [Sortable.get(this)], and [_this.toArray()] is the first use of it. *)
Definition sort_ (h : Host) (this : Sortable) (order : list string) (useAnimation : bool)
    (st : State) : Outcome unit :=
  match Sortable_getOf st (OfInstance this) with
  | None => Throws st
  | Some _this =>
      let rootEl := el this in
      andThen (toArray (page h) _this st) (λ ids st0,
        let items := collectItems (page h) (dom st0) (options _this) rootEl ids 0 ∅ in
        let st1 := if useAnimation then emit (ECapture (el _this)) st0 else st0 in
        andThen (applyOrder rootEl items order st1) (λ _ st2,
          Returns () (if useAnimation then emit (EAnimateAll (el _this)) st2 else st2)))
  end.

(** ** Construction *)

(** The value handed to the constructor as [el]: [undefined] or [null]; an
    element of the document; or any other value, with the [nodeType]
    property it may have.  The last kind has no [addEventListener]: an
    object with [nodeType] 1 that can be listened on is an element as far
    as the constructor can tell. *)
Inductive JsVal :=
| JsNullish
| JsElement (root : nat)
| JsOther (nodeTypeProp : option Z).

(** [el && el.nodeType && el.nodeType === 1]. *)
Definition passesElementTest (v : JsVal) : bool :=
  match v with
  | JsNullish => false
  | JsElement _ => true
  | JsOther (Some 1) => true
  | JsOther _ => false
  end.

Record PartialOptions := mkPartial {
  p_group : option SortableGroup;
  p_sort : option bool;
  p_disabled : option bool;
  p_store : option Store;
  p_handle : option string;
  p_draggable : option string;
  p_swapThreshold : option Q;
  p_invertSwap : option bool;
  p_invertedSwapThreshold : option Q;
  p_removeCloneOnHide : option bool;
  p_direction : option Direction;
  p_filter : option Filter;
  p_preventOnFilter : option bool;
  p_dropBubble : option bool;
  p_dragoverBubble : option bool;
  p_dataIdAttr : option string;
  p_delay : option nat;
  p_delayOnTouchOnly : option bool;
  p_forceFallback : option bool;
  p_supportPointer : option bool;
  p_emptyInsertThreshold : option Q
}.

(** The [defaults] table of the constructor, applied to the options that
    were not given. *)
Definition withDefaults (h : Host) (root : Node) (o : PartialOptions) : SortableOptions :=
  let name := toUpperCase (nodeName (page h) root) in
  mkOptions
    (p_group o)
    (default true (p_sort o))
    (default false (p_disabled o))
    (p_store o)
    (p_handle o)
    (default (if String.eqb name "UL" || String.eqb name "OL" then ">li" else ">*")%string
       (p_draggable o))
    (default 1%Q (p_swapThreshold o))
    (default false (p_invertSwap o))
    (p_invertedSwapThreshold o)
    (default true (p_removeCloneOnHide o))
    (default DirFunction (p_direction o))
    (p_filter o)
    (default true (p_preventOnFilter o))
    (default false (p_dropBubble o))
    (default false (p_dragoverBubble o))
    (default "data-id"%string (p_dataIdAttr o))
    (default 0%nat (p_delay o))
    (default false (p_delayOnTouchOnly o))
    (default false (p_forceFallback o))
    (default true (p_supportPointer o))
    (default 5%Q (p_emptyInsertThreshold o)).

(** [new Sortable(el, options)].  A value that fails the element test is
    refused before anything is written.  A value that passes it without
    being an element receives the expando, which leaves the document as it
    is, and the first [on(el, ...)] throws.  On an element the instance is
    registered and listed; then, with a store that has [get], the stored
    order is fetched and [this.sort(...)] is called on the new instance. *)
Definition Sortable_new (h : Host) (el : JsVal) (o : PartialOptions) (st : State)
    : Outcome unit :=
  match el with
  | JsElement root =>
      let opts := _prepareGroup h root (withDefaults h root o) in
      let this := mkSortable root opts None None
                    (if forceFallback opts then false else supportDraggable h) in
      let st1 := set_sortables (sortables st ++ [root])
                   (set_expando (<[root := this]> (expando st)) st) in
      match store opts with
      | Some sto => if hasGet sto then sort_ h this (storeGet h root) false st1
                    else Returns () st1
      | None => Returns () st1
      end
  | _ => Throws st
  end.

(** [x < y] on rationals, as a boolean. *)
Definition Qltb (x y : Q) : bool := negb (Qle_bool y x).

(** ** The index utility, as the description words it *)

(** The element siblings that come before [n] under its parent. *)
Definition precedingSiblings (d : Dom) (n : Node) : list nat :=
  match parentNode d n with
  | Some p =>
      match indexOf n (children d p) with
      | Some i => take i (children d p)
      | None => []
      end
  | None => []
  end.

(** A preceding sibling is counted when it is not a TEMPLATE node, is not
    the drag clone, and matches the selector if one is given. *)
Definition counted (pg : Page) (clone : option nat) (selector : option string)
    (c : Node) : Prop :=
  toUpperCase (nodeName pg c) ≠ "TEMPLATE"%string
  ∧ Some c ≠ clone
  ∧ match selector with
    | Some sel => sel = ""%string ∨ matches pg c sel = true
    | None => True
    end.

#[global] Instance counted_dec pg clone selector c : Decision (counted pg clone selector c).
Proof. unfold counted. destruct selector; apply _. Defined.

(** [-1] without an element or a parent; otherwise the number of counted
    preceding siblings. *)
Definition indexSpec (pg : Page) (d : Dom) (clone : option nat) (el : option nat)
    (selector : option string) : Z :=
  match el with
  | None => -1
  | Some n =>
      match parentNode d n with
      | None => -1
      | Some _ =>
          Z.of_nat (length (filter (counted pg clone selector) (precedingSiblings d n)))
      end
  end.

(** ** A small page used in the examples

    The root [1] is a list with the items [10], [11] and [12]; the root [2]
    holds the single item [20]; both are children of the document. *)

Definition exDom : Dom :=
  mkDom (<[1%nat := [10; 11; 12]%nat]> (<[2%nat := [20]%nat]> (<[0%nat := [1; 2]%nat]> ∅))) ∅.

Definition exPage : Page :=
  mkPage
    (λ n, if decide (n = 1%nat) then "ul" else if decide (n = 2%nat) then "ul" else "li")%string
    (λ n sel, String.eqb sel "li" && bool_decide (10 ≤ n)%nat)
    (λ _, false)
    (λ _ _, None)
    (λ n, String (ascii_of_nat (87 + n)) EmptyString)
    (λ _, false) (λ _, false) (λ _, false) (λ _, false) (λ _, None).

Definition exGroup (root : nat) : SortableGroup := mkGroup root false.

Definition exOptions (root : nat) : SortableOptions :=
  mkOptions (Some (exGroup root)) true false None None ">li"%string
    1%Q false None true (DirString "vertical") None true false false
    "data-id"%string 0%nat false false true 5%Q.

Definition exSortable (root : nat) : Sortable :=
  mkSortable root (exOptions root) None None true.

(** Every item is 20 pixels high; item [10 + i] starts at [20 * i]. *)
Definition exRect (st : State) (n : nat) : Rect :=
  let i := default 0%nat (indexOf n (default [] (parentNode (dom st) n ≫= (kids (dom st) !!.)))) in
  let top := inject_Z (20 * Z.of_nat i) in
  mkRect top 0 (top + 20) 100 100 20.

Definition exHost (swap : SwapArgs → Z) (hook : MoveArgs → MoveVector) : Host :=
  mkHost exPage false false false true
    (λ _ o, o) (λ _ _, []) (λ _ _ _, false) (λ _ _ _ _, "vertical"%string)
    (λ _ _ _ _ _, PullTrue) (λ _ _ _ _ _, true)
    exRect
    (λ st evt _ s, match lastChild exPage (dom st) (Sortable_ghost st) s ">li" with
                   | Some l => Qltb (rBottom (exRect st l)) (clientY evt)
                   | None => true
                   end)
    (λ st evt _ s, Qltb (clientY evt) 0)
    (λ _ _ _, true) (λ _ _, None)
    swap hook (λ _, []).

(** The pointer is in the lower half of the target: place after it. *)
Definition exSwap (a : SwapArgs) : Z :=
  if Qltb (rTop (saTargetRect a) + rHeight (saTargetRect a) / 2) (clientY (saEvt a))
  then 1 else -1.

Definition exIdle : State :=
  mkState exDom (<[1%nat := exSortable 1]> (<[2%nat := exSortable 2]> ∅)) [1; 2]%nat
    None None None None ElUndefined None None None None None None
    false None false false None None false None None false false None
    false [] None None None None false [] [].

(** Item [10] of root [1] is being dragged; its clone [15] is detached. *)
Definition exDragging : State :=
  mkState exDom (<[1%nat := exSortable 1]> (<[2%nat := exSortable 2]> ∅)) [1; 2]%nat
    (Some 10%nat) (Some 1%nat) (Some 1%nat) (Some 11%nat) (ElNode 10)
    (Some 0) None (Some 0) None
    (Some (exGroup 1)) None
    true (Some (5%Q, 5%Q)) false false
    None (Some 15%nat) true
    None None false false None
    false []
    None (Some 15%nat) (Some 10%nat) (Some 1%nat) false [] [].

Definition exOver (target : nat) (y : Z) : DragEvent :=
  mkDragEvent (Some target) None 50 (inject_Z y).

(** ** Conservation of items: what is preserved *)

(** The attached elements other than the drag clone. *)
Definition itemsBut (clone : option nat) (d : Dom) : list nat :=
  filter (λ x, Some x ≠ clone) (allItems (kids d)).

Definition attached (d : Dom) (n : Node) : Prop := n ∈ allItems (kids d).

(** During a session the document is well formed, the dragged item is
    attached, and the clone is a node of its own. *)
Definition sessionWf (st : State) : Prop :=
  wfDom (dom st)
  ∧ (∀ d, dragEl st = Some d → attached (dom st) d)
  ∧ (∀ d, dragEl st = Some d → cloneEl st ≠ Some d).

(** [lastPutMode] of the instance rooted at [s]. *)
Definition putModeOf (st : State) (s : Node) : option PullMode :=
  Sortable_get st s ≫= lastPutMode.

(** From [st] to [st']: the session stays well formed, the dragged item and
    the clone are the same nodes, and every element other than the clone is
    attached as often as before. *)
Definition conserves (st st' : State) : Prop :=
  sessionWf st'
  ∧ dragEl st' = dragEl st
  ∧ cloneEl st' = cloneEl st
  ∧ itemsBut (cloneEl st) (dom st') ≡ₚ itemsBut (cloneEl st) (dom st).

(** The clone was not attached by the step. *)
Definition cloneNotAdded (st st' : State) : Prop :=
  ∀ c, cloneEl st = Some c → attached (dom st') c → attached (dom st) c.

(** A run of dragover events, each delivered to some instance. *)
Definition dragOverAll (h : Host) (evs : list (nat * DragEvent)) (st : State) : State :=
  foldl (λ st e, stateOf (_onDragOver h e.1 e.2 st)) st evs.

(** A step that conserves the items and does not attach the clone. *)
Definition stepA (st st' : State) : Prop :=
  conserves st st' ∧ cloneNotAdded st st'.

(** A step that conserves the items and attaches the clone, if at all, only
    with clone mode latched on the receiving instance [s]. *)
Definition stepQ (s : Node) (st st' : State) : Prop :=
  conserves st st' ∧ (cloneNotAdded st st' ∨ putModeOf st' s = Some PullClone).

(** ** What a dragover evaluation leaves alone *)

Definition isMove (e : Effect) : bool :=
  match e with EMove _ _ => true | _ => false end.

(** From [st] to [st']: the calls recorded in between do not include the
    move hook, and the session's identity, the guard and its timers are
    untouched. *)
Definition quietStep (st st' : State) : Prop :=
  (∃ new, log st' = new ++ log st ∧ Forall (λ e, isMove e = false) new)
  ∧ dragEl st' = dragEl st
  ∧ rootEl st' = rootEl st
  ∧ Sortable_active st' = Sortable_active st
  ∧ lastDirection st' = lastDirection st
  ∧ _silent st' = _silent st
  ∧ timers st' = timers st.

(** The three ways an evaluation can relate to the move hook: it never asks;
    it asks, is refused, and changes no container; it asks and is allowed. *)
Definition hookOutcome (evt : DragEvent) (st st' : State) : Prop :=
  (∃ new, log st' = new ++ log st ∧ Forall (λ e, isMove e = false) new)
  ∨ (∃ a tail, log st' = tail ++ EMove a MvFalse :: log st
               ∧ (tail = [] ∨ tail = [EDetectEmpty evt])
               ∧ dom st' = dom st
               ∧ dragEl st' = dragEl st
               ∧ Sortable_active st' = Sortable_active st)
  ∨ (∃ a mv new, isVetoed mv = false
                 ∧ log st' = new ++ EMove a mv :: log st
                 ∧ Forall (λ e, isMove e = false) new).

(** The consultation of the move hook when item [10] is dragged over the
    lower half of item [11]. *)
Definition exVetoArgs : MoveArgs :=
  mkMoveArgs (Some 1%nat) 1 (Some 10%nat) (Some (exRect exDragging 10))
    (Some 11%nat) (Some (exRect exDragging 11)) (exOver 11 35) true.

(** A run of pointer-down events, each arriving at some instance. *)
Definition tapAll (h : Host) (taps : list (nat * TapEvent)) (st : State) : State :=
  foldl (λ st e, stateOf (_onTapStart h e.1 e.2 st)) st taps.

(** [st'] differs from [st] at most in the document and the record of
    calls. *)
Definition sameButDom (st st' : State) : Prop :=
  set_log (log st) (set_dom (dom st) st') = st.

(** The dragged item [10] has been detached from the document. *)
Definition exDetached : State :=
  set_dom (mkDom (detach 10 (kids exDom)) ∅) exDragging.

Definition noOptions : PartialOptions :=
  mkPartial None None None None None None None None None None None None None None None
    None None None None None None.

(** The same session on a page where root [2] pulls clones. *)
Definition exCloneHost : Host :=
  mkHost exPage false false false true
    (λ _ o, o) (λ _ _, []) (λ _ _ _, false) (λ _ _ _ _, "vertical"%string)
    (λ _ _ _ _ _, PullClone) (λ _ _ _ _ _, true)
    exRect
    (λ _ _ _ _, false) (λ _ _ _ _, false)
    (λ _ _ _, true) (λ _ _, None)
    exSwap (λ _, MvOther) (λ _, []).

(** The record of calls made from [st] to [st'] holds a consultation of the
    move hook that was not refused. *)
Definition hookAllowed (st st' : State) : Prop :=
  ∃ new a mv, log st' = new ++ log st ∧ EMove a mv ∈ new ∧ isVetoed mv = false.

(** How a mid-list swap leaves the guard: either the move hook was not
    asked, or it refused, and the document, the guard and the timers are as
    they were; or
    the hook was asked and did not refuse, and the guard is set with the
    30 ms timer that clears it queued. *)
Definition guardOutcome (st st' : State) : Prop :=
  (¬ hookAllowed st st' ∧ dom st' = dom st
   ∧ _silent st' = _silent st ∧ timers st' = timers st)
  ∨ (hookAllowed st st' ∧ _silent st' = true
     ∧ timers st' = (30%nat, ClearSilent) :: timers st).

(** A list that keeps the hidden clone in the document
    ([removeCloneOnHide: false]). *)
Definition exKeptOptions (root : nat) : SortableOptions :=
  mkOptions (Some (exGroup root)) true false None None ">li"%string
    1%Q false None false (DirString "vertical") None true false false
    "data-id"%string 0%nat false false true 5%Q.

(** Item [10] of root [1] is being dragged; its clone [15] was put in front
    of it when the drag started and is hidden. *)
Definition exKeptClone : State :=
  set_dom (mkDom (<[1%nat := [15; 10; 11; 12]%nat]> (kids exDom)) {[15%nat]})
    (set_expando (<[1%nat := mkSortable 1 (exKeptOptions 1) None None true]>
                    (expando exDragging)) exDragging).

(** A page whose store hands back the order [c], [a], [b] for every list. *)
Definition exStoreHost : Host :=
  mkHost exPage false false false true
    (λ _ o, o) (λ _ _, []) (λ _ _ _, false) (λ _ _ _ _, "vertical"%string)
    (λ _ _ _ _ _, PullTrue) (λ _ _ _ _ _, true)
    exRect
    (λ _ _ _ _, false) (λ _ _ _ _, false)
    (λ _ _ _, true) (λ _ _, None)
    exSwap (λ _, MvOther) (λ _, ["c"; "a"; "b"]%string).

Definition exStoreOptions : PartialOptions :=
  mkPartial None None None (Some (mkStore true true)) None None None None None None None
    None None None None None None None None None None.

(** The page of the examples before any list was made sortable. *)
Definition exBare : State :=
  set_sortables [] (set_expando ∅ exIdle).

(** ** The child and ancestor helpers, as a reader would word them *)

(** The children [getChild] counts: not hidden by an inline style, not the
    ghost, not the dragged item unless it is asked for, and draggable
    within [el]. *)
Definition countedChild (pg : Page) (d : Dom) (ghost dragged : option nat)
    (el : Node) (draggable : string) (includeDragEl : bool) (c : Node) : Prop :=
  (c ∉ inlineNone d)
  ∧ Some c ≠ ghost
  ∧ (includeDragEl = true ∨ Some c ≠ dragged)
  ∧ is_Some (closest pg d (Some c) (Some draggable) el false).

#[global] Instance countedChild_dec pg d ghost dragged el draggable inc c :
  Decision (countedChild pg d ghost dragged el draggable inc c).
Proof. unfold countedChild. apply _. Defined.

(** The children [lastChild] may answer: not the ghost, not hidden by any
    style, and matching the selector if a non-empty one is given. *)
Definition eligibleLast (pg : Page) (d : Dom) (ghost : option nat)
    (selector : string) (c : Node) : Prop :=
  Some c ≠ ghost
  ∧ (c ∉ inlineNone d)
  ∧ sheetNone pg c = false
  ∧ (selector = ""%string ∨ matches pg c selector = true).

#[global] Instance eligibleLast_dec pg d ghost selector c :
  Decision (eligibleLast pg d ghost selector c).
Proof. unfold eligibleLast. apply _. Defined.

(** The [n]-th ancestor of [el]; the element itself for [n = 0]. *)
Fixpoint ancestorAt (d : Dom) (n : nat) (el : Node) : option nat :=
  match n with
  | O => Some el
  | S m => parentNode d el ≫= ancestorAt d m
  end.

(** What makes [closest] stop at an element [x]: the selector matches it,
    and for a selector that starts with [>] it is a child of the context;
    or it is the context and the context is included. *)
Definition closestAccepts (pg : Page) (d : Dom) (selector : option string)
    (ctx : Node) (includeCTX : bool) (x : Node) : Prop :=
  (∃ sel, selector = Some sel
          ∧ matches pg x sel = true
          ∧ (startsWithGt sel = true → parentNode d x = Some ctx))
  ∨ (includeCTX = true ∧ x = ctx).

(** [Sortable.utils.is(el, selector)]: [!!closest(el, selector, el, false)]. *)
Definition utils_is (pg : Page) (d : Dom) (el : Node) (selector : string) : bool :=
  bool_decide (is_Some (closest pg d (Some el) (Some selector) el false)).

(** ** [indexOfObject] and [extend]

    Values and the strict comparison [===] are left to the caller: the
    value type is a parameter, and so is the way an array element answers
    a property read ([arr[i][key]], which also sees inherited
    properties). *)

Section Objects.
Context {V E : Type} (strictEq : V → V → bool) (get : E → string → V).

(** The inner loop of [indexOfObject] over the own enumerable properties
    of [obj], in enumeration order. *)
Fixpoint sharesPair (obj : list (string * V)) (e : E) : bool :=
  match obj with
  | [] => false
  | (key, v) :: obj' => if strictEq v (get e key) then true else sharesPair obj' e
  end.

(** The outer loop: [for (let i in arr)] visits the indices that are
    present, in ascending order; a hole ([None]) is not visited. *)
Fixpoint indexOfObjectLoop (arr : list (option E)) (i : Z)
    (obj : list (string * V)) : Z :=
  match arr with
  | [] => -1
  | None :: arr' => indexOfObjectLoop arr' (i + 1) obj
  | Some e :: arr' =>
      if sharesPair obj e then i else indexOfObjectLoop arr' (i + 1) obj
  end.

(** An array slot that holds an element sharing a pair with [obj]. *)
Definition holdsMatch (obj : list (string * V)) (oe : option E) : Prop :=
  match oe with
  | Some e => sharesPair obj e = true
  | None => False
  end.

#[global] Instance holdsMatch_dec obj oe : Decision (holdsMatch obj oe).
Proof. destruct oe; simpl; apply _. Defined.

(** [indexOfObject(arr, obj)]. *)
Definition indexOfObject (arr : list (option E)) (obj : list (string * V)) : Z :=
  indexOfObjectLoop arr 0 obj.
End Objects.

(** [extend(dst, src)]: every own enumerable property of [src] is assigned
    to [dst], which is returned; a null [dst] or [src] skips the loop. *)
Definition extend {V : Type} (dst src : option (gmap string V)) : option (gmap string V) :=
  match dst, src with
  | Some d, Some s => Some (map_fold (λ key v acc, <[key := v]> acc) d s)
  | _, _ => dst
  end.

(** ** [isRectEqual] *)

(** A number as the unary [+] yields it: [NaN], an infinity, or a finite
    value. *)
Inductive JsNum := NaN | NegInfinity | PosInfinity | Finite (q : Q).

(** A rectangle whose fields went through the unary [+]: a field that is
    missing or not numeric has become [NaN]. *)
Record PartialRect := mkPartialRect {
  prTop : JsNum;
  prLeft : JsNum;
  prBottom : JsNum;
  prRight : JsNum;
  prWidth : JsNum;
  prHeight : JsNum
}.

(** [Math.round] of a finite number: the nearest integer, halves towards
    +infinity. *)
Definition Math_round (x : Q) : Z := Qfloor (x + (1 # 2)).

(** [Math.round(a) === Math.round(b)].  [Math.round] leaves [NaN] and the
    infinities as they are; [NaN] equals nothing, an infinity equals
    itself. *)
Definition roundedEqual (a b : JsNum) : bool :=
  match a, b with
  | Finite x, Finite y => Math_round x =? Math_round y
  | PosInfinity, PosInfinity => true
  | NegInfinity, NegInfinity => true
  | _, _ => false
  end.

(** [isRectEqual(rect1, rect2)]. *)
Definition isRectEqual (rect1 rect2 : PartialRect) : bool :=
  roundedEqual (prTop rect1) (prTop rect2)
  && roundedEqual (prLeft rect1) (prLeft rect2)
  && roundedEqual (prHeight rect1) (prHeight rect2)
  && roundedEqual (prWidth rect1) (prWidth rect2).

(** None of the four compared fields is [NaN]. *)
Definition numericRect (r : PartialRect) : Prop :=
  prTop r ≠ NaN ∧ prLeft r ≠ NaN ∧ prHeight r ≠ NaN ∧ prWidth r ≠ NaN.

(** Two finite numbers less than one apart, or twice the same infinity. *)
Definition withinOne (a b : JsNum) : Prop :=
  (∃ x y, a = Finite x ∧ b = Finite y ∧ (Qabs (x - y) < 1)%Q)
  ∨ (a = PosInfinity ∧ b = PosInfinity)
  ∨ (a = NegInfinity ∧ b = NegInfinity).

(** ** [throttle] and [cancelThrottle] *)

(** The one module variable [_throttleTimeout], the timeouts that are
    pending (identifier and delay), the next identifier [setTimeout] hands
    out, and the callbacks invoked so far with their argument (most recent
    first).  What [setTimeout] hands out is truthy, so [Some _] is a
    variable that [!_throttleTimeout] finds set.  A callback is recorded,
    not run: one that itself calls a throttled function or
    [cancelThrottle()] is not represented. *)
Record ThrottleState := mkThrottle {
  _throttleTimeout : option nat;
  pendingTimeouts : list (nat * nat);
  nextTimeout : nat;
  invoked : list (nat * nat)
}.

(** The function [throttle(callback, ms)] returns, called with [arg]. *)
Definition throttle (callback ms : nat) (arg : nat) (st : ThrottleState) : ThrottleState :=
  match _throttleTimeout st with
  | Some _ => st
  | None =>
      mkThrottle (Some (nextTimeout st))
        ((nextTimeout st, ms) :: pendingTimeouts st)
        (S (nextTimeout st))
        ((callback, arg) :: invoked st)
  end.

(** [clearTimeout(id)]. *)
Definition clearTimeout (id : option nat) (pending : list (nat * nat)) : list (nat * nat) :=
  match id with
  | Some i => filter (λ t, t.1 ≠ i) pending
  | None => pending
  end.

(** [cancelThrottle()]. *)
Definition cancelThrottle (st : ThrottleState) : ThrottleState :=
  mkThrottle None (clearTimeout (_throttleTimeout st) (pendingTimeouts st))
    (nextTimeout st) (invoked st).

(** The timeout [id] elapses: if it is still pending its function runs,
    which clears [_throttleTimeout]. *)
Definition throttleElapsed (id : nat) (st : ThrottleState) : ThrottleState :=
  if bool_decide (id ∈ (pendingTimeouts st).*1)
  then mkThrottle None (filter (λ t, t.1 ≠ id) (pendingTimeouts st))
         (nextTimeout st) (invoked st)
  else st.

Inductive ThrottleEvent :=
| ThCall (callback ms arg : nat)
| ThElapsed (id : nat)
| ThCancel.

Definition throttleStep (st : ThrottleState) (e : ThrottleEvent) : ThrottleState :=
  match e with
  | ThCall callback ms arg => throttle callback ms arg st
  | ThElapsed id => throttleElapsed id st
  | ThCancel => cancelThrottle st
  end.

Definition throttleRun (es : list ThrottleEvent) (st : ThrottleState) : ThrottleState :=
  foldl throttleStep st es.

(** The module as loaded: no timeout, nothing invoked. *)
Definition throttleInit : ThrottleState := mkThrottle None [] 1%nat [].

Definition isThCall (e : ThrottleEvent) : bool :=
  match e with ThCall _ _ _ => true | _ => false end.

(** The pending timeouts are exactly the one recorded in
    [_throttleTimeout], if any. *)
Definition throttleWf (st : ThrottleState) : Prop :=
  match _throttleTimeout st with
  | Some id => ∃ ms, pendingTimeouts st = [(id, ms)]
  | None => pendingTimeouts st = []
  end.

(** How often the throttle can open over a run: once if it is open at the
    start, and once for every timeout that elapses or is cancelled. *)
Definition throttleOpenings (st : ThrottleState) (es : list ThrottleEvent) : nat :=
  ((match _throttleTimeout st with Some _ => 0 | None => 1 end)
   + length (filter (λ e, isThCall e = false) es))%nat.

(** ** The end of a session *)

(** No session: every variable [_nulling] resets is reset. *)
Definition idle (st : State) : Prop :=
  dragEl st = None ∧ rootEl st = None ∧ parentEl st = None ∧ ghostEl st = None
  ∧ nextEl st = None ∧ cloneEl st = None ∧ refNode (lastDownEl st) = None
  ∧ cloneHidden st = false ∧ tapEvt st = None ∧ moved st = false
  ∧ oldIndex st = None ∧ newIndex st = None
  ∧ oldDraggableIndex st = None ∧ newDraggableIndex st = None
  ∧ lastTarget st = None ∧ lastDirection st = None
  ∧ putSortable st = None ∧ activeGroup st = None
  ∧ Sortable_dragged st = None ∧ Sortable_ghost st = None
  ∧ Sortable_clone st = None ∧ Sortable_active st = None
  ∧ savedInputChecked st = [].

(** The document without the node [n], if there is one. *)
Definition detachNode (n : option nat) (d : Dom) : Dom :=
  match n with
  | Some x => mkDom (detach x (kids d)) (inlineNone d)
  | None => d
  end.

(** Whether a drop takes the clone out of the document: the dragged item
    is still in its original root, or the list it was put into did not pull
    it as a clone. *)
Definition cloneLeaves (st : State) : bool :=
  bool_decide (rootEl st = dragEl st ≫= parentNode (dom st))
  || match putSortable st ≫= Sortable_get st with
     | Some put => negb (bool_decide (lastPutMode put = Some PullClone))
     | None => false
     end.

(** The document a drop leaves behind. *)
Definition dropDom (hasEvt : bool) (st : State) : Dom :=
  if hasEvt && negb (Sortable_eventCanceled st)
  then (if cloneLeaves st then detachNode (cloneEl st) else id)
         (detachNode (ghostEl st) (dom st))
  else dom st.

(** The calls a drop may record: the removal of the ghost or of the
    clone, and, when an item was being dragged, the saving of an order. *)
Definition dropCall (st : State) (e : Effect) : Prop :=
  (∃ p c, e = ERemoveChild p c ∧ (ghostEl st = Some c ∨ cloneEl st = Some c))
  ∨ (∃ a, e = EStoreSet a ∧ is_Some (dragEl st)
          ∧ (is_Some (Sortable_active st) ∨ putSortable st = Some a)).

(** What of the module a drop leaves as it is besides the document: the
    registry of instances, the guard of [_onDragOver] and the flags that
    outlive a session. *)
Definition sameRegistry (st st' : State) : Prop :=
  expando st' = expando st ∧ sortables st' = sortables st
  ∧ _silent st' = _silent st
  ∧ Sortable_eventCanceled st' = Sortable_eventCanceled st
  ∧ ignoreNextClick st' = ignoreNextClick st.

(** ** Events and teardown *)

(** An event as [handleEvent] receives it: its [type], and what a
    dragover reads from it. *)
Record DomEvent := mkDomEvent {
  evType : string;
  evDrag : DragEvent
}.

(** [handleEvent(evt)] on instance [s].  [_globalDragOver(evt)] and the
    [preventDefault] of [selectstart] act on the event alone. *)
Definition handleEvent (h : Host) (s : Node) (evt : DomEvent) (st : State) : Outcome unit :=
  if String.eqb (evType evt) "drop" || String.eqb (evType evt) "dragend"
  then _onDrop h s true st
  else if String.eqb (evType evt) "dragenter" || String.eqb (evType evt) "dragover"
  then
    if bool_decide (is_Some (dragEl st))
    then andThen (_onDragOver h s (evDrag evt) st) (λ _ st1, Returns () st1)
    else Returns () st
  else Returns () st.

(** [_onDrop()] called without an event on the instance object [this]
    itself, as [destroy] does once the expando of the root is cleared: the
    indices and [parentEl] are refreshed, the session flags and the pending
    drag start are cleared unless the event was cancelled, the block
    guarded by [if (evt)] is skipped, and [_nulling()] closes. *)
Definition dropWithoutEvent (h : Host) (this : Sortable) (st : State) : State :=
  let opts := options this in
  let reindex (st : State) : State :=
    let st1 := set_newIndex
                 (Some (index (page h) (dom st) (Sortable_clone st) (dragEl st) None)) st in
    set_newDraggableIndex
      (Some (index (page h) (dom st1) (Sortable_clone st1) (dragEl st1)
               (Some (draggable opts)))) st1 in
  let st1 := reindex st in
  let st2 := set_parentEl (dragEl st1 ≫= parentNode (dom st1)) st1 in
  let st3 := reindex st2 in
  if Sortable_eventCanceled st3 then _nulling st3
  else
    let st4 := set_pastFirstInvertThresh false
                 (set_isCircumstantialInvert false
                    (set_awaitingDragStarted false st3)) in
    _nulling
      (set_timers (filter (λ t, negb (isDragStartOf (el this) t) = true) (timers st4)) st4).

(** [arr.indexOf(n)]. *)
Definition Array_indexOf (n : Node) (arr : list nat) : Z :=
  match indexOf n arr with
  | Some i => Z.of_nat i
  | None => -1
  end.

(** [arr.splice(start, 1)], for what it leaves in [arr]: a negative
    [start] counts from the end. *)
Definition splice1 (start : Z) (arr : list nat) : list nat :=
  let len := Z.of_nat (length arr) in
  let from := if start <? 0 then Z.max (len + start) 0 else Z.min start len in
  delete (Z.to_nat from) arr.

(** [destroy()] called on the instance [this].  [_this] is
    [Sortable.get(this)], read off the instance; the expando of the root is
    cleared; then [off(el, 'mousedown', _this._onTapStart)] throws without
    an instance.  With one, the drop without event and the splice of
    [sortables] would follow.  Listeners and [draggable] attributes are
    not represented. *)
Definition destroy (h : Host) (this : Sortable) (st : State) : Outcome unit :=
  let st1 := set_expando (delete (el this) (expando st)) st in
  match Sortable_getOf st (OfInstance this) with
  | None => Throws st1
  | Some _this =>
      let st2 := dropWithoutEvent h _this st1 in
      Returns () (set_sortables (splice1 (Array_indexOf (el this) (sortables st2))
                                   (sortables st2)) st2)
  end.

(** A life of the registry: instances are constructed, and [destroy] is
    called on instances. *)
Inductive RegistryOp :=
| RegNew (el : JsVal) (o : PartialOptions)
| RegDestroy (this : Sortable).

Definition registryStep (h : Host) (st : State) (op : RegistryOp) : State :=
  match op with
  | RegNew el o => stateOf (Sortable_new h el o st)
  | RegDestroy this => stateOf (destroy h this st)
  end.

Definition registryRun (h : Host) (ops : list RegistryOp) (st : State) : State :=
  foldl (registryStep h) st ops.

(** Every root that has an instance is listed in [sortables], and the
    instance knows its root. *)
Definition registered (st : State) : Prop :=
  ∀ s this, Sortable_get st s = Some this → el this = s ∧ s ∈ sortables st.

(** The roots a run of the registry constructs an instance on. *)
Definition constructedRoots (ops : list RegistryOp) : list nat :=
  omap (λ op, match op with
              | RegNew (JsElement root) _ => Some root
              | _ => None
              end) ops.

(** ** Dragovers that are turned away *)

(** The conditions under which [_onDragOver] on the instance [this] at
    root [s] gives up before it looks for a place: the guard is set; the
    event was cancelled; no instance is active; the instance is disabled;
    the item is in its own list, which does not sort, and has not left it;
    the list belongs to another group and is not the one the item was last
    put into, and [checkPull] or [checkPut] says no; the pointer is over
    the dragged item itself or inside it. *)
Definition turnedAway (h : Host) (s : Node) (this : Sortable) (evt : DragEvent)
    (st : State) : Prop :=
  _silent st = true
  ∨ Sortable_eventCanceled st = true
  ∨ Sortable_active st = None
  ∨ disabled (options this) = true
  ∨ (activeGroup st = group (options this) ∧ sort (options this) = false
     ∧ parentEl st = rootEl st)
  ∨ (activeGroup st ≠ group (options this) ∧ putSortable st ≠ Some s
     ∧ ∀ a, Sortable_active st = Some a →
         match activeGroup st with
         | None => True
         | Some g =>
             checkPull h g s a (dragEl st) evt = PullFalse
             ∨ match group (options this) with
               | None => True
               | Some g' => checkPut h g' s a (dragEl st) evt = false
               end
         end)
  ∨ (∃ d, dragEl st = Some d ∧ contains (dom st) d (evTarget evt) = true).

(** ** What a dragover answers *)

(** The call answered [true] if it returned at all. *)
Definition onlyTrue (o : Outcome Ret) : Prop :=
  match o with
  | Returns r _ => r = RTrue
  | Throws _ => True
  end.

(** The call answered [true], or answered [false] with the document as it
    was in [st]. *)
Definition trueOrUnmoved (st : State) (o : Outcome Ret) : Prop :=
  match o with
  | Returns RTrue _ => True
  | Returns RFalse st' => dom st' = dom st
  | Returns RUndefined _ => False
  | Throws _ => True
  end.

(** ** Who moves during a drag *)

(** From [st] to [st']: the dragged item and the clone are the same nodes,
    and under every parent the other children are the same, in the same
    order. *)
Definition othersStay (st st' : State) : Prop :=
  dragEl st' = dragEl st
  ∧ cloneEl st' = cloneEl st
  ∧ ∀ p, filter (λ x, Some x ≠ dragEl st ∧ Some x ≠ cloneEl st) (children (dom st') p)
         = filter (λ x, Some x ≠ dragEl st ∧ Some x ≠ cloneEl st) (children (dom st) p).

(** The options of the instance registered at [s], if any. *)
Definition optionsOf (st : State) (s : Node) : option SortableOptions :=
  options <$> Sortable_get st s.

(** From [st] to [st']: what was recorded when the drag began is as it was
    (the root, the next sibling, both origin indices, the group, the item,
    the pointer-down), the helpers of the session are the same nodes, and
    no instance has come, gone or changed its options. *)
Definition originKept (st st' : State) : Prop :=
  dragEl st' = dragEl st
  ∧ rootEl st' = rootEl st
  ∧ nextEl st' = nextEl st
  ∧ oldIndex st' = oldIndex st
  ∧ oldDraggableIndex st' = oldDraggableIndex st
  ∧ activeGroup st' = activeGroup st
  ∧ lastDownEl st' = lastDownEl st
  ∧ tapEvt st' = tapEvt st
  ∧ moved st' = moved st
  ∧ awaitingDragStarted st' = awaitingDragStarted st
  ∧ ghostEl st' = ghostEl st
  ∧ cloneEl st' = cloneEl st
  ∧ savedInputChecked st' = savedInputChecked st
  ∧ Sortable_dragged st' = Sortable_dragged st
  ∧ Sortable_ghost st' = Sortable_ghost st
  ∧ Sortable_clone st' = Sortable_clone st
  ∧ Sortable_active st' = Sortable_active st
  ∧ Sortable_eventCanceled st' = Sortable_eventCanceled st
  ∧ sortables st' = sortables st
  ∧ ∀ s, optionsOf st' s = optionsOf st s.

(** The flag [cloneHidden] tells the truth: while there is a clone, the flag
    is set exactly when the clone carries the inline style [display: none]. *)
Definition cloneFlagSound (st : State) : Prop :=
  ∀ c, cloneEl st = Some c → (cloneHidden st = true ↔ c ∈ inlineNone (dom st)).

(** From [st] to [st']: the clone is the same node, and a flag that told the
    truth still does. *)
Definition keepsCloneFlag (st st' : State) : Prop :=
  cloneEl st' = cloneEl st ∧ (cloneFlagSound st → cloneFlagSound st').

(** The session of [exDragging] with the hidden clone styled as hidden. *)
Definition exHiddenClone : State :=
  set_dom (setInlineNone 15 true exDom) exDragging.

(** ** The item beside its target *)

(** What the walk of a mid-list swap passes over: an element that is not
    displayed, and the ghost. *)
Definition passedOver (pg : Page) (d : Dom) (ghost : option nat) (x : Node) : Prop :=
  cssDisplayNone pg d x = true ∨ Some x = ghost.

#[global] Instance passedOver_dec pg d ghost x : Decision (passedOver pg d ghost x).
Proof. unfold passedOver. apply _. Defined.

(** Among the children [cs], the item [d] already stands where a swap in
    [direction] would put it: before the target [t] for [-1], after it for
    [1], with nothing in between but elements that are passed over. *)
Definition standsBeside (pg : Page) (dm : Dom) (ghost : option nat) (cs : list nat)
    (d t : Node) (direction : Z) : Prop :=
  ∃ l1 mid l2,
    Forall (passedOver pg dm ghost) mid
    ∧ ((direction = -1 ∧ cs = l1 ++ d :: mid ++ t :: l2)
       ∨ (direction = 1 ∧ cs = l1 ++ t :: mid ++ d :: l2)).

(** None of the elements is a TEMPLATE or the clone: [index] counts every
    one of them. *)
Definition allCounted (pg : Page) (clone : option nat) (l : list nat) : Prop :=
  Forall (λ c, toUpperCase (nodeName pg c) ≠ "TEMPLATE"%string ∧ Some c ≠ clone) l.

(** * Properties *)

#[local] Set Warnings "-clear-no-such-hyp".

(** ** Facts about the document tree *)

Lemma join_unique_segment (ls : list (list nat)) i j l1 l2 x :
  NoDup (mjoin ls) → ls !! i = Some l1 → ls !! j = Some l2 →
  x ∈ l1 → x ∈ l2 → i = j.
Proof.
  revert i j. induction ls as [|l ls IH]; intros i j Hnd Hi Hj H1 H2; [done|].
  simpl in Hnd. apply NoDup_app in Hnd as (Hl & Hdisj & Hrest).
  destruct i as [|i], j as [|j]; simplify_eq/=; try done.
  - exfalso. apply (Hdisj x H1). apply list_elem_of_join.
    exists l2. split; [done|]. by eapply list_elem_of_lookup_2.
  - exfalso. apply (Hdisj x H2). apply list_elem_of_join.
    exists l1. split; [done|]. by eapply list_elem_of_lookup_2.
  - f_equal. eauto.
Qed.

Lemma join_segment_NoDup (ls : list (list nat)) l :
  NoDup (mjoin ls) → l ∈ ls → NoDup l.
Proof.
  induction ls as [|l' ls IH]; intros Hnd Hin; [by apply elem_of_nil in Hin|].
  simpl in Hnd. apply NoDup_app in Hnd as (Hl & _ & Hrest).
  apply elem_of_cons in Hin as [->|Hin]; eauto.
Qed.

Lemma parentNode_Some d n p :
  parentNode d n = Some p → ∃ cs, kids d !! p = Some cs ∧ n ∈ cs.
Proof.
  unfold parentNode. intros ([i [p' cs]] & Hf & ->)%fmap_Some.
  apply list_find_Some in Hf as (Hl & Hin & _). simpl in *.
  exists cs. split; [|done].
  apply elem_of_map_to_list. by eapply list_elem_of_lookup_2.
Qed.

Lemma parentNode_None d n p cs :
  parentNode d n = None → kids d !! p = Some cs → n ∉ cs.
Proof.
  unfold parentNode. intros Hf%fmap_None Hp Hin.
  apply list_find_None in Hf. rewrite Forall_forall in Hf.
  apply (Hf (p, cs)); [by apply elem_of_map_to_list | done].
Qed.

Lemma wfDom_parentNode d n p cs :
  wfDom d → kids d !! p = Some cs → n ∈ cs → parentNode d n = Some p.
Proof.
  intros Hwf Hp Hin. unfold parentNode.
  destruct (list_find _ _) as [[i [p' cs']]|] eqn:Hf; simpl.
  - apply list_find_Some in Hf as (Hl & Hin' & _). simpl in *.
    apply elem_of_map_to_list in Hp.
    apply list_elem_of_lookup in Hp as [j Hj].
    assert (i = j) as ->.
    { eapply (join_unique_segment ((map_to_list (kids d)).*2) i j cs' cs n); eauto.
      - by rewrite list_lookup_fmap, Hl.
      - by rewrite list_lookup_fmap, Hj. }
    by simplify_eq.
  - apply list_find_None in Hf. rewrite Forall_forall in Hf.
    exfalso. apply (Hf (p, cs)); [by apply elem_of_map_to_list | done].
Qed.

Lemma wfDom_children_NoDup d p : wfDom d → NoDup (children d p).
Proof.
  intros Hwf. unfold children. destruct (kids d !! p) as [cs|] eqn:Hp; simpl.
  - eapply join_segment_NoDup; [exact Hwf|].
    apply list_elem_of_fmap. exists (p, cs). split; [done|].
    by apply elem_of_map_to_list.
  - constructor.
Qed.

Lemma parentNode_children d n p : parentNode d n = Some p → n ∈ children d p.
Proof.
  intros (cs & Hp & Hin)%parentNode_Some. unfold children. by rewrite Hp.
Qed.

Lemma indexOf_app_fresh n l1 l2 :
  n ∉ l1 → indexOf n (l1 ++ n :: l2) = Some (length l1).
Proof.
  induction l1 as [|c l1 IH]; intros Hn; simpl.
  - by rewrite decide_True.
  - apply not_elem_of_cons in Hn as [Hne Hn].
    rewrite decide_False by done. by rewrite IH.
Qed.

Lemma indexOf_Some n cs i : indexOf n cs = Some i → cs !! i = Some n.
Proof.
  revert i. induction cs as [|c cs IH]; intros i; simpl; [done|].
  case_decide; [naive_solver|].
  intros (j & Hj & ->)%fmap_Some. simpl. eauto.
Qed.

Lemma indexOf_None n cs : indexOf n cs = None → n ∉ cs.
Proof.
  induction cs as [|c cs IH]; simpl; [intros _; apply not_elem_of_nil|].
  case_decide; [done|]. intros Hn%fmap_None.
  apply not_elem_of_cons. split; [congruence | auto].
Qed.

(** ** The index utility *)

Lemma indexCounts_counted pg clone selector c :
  indexCounts pg clone selector c = true ↔ counted pg clone selector c.
Proof.
  unfold indexCounts, counted.
  rewrite !andb_true_iff, !negb_true_iff, bool_decide_eq_false.
  rewrite String.eqb_neq.
  destruct selector as [sel|]; [|tauto].
  rewrite orb_true_iff, String.eqb_eq. tauto.
Qed.

Lemma previousElementSibling_first d p n l2 :
  wfDom d → kids d !! p = Some (n :: l2) → previousElementSibling d n = None.
Proof.
  intros Hwf Hp. unfold previousElementSibling.
  rewrite (wfDom_parentNode d n p (n :: l2)) by (done || left). simpl.
  unfold children. rewrite Hp. simpl. by rewrite decide_True.
Qed.

Lemma previousElementSibling_middle d p l1 a n l2 :
  wfDom d → kids d !! p = Some (l1 ++ a :: n :: l2) →
  previousElementSibling d n = Some a.
Proof.
  intros Hwf Hp. unfold previousElementSibling.
  pose proof (wfDom_children_NoDup d p Hwf) as Hnd.
  unfold children in *. rewrite Hp in Hnd. simpl in Hnd.
  erewrite wfDom_parentNode; [|done|exact Hp|]; last first.
  { apply elem_of_app. right. right. left. }
  simpl. rewrite Hp. simpl.
  replace (l1 ++ a :: n :: l2) with ((l1 ++ [a]) ++ n :: l2) in *
    by (by rewrite <- app_assoc).
  rewrite indexOf_app_fresh.
  - simpl. rewrite length_app. simpl.
    replace (length l1 + 1)%nat with (S (length l1)) by lia.
    rewrite <- app_assoc. simpl.
    by rewrite list_lookup_middle.
  - apply NoDup_app in Hnd as (_ & Hdisj & _).
    intros Hin. apply (Hdisj n Hin). left.
Qed.

Lemma indexLoop_prefix pg d clone selector p l1 :
  wfDom d → ∀ n l2 fuel acc,
  kids d !! p = Some (l1 ++ n :: l2) → (length l1 ≤ fuel)%nat →
  indexLoop fuel pg d clone selector n acc
  = acc + Z.of_nat (length (filter (counted pg clone selector) l1)).
Proof.
  intros Hwf. induction l1 as [|a l1 IH] using rev_ind; intros n l2 fuel acc Hp Hfuel.
  - simpl in *. rewrite Z.add_0_r.
    destruct fuel; simpl; [done|].
    by erewrite previousElementSibling_first.
  - rewrite length_app in Hfuel. simpl in Hfuel.
    destruct fuel as [|fuel]; [lia|]. simpl.
    rewrite <- app_assoc in Hp. simpl in Hp.
    erewrite previousElementSibling_middle by eauto.
    erewrite IH; [|exact Hp|lia].
    rewrite filter_app, length_app, filter_cons, filter_nil.
    destruct (indexCounts pg clone selector a) eqn:Hc.
    + apply indexCounts_counted in Hc. rewrite decide_True by done. simpl. lia.
    + rewrite decide_False; [simpl; lia|].
      intros Hc'%indexCounts_counted. congruence.
Qed.

(** C10.  The index utility answers [-1] for a missing element and for an
    element without a parent; otherwise it answers the number of the
    element's preceding element siblings that are not TEMPLATE nodes, are
    not the active drag clone and, when a selector is given, match it. *)
Theorem index_counts_preceding_siblings pg d clone el selector :
  wfDom d → index pg d clone el selector = indexSpec pg d clone el selector.
Proof.
  intros Hwf. unfold index, indexSpec.
  destruct el as [n|]; [|done].
  destruct (parentNode d n) as [p|] eqn:Hpar; [|done].
  destruct (parentNode_Some d n p Hpar) as (cs & Hp & Hin).
  apply list_elem_of_split_l in Hin as (l1 & l2 & -> & Hfresh).
  unfold precedingSiblings. rewrite Hpar.
  unfold children. rewrite Hp. simpl.
  rewrite indexOf_app_fresh by done.
  rewrite take_app_length.
  rewrite (indexLoop_prefix pg d clone selector p l1 Hwf n l2 _ 0 Hp).
  - lia.
  - rewrite length_app. lia.
Qed.

Lemma wfDom_exDom : wfDom exDom.
Proof. unfold wfDom. apply (bool_decide_unpack _). vm_compute. exact I. Qed.

Lemma index_counts_preceding_siblings_witness :
  wfDom exDom ∧
  index exPage exDom (Some 11%nat) (Some 12%nat) (Some ">li"%string)
  = indexSpec exPage exDom (Some 11%nat) (Some 12%nat) (Some ">li"%string).
Proof.
  split; [exact wfDom_exDom|].
  apply index_counts_preceding_siblings. exact wfDom_exDom.
Defined.

Example index_example :
  index exPage exDom (Some 11%nat) (Some 12%nat) (Some ">li"%string) = 1
  ∧ index exPage exDom None (Some 12%nat) None = 2
  ∧ index exPage exDom None (Some 99%nat) None = -1
  ∧ index exPage exDom None None None = -1.
Proof. vm_compute. done. Qed.

(** ** Moving nodes and the multiset of attached elements *)

Lemma filter_join (P : nat → Prop) `{!∀ x, Decision (P x)} (ls : list (list nat)) :
  filter P (mjoin ls) = mjoin (filter P <$> ls).
Proof.
  induction ls as [|l ls IH]; [done|]. simpl. by rewrite filter_app, IH.
Qed.

Lemma allItems_detach n k : allItems (detach n k) = filter (λ c, c ≠ n) (allItems k).
Proof.
  unfold allItems, detach. rewrite map_to_list_fmap, filter_join.
  f_equal. rewrite <- !list_fmap_compose. by apply list_fmap_ext.
Qed.

Lemma allItems_insert p cs (k : gmap nat (list nat)) :
  allItems (<[p := cs]> k) ≡ₚ cs ++ allItems (delete p k).
Proof.
  unfold allItems. rewrite <- insert_delete_eq.
  rewrite map_to_list_insert by apply lookup_delete_eq. done.
Qed.

Lemma allItems_lookup p (k : gmap nat (list nat)) :
  allItems k ≡ₚ default [] (k !! p) ++ allItems (delete p k).
Proof.
  unfold allItems. destruct (k !! p) as [cs|] eqn:Hp; simpl.
  - by rewrite <- (map_to_list_delete k p cs Hp).
  - by rewrite delete_id.
Qed.

Lemma allItems_place n p cs' (k : gmap nat (list nat)) :
  cs' ≡ₚ n :: default [] (detach n k !! p) →
  allItems (<[p := cs']> (detach n k)) ≡ₚ n :: filter (λ c, c ≠ n) (allItems k).
Proof.
  intros Hcs. rewrite allItems_insert, Hcs. simpl. f_equiv.
  rewrite <- allItems_detach. symmetry. apply allItems_lookup.
Qed.

Lemma insertAt_perm n r cs : insertAt n r cs ≡ₚ n :: cs.
Proof.
  induction cs as [|c cs IH]; simpl; [done|].
  case_decide; [done|]. rewrite IH. apply Permutation_swap.
Qed.

Lemma filter_ne_fresh n (l : list nat) : n ∉ l → filter (λ c, c ≠ n) l = l.
Proof.
  induction l as [|c l IH]; intros Hn; [done|].
  apply not_elem_of_cons in Hn as [Hne Hn].
  rewrite filter_cons_True by congruence. by rewrite IH.
Qed.

Lemma filter_ne_attached n (l : list nat) :
  NoDup l → n ∈ l → n :: filter (λ c, c ≠ n) l ≡ₚ l.
Proof.
  induction l as [|c l IH]; intros Hnd Hin; [by apply elem_of_nil in Hin|].
  apply NoDup_cons in Hnd as [Hc Hnd].
  destruct (decide (c = n)) as [->|Hne].
  - rewrite filter_cons_False by naive_solver.
    by rewrite filter_ne_fresh.
  - rewrite filter_cons_True by done.
    apply elem_of_cons in Hin as [->|Hin]; [done|].
    rewrite Permutation_swap. f_equiv. by apply IH.
Qed.

Lemma NoDup_cons_filter_ne n (l : list nat) :
  NoDup l → NoDup (n :: filter (λ c, c ≠ n) l).
Proof.
  intros Hnd. apply NoDup_cons. split.
  - rewrite list_elem_of_filter. naive_solver.
  - by apply NoDup_filter.
Qed.

(** What [appendChild] and [insertBefore] do to the attached elements. *)
Lemma appendChild_items d p n d' :
  appendChild d p n = Some d' →
  allItems (kids d') ≡ₚ n :: filter (λ c, c ≠ n) (allItems (kids d))
  ∧ inlineNone d' = inlineNone d.
Proof.
  unfold appendChild. case_match; [done|]. intros [= <-]. simpl. split; [|done].
  apply allItems_place. by rewrite <- Permutation_cons_append.
Qed.

Lemma insertBefore_items d p n ref d' :
  insertBefore d p n ref = Some d' →
  allItems (kids d') ≡ₚ n :: filter (λ c, c ≠ n) (allItems (kids d))
  ∧ inlineNone d' = inlineNone d.
Proof.
  unfold insertBefore. destruct ref as [r|]; [|apply appendChild_items].
  repeat case_match; try done; intros [= <-]; simpl; (split; [|done]);
    apply allItems_place; try apply insertAt_perm;
    by rewrite <- Permutation_cons_append.
Qed.

Lemma removeChild_items d p n d' :
  removeChild d p n = Some d' →
  allItems (kids d') = filter (λ c, c ≠ n) (allItems (kids d))
  ∧ inlineNone d' = inlineNone d.
Proof.
  unfold removeChild. case_decide; [|done]. intros [= <-]. simpl.
  by rewrite allItems_detach.
Qed.

(** ** Conservation, step by step *)

Lemma conserves_intro st st' :
  sessionWf st → dragEl st' = dragEl st → cloneEl st' = cloneEl st →
  NoDup (allItems (kids (dom st'))) →
  (∀ x, Some x ≠ cloneEl st →
        x ∈ allItems (kids (dom st')) ↔ x ∈ allItems (kids (dom st))) →
  conserves st st'.
Proof.
  intros (Hwf & Hatt & Hne) Hd Hc Hnd Hmem.
  unfold conserves, sessionWf, attached, wfDom, itemsBut. rewrite Hd, Hc.
  split_and!; try done.
  - intros d Hdr. apply Hmem; [|by apply Hatt].
    intros Heq. by apply (Hne d).
  - apply NoDup_Permutation; [by apply NoDup_filter..|].
    intros x. rewrite !list_elem_of_filter. naive_solver.
Qed.

Lemma stepA_refl st : sessionWf st → stepA st st.
Proof.
  intros Hwf. split; [|by intros ?].
  apply conserves_intro; try done. apply Hwf.
Qed.

Lemma conserves_trans st1 st2 st3 :
  conserves st1 st2 → conserves st2 st3 → conserves st1 st3.
Proof.
  intros (_ & Hd1 & Hc1 & Hp1) (Hwf & Hd2 & Hc2 & Hp2).
  unfold conserves. rewrite Hd2, Hc2, Hd1, Hc1. split_and!; try done.
  rewrite Hc1 in Hp2. by rewrite Hp2.
Qed.

Lemma stepA_trans st1 st2 st3 : stepA st1 st2 → stepA st2 st3 → stepA st1 st3.
Proof.
  intros [H1 A1] [H2 A2]. split; [by eapply conserves_trans|].
  intros c Hc Hin. apply A1; [done|]. apply A2; [|done].
  destruct H1 as (_ & _ & -> & _). done.
Qed.

Lemma stepA_stepQ s st st' : stepA st st' → stepQ s st st'.
Proof. intros [H A]. split; [done|by left]. Qed.

Lemma stepA_stepQ_trans s st1 st2 st3 :
  stepA st1 st2 → stepQ s st2 st3 → stepQ s st1 st3.
Proof.
  intros [H1 A1] [H2 Q2]. split; [by eapply conserves_trans|].
  destruct Q2 as [A2|Q2]; [left|by right].
  intros c Hc Hin. apply A1; [done|]. apply A2; [|done].
  destruct H1 as (_ & _ & -> & _). done.
Qed.

(** Steps that leave the document, the dragged item and the clone alone. *)
Lemma stepA_same st st' :
  sessionWf st → dom st' = dom st → dragEl st' = dragEl st →
  cloneEl st' = cloneEl st → stepA st st'.
Proof.
  intros Hwf Hdom Hd Hc. split.
  - apply conserves_intro; try done; rewrite Hdom; [apply Hwf|done].
  - intros c _. unfold attached. by rewrite Hdom.
Qed.

Lemma andThen_stepA {A B} st (o : Outcome A) (k : A → State → Outcome B) :
  stepA st (stateOf o) →
  (∀ a st1, o = Returns a st1 → sessionWf st1 → stepA st1 (stateOf (k a st1))) →
  stepA st (stateOf (andThen o k)).
Proof.
  intros Ho Hk. destruct o as [a st1|st1]; simpl in *; [|done].
  eapply stepA_trans; [done|]. apply Hk; [done|]. apply Ho.
Qed.

Lemma andThen_stepQ {A B} s st (o : Outcome A) (k : A → State → Outcome B) :
  stepA st (stateOf o) →
  (∀ a st1, o = Returns a st1 → sessionWf st1 → stepQ s st1 (stateOf (k a st1))) →
  stepQ s st (stateOf (andThen o k)).
Proof.
  intros Ho Hk. destruct o as [a st1|st1]; simpl in *; [|by apply stepA_stepQ].
  eapply stepA_stepQ_trans; [done|]. apply Hk; [done|]. apply Ho.
Qed.

(** The DOM calls. *)
Lemma moved_items_NoDup n (old new : list nat) :
  NoDup old → new ≡ₚ n :: filter (λ c, c ≠ n) old → NoDup new.
Proof. intros Hnd ->. by apply NoDup_cons_filter_ne. Qed.

Lemma moved_items_elem n x (old new : list nat) :
  new ≡ₚ n :: filter (λ c, c ≠ n) old → x ∈ new ↔ x = n ∨ (x ≠ n ∧ x ∈ old).
Proof. intros ->. rewrite elem_of_cons, list_elem_of_filter. done. Qed.

Lemma placed_drag_stepA st st' d :
  sessionWf st → dragEl st = Some d →
  dragEl st' = dragEl st → cloneEl st' = cloneEl st →
  allItems (kids (dom st')) ≡ₚ d :: filter (λ c, c ≠ d) (allItems (kids (dom st))) →
  stepA st st'.
Proof.
  intros Hwf Hd Hd' Hc' Hperm.
  pose proof Hwf as (Hnd & Hatt & Hne).
  assert (∀ x, x ∈ allItems (kids (dom st')) ↔ x ∈ allItems (kids (dom st))) as Hmem.
  { intros x. rewrite (moved_items_elem d x _ _ Hperm).
    specialize (Hatt d Hd). unfold attached in Hatt.
    destruct (decide (x = d)); naive_solver. }
  split.
  - apply conserves_intro; try done. eapply moved_items_NoDup; [exact Hnd|done].
  - intros c _. unfold attached. by rewrite Hmem.
Qed.

Lemma placed_clone_conserves st st' c :
  sessionWf st → cloneEl st = Some c →
  dragEl st' = dragEl st → cloneEl st' = cloneEl st →
  allItems (kids (dom st')) ≡ₚ c :: filter (λ x, x ≠ c) (allItems (kids (dom st))) →
  conserves st st'.
Proof.
  intros Hwf Hc Hd' Hc' Hperm.
  pose proof Hwf as (Hnd & Hatt & Hne).
  apply conserves_intro; try done.
  - eapply moved_items_NoDup; [exact Hnd|done].
  - intros x Hx. rewrite (moved_items_elem c x _ _ Hperm).
    rewrite Hc in Hx. naive_solver.
Qed.

Lemma removed_clone_stepA st st' c :
  sessionWf st → cloneEl st = Some c →
  dragEl st' = dragEl st → cloneEl st' = cloneEl st →
  allItems (kids (dom st')) = filter (λ x, x ≠ c) (allItems (kids (dom st))) →
  stepA st st'.
Proof.
  intros Hwf Hc Hd' Hc' Heq.
  pose proof Hwf as (Hnd & Hatt & Hne).
  split.
  - apply conserves_intro; try done.
    + rewrite Heq. by apply NoDup_filter.
    + intros x Hx. rewrite Heq, list_elem_of_filter. rewrite Hc in Hx. naive_solver.
  - intros c' _. unfold attached. rewrite Heq, list_elem_of_filter. naive_solver.
Qed.

Lemma domInsertBefore_drag p d ref st :
  sessionWf st → dragEl st = Some d →
  stepA st (stateOf (domInsertBefore p d ref st)).
Proof.
  intros Hwf Hd. unfold domInsertBefore.
  destruct (insertBefore _ _ _ _) as [d'|] eqn:E; simpl; [|by apply stepA_refl].
  apply insertBefore_items in E as [E _].
  by eapply placed_drag_stepA.
Qed.

Lemma domAppendChild_drag p d st :
  sessionWf st → dragEl st = Some d →
  stepA st (stateOf (domAppendChild p d st)).
Proof.
  intros Hwf Hd. unfold domAppendChild.
  destruct (appendChild _ _ _) as [d'|] eqn:E; simpl; [|by apply stepA_refl].
  apply appendChild_items in E as [E _].
  by eapply placed_drag_stepA.
Qed.

Lemma domInsertBefore_clone p c ref st :
  sessionWf st → cloneEl st = Some c →
  conserves st (stateOf (domInsertBefore p c ref st)).
Proof.
  intros Hwf Hc. unfold domInsertBefore.
  destruct (insertBefore _ _ _ _) as [d'|] eqn:E; simpl; [|by apply stepA_refl].
  apply insertBefore_items in E as [E _].
  by eapply placed_clone_conserves.
Qed.

Lemma domAppendChild_clone p c st :
  sessionWf st → cloneEl st = Some c →
  conserves st (stateOf (domAppendChild p c st)).
Proof.
  intros Hwf Hc. unfold domAppendChild.
  destruct (appendChild _ _ _) as [d'|] eqn:E; simpl; [|by apply stepA_refl].
  apply appendChild_items in E as [E _].
  by eapply placed_clone_conserves.
Qed.

Lemma domRemoveChild_clone p c st :
  sessionWf st → cloneEl st = Some c →
  stepA st (stateOf (domRemoveChild p c st)).
Proof.
  intros Hwf Hc. unfold domRemoveChild.
  destruct (removeChild _ _ _) as [d'|] eqn:E; simpl; [|by apply stepA_refl].
  apply removeChild_items in E as [E _].
  by eapply removed_clone_stepA.
Qed.

Lemma stepA_kids st st' :
  sessionWf st → kids (dom st') = kids (dom st) → dragEl st' = dragEl st →
  cloneEl st' = cloneEl st → stepA st st'.
Proof.
  intros Hwf Hdom Hd Hc. split.
  - apply conserves_intro; try done; rewrite Hdom; [apply Hwf|done].
  - intros c _. unfold attached. by rewrite Hdom.
Qed.

Lemma stepA_via st0 st st' :
  sessionWf st0 → kids (dom st) = kids (dom st0) → dragEl st = dragEl st0 →
  cloneEl st = cloneEl st0 → (sessionWf st → stepA st st') → stepA st0 st'.
Proof.
  intros Hwf Hk Hd Hc Hstep.
  pose proof (stepA_kids st0 st Hwf Hk Hd Hc) as H0.
  eapply stepA_trans; [exact H0|]. apply Hstep, H0.
Qed.

Lemma stepQ_via s st0 st st' :
  sessionWf st0 → kids (dom st) = kids (dom st0) → dragEl st = dragEl st0 →
  cloneEl st = cloneEl st0 → (sessionWf st → stepQ s st st') → stepQ s st0 st'.
Proof.
  intros Hwf Hk Hd Hc Hstep.
  pose proof (stepA_kids st0 st Hwf Hk Hd Hc) as H0.
  eapply stepA_stepQ_trans; [exact H0|]. apply Hstep, H0.
Qed.

Ltac goal_match :=
  match goal with
  | |- context [match ?x with _ => _ end] => destruct x eqn:?
  end.

(** Case analysis on the test that decides how a call continues. *)
Ltac top_case :=
  match goal with
  | |- context [stateOf (if ?c then _ else _)] => destruct c eqn:?
  | |- context [stateOf (match ?x with _ => _ end)] => destruct x eqn:?
  end.

(** Projections of a state that went through setters and the pure helpers. *)
Ltac frame_solve :=
  unfold capture, changed, emit, updSortable, _isOutsideThisEl, swapDecisionState,
    latchSwapState, setInlineNone in *;
  simpl;
  repeat (first [reflexivity | goal_match; simpl]);
  try done.

Ltac pure_step :=
  first [ apply stepA_kids; [assumption | frame_solve ..] ].

Lemma _hideClone_stepA a st : sessionWf st → stepA st (stateOf (_hideClone a st)).
Proof.
  intros Hwf. unfold _hideClone.
  destruct (Sortable_get st a) as [this|]; [|by apply stepA_refl].
  destruct (cloneHidden st); [by apply stepA_refl|].
  destruct (Sortable_eventCanceled st); [by apply stepA_refl|].
  destruct (cloneEl st) as [c|] eqn:Hc.
  - set (st1 := set_dom _ st).
    apply (stepA_via st st1); [done|done..|]. intros Hwf1.
    destruct (removeCloneOnHide (options this)); [|simpl; pure_step].
    replace (cloneEl st1) with (Some c) by done.
    destruct (parentNode (dom st1) c) as [p|]; [|simpl; pure_step].
    apply andThen_stepA; [by apply domRemoveChild_clone|].
    intros [] st2 _ Hwf2. simpl. pure_step.
  - rewrite Hc. destruct (removeCloneOnHide (options this)); simpl; [by apply stepA_refl|].
    pure_step.
Qed.

Lemma putModeOf_frame st st' s :
  (expando st' !! s ≫= lastPutMode) = (expando st !! s ≫= lastPutMode) →
  putModeOf st' s = putModeOf st s.
Proof. done. Qed.

Lemma _showClone_stepQ a s st :
  sessionWf st → stepQ s st (stateOf (_showClone a s st)).
Proof.
  intros Hwf. unfold _showClone.
  destruct (Sortable_get st a) as [this|]; [|by apply stepA_stepQ, stepA_refl].
  destruct (Sortable_get st s) as [putS|] eqn:Hs; [|by apply stepA_stepQ, stepA_refl].
  destruct (negb _) eqn:Hmode; [by apply stepA_stepQ, _hideClone_stepA|].
  apply negb_false_iff, bool_decide_eq_true in Hmode.
  destruct (negb (cloneHidden st)); [by apply stepA_stepQ, stepA_refl|].
  destruct (Sortable_eventCanceled st); [by apply stepA_stepQ, stepA_refl|].
  destruct (dragEl st) as [d|] eqn:Hd; [|by apply stepA_stepQ, stepA_refl].
  assert (∀ st1, expando st1 = expando st → putModeOf st1 s = Some PullClone) as Hput.
  { intros st1 He. unfold putModeOf, Sortable_get in *. rewrite He, Hs. done. }
  cbv zeta.
  set (ins := if bool_decide (parentNode (dom st) d = rootEl st) then _ else _).
  assert (conserves st (stateOf ins) ∧ expando (stateOf ins) = expando st) as [Hins Hexp].
  { unfold ins. repeat top_case; simpl;
      try (split; [by apply stepA_refl|done]).
    all: split;
      [ first [by apply domInsertBefore_clone | by apply domAppendChild_clone]
      | unfold domInsertBefore, domAppendChild; by goal_match ]. }
  destruct ins as [[] st1|st1]; simpl in *.
  - destruct (group (options this)) as [g|]; simpl.
    + split.
      * eapply conserves_trans; [exact Hins|].
        apply stepA_kids; [apply Hins|frame_solve..].
      * right. apply Hput. rewrite <- Hexp. frame_solve.
    + split; [done|]. right. by apply Hput.
  - split; [done|]. right. by apply Hput.
Qed.

(** ** What [completed] changes *)

(** After the insertion block, [completed] touches [lastTarget] and the
    record of calls, nothing else. *)
Lemma completedTail_shape h s evt opts target insertion st :
  ∃ lt new,
    stateOf (completedTail h s evt opts target insertion st)
    = set_log (new ++ log st) (set_lastTarget lt st)
    ∧ (new = [] ∨ (insertion = false ∧ new = [EDetectEmpty evt])).
Proof.
  destruct st as [? ? ? ? ? ? ? ? ? ? ? ? ? ? ? ? ? ? ? ? ? lt0 ? ? ? ? ? ? ? ? ? ? ? ? lg0].
  unfold completedTail, _isOutsideThisEl, emit, Sortable_get. simpl.
  repeat (goal_match; simpl);
    first [ by exists None, []; split; [reflexivity|left]
          | by exists lt0, []; split; [reflexivity|left]
          | by exists None, [EDetectEmpty evt]; split; [reflexivity|right]
          | by exists lt0, [EDetectEmpty evt]; split; [reflexivity|right] ].
Qed.

Lemma completed_false_shape h s evt opts isOwner act from target st :
  ∃ lt new,
    stateOf (completed h s evt opts isOwner act from target false st)
    = set_log (new ++ log st) (set_lastTarget lt st)
    ∧ (new = [] ∨ new = [EDetectEmpty evt]).
Proof.
  unfold completed.
  destruct (completedTail_shape h s evt opts target false st) as (lt & new & -> & Hn).
  exists lt, new. naive_solver.
Qed.

Lemma fallThrough_shape h s evt opts isOwner act from target st :
  ∃ lt new,
    stateOf (fallThrough h s evt opts isOwner act from target st)
    = set_log (new ++ log st) (set_lastTarget lt st)
    ∧ (new = [] ∨ new = [EDetectEmpty evt]).
Proof.
  unfold fallThrough. case_match; [apply completed_false_shape|].
  exists (lastTarget st), []. split; [by destruct st|by left].
Qed.

Lemma putModeOf_upd_ignore st x v s :
  putModeOf (updSortable x (set_ignoreWhileAnimating v) st) s = putModeOf st s.
Proof.
  unfold putModeOf, Sortable_get, updSortable. simpl.
  rewrite lookup_alter. case_decide; [subst|done].
  by destruct (expando st !! s).
Qed.

Lemma putModeOf_emit st e s : putModeOf (emit e st) s = putModeOf st s.
Proof. done. Qed.

Lemma putModeOf_set_putSortable st v s : putModeOf (set_putSortable v st) s = putModeOf st s.
Proof. done. Qed.

Lemma stepQ_then_pure s st st1 st2 :
  stepQ s st st1 →
  kids (dom st2) = kids (dom st1) → dragEl st2 = dragEl st1 →
  cloneEl st2 = cloneEl st1 → putModeOf st2 s = putModeOf st1 s →
  stepQ s st st2.
Proof.
  intros [Hc Hq] Hk Hd Hcl Hm.
  pose proof (stepA_kids st1 st2 (proj1 Hc) Hk Hd Hcl) as [Hc2 Ha2].
  split; [by eapply conserves_trans|].
  destruct Hq as [Ha|Hq]; [left|right; congruence].
  intros c Hcl0 Hin. apply Ha; [done|]. apply Ha2; [|done].
  destruct Hc as (_ & _ & -> & _). done.
Qed.

Lemma insertionEffects_stepQ s isOwner act from target st :
  sessionWf st → stepQ s st (stateOf (insertionEffects s isOwner act from target st)).
Proof.
  intros Hwf. unfold insertionEffects.
  set (o := match act with Some _ => _ | None => _ end).
  assert (stepQ s st (stateOf o)) as Ho.
  { unfold o. destruct act as [a|]; [|by apply stepA_stepQ, stepA_refl].
    destruct isOwner; [by apply stepA_stepQ, _hideClone_stepA|by apply _showClone_stepQ]. }
  destruct o as [[] st1|st1]; simpl in *; [|done].
  eapply (stepQ_then_pure s st st1); [done|..].
  - frame_solve.
  - frame_solve.
  - frame_solve.
  - repeat (goal_match; simpl);
      by rewrite ?putModeOf_upd_ignore, ?putModeOf_emit, ?putModeOf_upd_ignore,
           ?putModeOf_set_putSortable.
Qed.

Lemma completed_stepQ h s evt opts isOwner act from target insertion st :
  sessionWf st →
  stepQ s st (stateOf (completed h s evt opts isOwner act from target insertion st)).
Proof.
  intros Hwf. unfold completed.
  assert (∀ st1 ins, stepQ s st st1 →
            stepQ s st (stateOf (completedTail h s evt opts target ins st1))) as Htail.
  { intros st1 ins H1.
    destruct (completedTail_shape h s evt opts target ins st1) as (lt & new & -> & _).
    by eapply stepQ_then_pure. }
  destruct insertion; [|by apply Htail, stepA_stepQ, stepA_refl].
  pose proof (insertionEffects_stepQ s isOwner act from target st Hwf) as Hi.
  destruct (insertionEffects _ _ _ _ _ _) as [[] st1|st1]; simpl in *; [|done].
  by apply Htail.
Qed.

(** ** Conservation through the branches of [_onDragOver] *)

Lemma domInsertBefore_drag_via st0 st p d ref :
  sessionWf st0 → dragEl st0 = Some d →
  kids (dom st) = kids (dom st0) → dragEl st = dragEl st0 → cloneEl st = cloneEl st0 →
  stepA st0 (stateOf (domInsertBefore p d ref st)).
Proof.
  intros Hwf Hd Hk Hd' Hc. apply (stepA_via st0 st); try done.
  intros Hwf'. apply domInsertBefore_drag; [done|congruence].
Qed.

Lemma domAppendChild_drag_via st0 st p d :
  sessionWf st0 → dragEl st0 = Some d →
  kids (dom st) = kids (dom st0) → dragEl st = dragEl st0 → cloneEl st = cloneEl st0 →
  stepA st0 (stateOf (domAppendChild p d st)).
Proof.
  intros Hwf Hd Hk Hd' Hc. apply (stepA_via st0 st); try done.
  intros Hwf'. apply domAppendChild_drag; [done|congruence].
Qed.

Lemma completed_stepQ_via h s evt opts isOwner act from target insertion st0 st :
  sessionWf st0 →
  kids (dom st) = kids (dom st0) → dragEl st = dragEl st0 → cloneEl st = cloneEl st0 →
  stepQ s st0 (stateOf (completed h s evt opts isOwner act from target insertion st)).
Proof.
  intros Hwf Hk Hd Hc. apply (stepQ_via s st0 st); try done.
  apply completed_stepQ.
Qed.

Lemma fallThrough_stepQ_via h s evt opts isOwner act from target st0 st :
  sessionWf st0 →
  kids (dom st) = kids (dom st0) → dragEl st = dragEl st0 → cloneEl st = cloneEl st0 →
  stepQ s st0 (stateOf (fallThrough h s evt opts isOwner act from target st)).
Proof.
  intros Hwf Hk Hd Hc. apply (stepQ_via s st0 st); try done. intros Hwf'.
  unfold fallThrough. case_match; [by apply completed_stepQ|].
  by apply stepA_stepQ, stepA_refl.
Qed.

Lemma revertBranch_stepQ h s evt opts isOwner act from d target st :
  sessionWf st → dragEl st = Some d →
  stepQ s st (stateOf (revertBranch h s evt opts isOwner act from d target st)).
Proof.
  intros Hwf Hd. unfold revertBranch.
  apply andThen_stepQ.
  { apply (stepA_via st (capture s from (set_parentEl (rootEl st) st)));
      [done|frame_solve..|]. apply _hideClone_stepA. }
  intros [] st2 Hst2 Hwf2.
  assert (dragEl st2 = Some d) as Hd2.
  { pose proof (_hideClone_stepA s (capture s from (set_parentEl (rootEl st) st))) as Hh.
    rewrite Hst2 in Hh. simpl in Hh.
    destruct Hh as [(_ & -> & _) _].
    - by eapply (stepA_kids st); [done|frame_solve..].
    - rewrite <- Hd. frame_solve. }
  apply andThen_stepQ.
  { repeat goal_match; simpl; try (by apply stepA_refl).
    - by apply domInsertBefore_drag.
    - by apply domAppendChild_drag. }
  intros [] st3 _ Hwf3. by apply completed_stepQ.
Qed.

Lemma endBranch_stepQ h s evt opts isOwner act from d dragRect target elLastChild st :
  sessionWf st → dragEl st = Some d →
  stepQ s st (stateOf (endBranch h s evt opts isOwner act from d dragRect
                         target elLastChild st)).
Proof.
  intros Hwf Hd. unfold endBranch.
  top_case; [by apply completed_stepQ|].
  cbv zeta. top_case.
  { apply fallThrough_stepQ_via; [done|frame_solve..]. }
  apply andThen_stepQ.
  { top_case.
    - apply domInsertBefore_drag_via; [done|done|frame_solve..].
    - apply domAppendChild_drag_via; [done|done|frame_solve..]. }
  intros [] st3 _ Hwf3.
  apply completed_stepQ_via; [done|frame_solve..].
Qed.

Lemma startBranch_stepQ h s evt opts isOwner act from d dragRect target st :
  sessionWf st → dragEl st = Some d →
  stepQ s st (stateOf (startBranch h s evt opts isOwner act from d dragRect target st)).
Proof.
  intros Hwf Hd. unfold startBranch.
  top_case; [by apply completed_stepQ|].
  top_case; [|by apply stepA_stepQ, stepA_refl].
  cbv zeta. top_case.
  { apply fallThrough_stepQ_via; [done|frame_solve..]. }
  apply andThen_stepQ.
  { apply domInsertBefore_drag_via; [done|done|frame_solve..]. }
  intros [] st3 _ Hwf3.
  apply completed_stepQ_via; [done|frame_solve..].
Qed.

Lemma swapPlace_stepQ h s evt opts isOwner act from d dragRect t vertical
    targetRect scrolled before direction st :
  sessionWf st → dragEl st = Some d →
  stepQ s st (stateOf (swapPlace h s evt opts isOwner act from d dragRect t vertical
                         targetRect scrolled before direction st)).
Proof.
  intros Hwf Hd. unfold swapPlace. cbv zeta.
  top_case.
  { apply fallThrough_stepQ_via; [done|frame_solve..]. }
  apply andThen_stepQ.
  { top_case; [|top_case].
    - apply domAppendChild_drag_via; [done|done|frame_solve..].
    - apply domInsertBefore_drag_via; [done|done|frame_solve..].
    - simpl. apply stepA_kids; [done|frame_solve..]. }
  intros [] st6 _ Hwf6.
  apply completed_stepQ_via; [done|frame_solve..].
Qed.

Lemma swapDecisionState_frame h s opts d dragRect t vertical st :
  ∃ inv past,
    swapDecisionState h s opts d dragRect t vertical st
    = set_isCircumstantialInvert inv (set_pastFirstInvertThresh past st).
Proof.
  unfold swapDecisionState, latchSwapState. goal_match.
  - exists (isCircumstantialInvert st), (pastFirstInvertThresh st). by destruct st.
  - eauto.
Qed.

Lemma swapBranch_stepQ h s evt opts isOwner act from d dragRect t vertical st :
  sessionWf st → dragEl st = Some d →
  stepQ s st (stateOf (swapBranch h s evt opts isOwner act from d dragRect t vertical st)).
Proof.
  intros Hwf Hd. unfold swapBranch. cbv zeta.
  destruct (swapDecisionState_frame h s opts d dragRect t vertical st) as (inv & past & ->).
  top_case.
  - by apply completed_stepQ_via.
  - apply (stepQ_via s st (set_isCircumstantialInvert inv (set_pastFirstInvertThresh past st)));
      try done.
    intros Hwf1. by apply swapPlace_stepQ.
Qed.

(** [permission] writes [lastPutMode] on the instance and nothing else. *)
Lemma permission_shape h s opts evt st :
  (permission h s opts evt st).2 = st
  ∨ ∃ pull, (permission h s opts evt st).2 = updSortable s (set_lastPutMode pull) st.
Proof.
  unfold permission. repeat goal_match; simpl; eauto.
Qed.

Lemma permission_frame h s opts evt st p r st1 :
  permission h s opts evt st = (p, r, st1) →
  dom st1 = dom st ∧ dragEl st1 = dragEl st ∧ cloneEl st1 = cloneEl st
  ∧ log st1 = log st ∧ Sortable_active st1 = Sortable_active st
  ∧ _silent st1 = _silent st ∧ timers st1 = timers st.
Proof.
  intros Hp. destruct (permission_shape h s opts evt st) as [H|[pull H]];
    rewrite Hp in H; simpl in H; subst; done.
Qed.

Lemma _onDragOver_stepQ h s evt st :
  sessionWf st → stepQ s st (stateOf (_onDragOver h s evt st)).
Proof.
  intros Hwf. unfold _onDragOver.
  top_case; [|by apply stepA_stepQ, stepA_refl].
  cbv zeta.
  top_case; [by apply stepA_stepQ, stepA_refl|].
  top_case; [by apply stepA_stepQ, stepA_refl|].
  top_case; [by apply completed_stepQ|].
  destruct (permission _ _ _ _ _) as [[permitted revert] st1] eqn:Hperm.
  apply permission_frame in Hperm as (Hdom & Hd & Hc & _).
  simpl in Hdom, Hd, Hc.
  apply (stepQ_via s st st1); [done|by rewrite Hdom|done..|]. intros Hwf1.
  top_case; [|by apply stepA_stepQ, stepA_refl].
  top_case; [|by apply stepA_stepQ, stepA_refl].
  top_case; [by apply stepA_stepQ, stepA_refl|].
  top_case; [by apply revertBranch_stepQ|].
  top_case; [by apply endBranch_stepQ|].
  top_case; [by apply startBranch_stepQ|].
  top_case; [top_case|].
  - by apply swapBranch_stepQ.
  - by apply fallThrough_stepQ_via.
  - by apply fallThrough_stepQ_via.
Qed.

Lemma dragOverAll_conserves h evs st :
  sessionWf st → conserves st (dragOverAll h evs st).
Proof.
  revert st. induction evs as [|[s evt] evs IH]; intros st Hwf; simpl.
  - by apply stepA_refl.
  - pose proof (_onDragOver_stepQ h s evt st Hwf) as [Hc _].
    eapply conserves_trans; [exact Hc|]. apply IH, Hc.
Qed.

(** C1.  Every dragover evaluation, and so every run of them, leaves each
    element other than the drag clone attached exactly as often as before:
    a placement moves the dragged item and neither duplicates nor drops an
    item.  The clone is the one duplicate there can be: the document stays
    well formed, so it is attached at most once, and an evaluation attaches
    it only with clone mode latched on the receiving instance. *)
Theorem placement_conserves_items h evs st :
  sessionWf st →
  (let st' := dragOverAll h evs st in
   sessionWf st'
   ∧ dragEl st' = dragEl st
   ∧ itemsBut (cloneEl st) (dom st') ≡ₚ itemsBut (cloneEl st) (dom st))
  ∧ ∀ s evt c,
      let st' := stateOf (_onDragOver h s evt st) in
      cloneEl st = Some c → ¬ attached (dom st) c → attached (dom st') c →
      putModeOf st' s = Some PullClone.
Proof.
  intros Hwf. split.
  - destruct (dragOverAll_conserves h evs st Hwf) as (H1 & H2 & _ & H3). done.
  - intros s evt c st' Hc Hout Hin.
    destruct (_onDragOver_stepQ h s evt st Hwf) as [_ [Ha|Hq]]; [|done].
    exfalso. apply Hout. by apply (Ha c).
Qed.

(** ** The guard, the session and the record of calls through [completed] *)

Lemma quietStep_refl st : quietStep st st.
Proof. split_and!; try done. by exists []. Qed.

Lemma quietStep_trans st1 st2 st3 :
  quietStep st1 st2 → quietStep st2 st3 → quietStep st1 st3.
Proof.
  intros ((n1 & L1 & F1) & H1) ((n2 & L2 & F2) & H2).
  split.
  - exists (n2 ++ n1). rewrite L2, L1, app_assoc. split; [done|].
    by apply Forall_app.
  - destruct_and!. split_and!; congruence.
Qed.

Lemma quietStep_log new st st' :
  log st' = new ++ log st → Forall (λ e, isMove e = false) new →
  dragEl st' = dragEl st → rootEl st' = rootEl st →
  Sortable_active st' = Sortable_active st → lastDirection st' = lastDirection st →
  _silent st' = _silent st → timers st' = timers st →
  quietStep st st'.
Proof. intros Hl Hf ??????. split_and!; try done. by exists new. Qed.

Lemma andThen_quiet {A B} st (o : Outcome A) (k : A → State → Outcome B) :
  quietStep st (stateOf o) →
  (∀ a st1, o = Returns a st1 → quietStep st1 (stateOf (k a st1))) →
  quietStep st (stateOf (andThen o k)).
Proof.
  intros Ho Hk. destruct o as [a st1|st1]; simpl in *; [|done].
  eapply quietStep_trans; [done|]. by apply Hk.
Qed.

Lemma quietStep_proj st st' :
  (∃ new, log st' = new ++ log st ∧ Forall (λ e, isMove e = false) new) →
  dragEl st' = dragEl st → rootEl st' = rootEl st →
  Sortable_active st' = Sortable_active st → lastDirection st' = lastDirection st →
  _silent st' = _silent st → timers st' = timers st →
  quietStep st st'.
Proof. intros. by split_and!. Qed.

Ltac quiet_log :=
  first [ exists []; split; [reflexivity|constructor]
        | eexists [_]; split; [reflexivity|repeat constructor]
        | eexists [_; _]; split; [reflexivity|repeat constructor]
        | eexists [_; _; _]; split; [reflexivity|repeat constructor] ].

Ltac quiet_pure :=
  first [ apply quietStep_refl
        | apply quietStep_proj;
          [ unfold capture, changed, emit, updSortable, _isOutsideThisEl,
              swapDecisionState, latchSwapState, setInlineNone;
            simpl; repeat (goal_match; simpl); solve [quiet_log]
          | solve [frame_solve] .. ] ].

Lemma domRemoveChild_quiet p n st : quietStep st (stateOf (domRemoveChild p n st)).
Proof. unfold domRemoveChild. goal_match; simpl; quiet_pure. Qed.

Lemma domInsertBefore_quiet p n ref st : quietStep st (stateOf (domInsertBefore p n ref st)).
Proof. unfold domInsertBefore. goal_match; simpl; quiet_pure. Qed.

Lemma domAppendChild_quiet p n st : quietStep st (stateOf (domAppendChild p n st)).
Proof. unfold domAppendChild. goal_match; simpl; quiet_pure. Qed.

Lemma quietStep_via st0 st st' :
  quietStep st0 st → quietStep st st' → quietStep st0 st'.
Proof. apply quietStep_trans. Qed.

Lemma _hideClone_quiet a st : quietStep st (stateOf (_hideClone a st)).
Proof.
  unfold _hideClone.
  repeat top_case; simpl; try quiet_pure.
  eapply quietStep_trans; [|apply andThen_quiet; [apply domRemoveChild_quiet|]].
  - quiet_pure.
  - intros [] st2 _. simpl. quiet_pure.
Qed.

Lemma _showClone_quiet a s st : quietStep st (stateOf (_showClone a s st)).
Proof.
  unfold _showClone.
  repeat top_case; simpl; try quiet_pure; try apply _hideClone_quiet.
  apply andThen_quiet.
  - repeat top_case; simpl; try quiet_pure;
      first [apply domInsertBefore_quiet | apply domAppendChild_quiet].
  - intros [] st1 _. quiet_pure.
Qed.

Lemma insertionEffects_quiet s isOwner act from target st :
  quietStep st (stateOf (insertionEffects s isOwner act from target st)).
Proof.
  unfold insertionEffects. apply andThen_quiet.
  - repeat top_case; simpl; try quiet_pure;
      first [apply _hideClone_quiet | apply _showClone_quiet].
  - intros [] st1 _. cbv zeta. quiet_pure.
Qed.

Lemma completedTail_quiet h s evt opts target insertion st :
  quietStep st (stateOf (completedTail h s evt opts target insertion st)).
Proof.
  destruct (completedTail_shape h s evt opts target insertion st) as (lt & new & -> & Hn).
  apply (quietStep_log new); try done.
  destruct Hn as [->|[_ ->]]; repeat constructor.
Qed.

Lemma completed_quiet h s evt opts isOwner act from target insertion st :
  quietStep st (stateOf (completed h s evt opts isOwner act from target insertion st)).
Proof.
  unfold completed. destruct insertion; [|apply completedTail_quiet].
  apply andThen_quiet; [apply insertionEffects_quiet|].
  intros [] st1 _. apply completedTail_quiet.
Qed.

(** ** The move hook in each branch *)

Lemma hook_none evt st st' : quietStep st st' → hookOutcome evt st st'.
Proof. intros [H _]. by left. Qed.

Lemma hookOutcome_via evt st0 st st' :
  log st = log st0 → dom st = dom st0 → dragEl st = dragEl st0 →
  Sortable_active st = Sortable_active st0 →
  hookOutcome evt st st' → hookOutcome evt st0 st'.
Proof.
  intros Hl Hdom Hd Ha. unfold hookOutcome. rewrite Hl, Hdom, Hd, Ha. done.
Qed.

Lemma hook_veto h s evt opts isOwner act from target a st0 st :
  log st = log st0 → dom st = dom st0 → dragEl st = dragEl st0 →
  Sortable_active st = Sortable_active st0 →
  hookOutcome evt st0
    (stateOf (fallThrough h s evt opts isOwner act from target (emit (EMove a MvFalse) st))).
Proof.
  intros Hl Hdom Hd Ha. right. left.
  destruct (fallThrough_shape h s evt opts isOwner act from target
              (emit (EMove a MvFalse) st)) as (lt & new & -> & Hn).
  exists a, new. simpl. rewrite Hl. done.
Qed.

Lemma hook_allowed evt a mv st0 st1 st' :
  isVetoed mv = false → log st1 = EMove a mv :: log st0 →
  quietStep st1 st' → hookOutcome evt st0 st'.
Proof.
  intros Hmv Hl ((new & Hlog & Hf) & _). right. right.
  exists a, mv, new. rewrite Hlog, Hl. done.
Qed.

Ltac allowed_here :=
  match goal with
  | |- context [emit (EMove ?a ?mv) ?st1] =>
      eapply (hook_allowed _ a mv _ (emit (EMove a mv) st1)); [done|reflexivity|]
  end.

Ltac quiet_commit :=
  apply andThen_quiet;
  [ repeat top_case; simpl;
      first [ apply domInsertBefore_quiet | apply domAppendChild_quiet | quiet_pure ]
  | intros [] ? _;
      eapply quietStep_trans; [|apply completed_quiet]; quiet_pure ].

Lemma revertBranch_quiet h s evt opts isOwner act from d target st :
  quietStep st (stateOf (revertBranch h s evt opts isOwner act from d target st)).
Proof.
  unfold revertBranch.
  eapply quietStep_trans; [|apply andThen_quiet; [apply _hideClone_quiet|]].
  { quiet_pure. }
  intros [] st2 _. apply andThen_quiet.
  - repeat top_case; simpl;
      first [ apply domInsertBefore_quiet | apply domAppendChild_quiet | quiet_pure ].
  - intros [] st3 _. apply completed_quiet.
Qed.

Lemma endBranch_hook h s evt opts isOwner act from d dragRect target elLastChild st :
  hookOutcome evt st
    (stateOf (endBranch h s evt opts isOwner act from d dragRect target elLastChild st)).
Proof.
  unfold endBranch.
  top_case; [apply hook_none, completed_quiet|].
  cbv zeta.
  destruct (onMove h _) eqn:Hmv; simpl isVetoed; cbv iota;
    try (by apply hook_veto).
  all: allowed_here.
  all: eapply quietStep_trans; [|quiet_commit]; quiet_pure.
Qed.

Lemma startBranch_hook h s evt opts isOwner act from d dragRect target st :
  hookOutcome evt st
    (stateOf (startBranch h s evt opts isOwner act from d dragRect target st)).
Proof.
  unfold startBranch.
  top_case; [apply hook_none, completed_quiet|].
  top_case; [|apply hook_none, quietStep_refl].
  cbv zeta.
  destruct (onMove h _) eqn:Hmv; simpl isVetoed; cbv iota;
    try (by apply hook_veto).
  all: allowed_here.
  all: eapply quietStep_trans; [|quiet_commit]; quiet_pure.
Qed.

Lemma swapPlace_hook h s evt opts isOwner act from d dragRect t vertical
    targetRect scrolled before direction st :
  hookOutcome evt st
    (stateOf (swapPlace h s evt opts isOwner act from d dragRect t vertical
                targetRect scrolled before direction st)).
Proof.
  unfold swapPlace. cbv zeta.
  destruct (onMove h _) eqn:Hmv; simpl isVetoed; cbv iota.
  { by apply hook_veto. }
  all: match goal with
       | |- context [capture _ _ ?st4] =>
           match st4 with
           | context [emit (EMove ?a ?mv) _] =>
               eapply (hook_allowed _ a mv _ st4); [done|reflexivity|]
           end
       end.
  all: eapply quietStep_trans; [|quiet_commit]; quiet_pure.
Qed.

Lemma swapBranch_hook h s evt opts isOwner act from d dragRect t vertical st :
  hookOutcome evt st
    (stateOf (swapBranch h s evt opts isOwner act from d dragRect t vertical st)).
Proof.
  unfold swapBranch. cbv zeta.
  destruct (swapDecisionState_frame h s opts d dragRect t vertical st) as (inv & past & ->).
  top_case.
  - apply hook_none. eapply quietStep_trans; [|apply completed_quiet]. quiet_pure.
  - eapply hookOutcome_via; [| | | |apply swapPlace_hook]; done.
Qed.

(** ** The guard in a mid-list swap *)

Lemma quiet_not_allowed st st' new :
  log st' = new ++ log st → Forall (λ e, isMove e = false) new → ¬ hookAllowed st st'.
Proof.
  intros Hl Hf (new' & a & mv & Hl' & Hin & _).
  rewrite Hl in Hl'. apply app_inv_tail in Hl' as <-.
  rewrite Forall_forall in Hf. by apply Hf in Hin.
Qed.

Lemma refused_not_allowed st st' a tail :
  log st' = tail ++ EMove a MvFalse :: log st →
  Forall (λ e, isMove e = false) tail → ¬ hookAllowed st st'.
Proof.
  intros Hl Hf (new' & a' & mv & Hl' & Hin & Hmv).
  rewrite Hl, (cons_middle _ tail), app_assoc in Hl'.
  apply app_inv_tail in Hl' as <-.
  apply elem_of_app in Hin as [Hin|Hin].
  - rewrite Forall_forall in Hf. by apply Hf in Hin.
  - apply list_elem_of_singleton in Hin. by simplify_eq.
Qed.

Lemma asked_allowed st st' a mv new :
  isVetoed mv = false → log st' = new ++ EMove a mv :: log st → hookAllowed st st'.
Proof.
  intros Hmv Hl. exists (new ++ [EMove a mv]), a, mv.
  rewrite <- app_assoc. split; [done|]. split; [|done].
  apply elem_of_app. right. by apply list_elem_of_singleton.
Qed.

Lemma guardOutcome_via st0 st st' :
  log st = log st0 → dom st = dom st0 → _silent st = _silent st0 →
  timers st = timers st0 →
  guardOutcome st st' → guardOutcome st0 st'.
Proof.
  intros Hl Hd Hs Ht. unfold guardOutcome, hookAllowed. rewrite Hl, Hd, Hs, Ht. done.
Qed.

Lemma swapPlace_guard h s evt opts isOwner act from d dragRect t vertical
    targetRect scrolled before direction st :
  guardOutcome st
    (stateOf (swapPlace h s evt opts isOwner act from d dragRect t vertical
                targetRect scrolled before direction st)).
Proof.
  unfold swapPlace. cbv zeta.
  destruct (onMove h _) eqn:Hmv; simpl isVetoed; cbv iota.
  { left.
    match goal with
    | |- context [fallThrough ?h ?s ?evt ?opts ?o ?a ?f ?tg ?st1] =>
        destruct (fallThrough_shape h s evt opts o a f tg st1) as (lt & new & -> & Hn)
    end.
    split; [|done].
    match goal with
    | |- context [EMove ?a MvFalse] => apply (refused_not_allowed _ _ a new)
    end; [reflexivity|].
    destruct Hn as [->| ->]; repeat constructor. }
  all: right.
  all: match goal with
       | |- context [stateOf ?o] =>
           match o with
           | context [capture _ _ ?st4] =>
               assert (quietStep st4 (stateOf o)) as ((new & Hl & Hf) & _ & _ & _ & _ & Hs & Ht)
           end
       end.
  all: try (eapply quietStep_trans; [|quiet_commit]; quiet_pure).
  all: split; [|rewrite Hs, Ht; done].
  all: match type of Hl with
       | context [EMove ?a ?mv] => apply (asked_allowed _ _ a mv new); [done|]
       end.
  all: rewrite Hl; reflexivity.
Qed.

Lemma swapBranch_guard h s evt opts isOwner act from d dragRect t vertical st :
  guardOutcome st
    (stateOf (swapBranch h s evt opts isOwner act from d dragRect t vertical st)).
Proof.
  unfold swapBranch. cbv zeta.
  destruct (swapDecisionState_frame h s opts d dragRect t vertical st) as (inv & past & ->).
  top_case.
  - left.
    match goal with
    | |- context [completed ?h ?s ?evt ?opts ?o ?a ?f ?tg false ?st1] =>
        destruct (completed_false_shape h s evt opts o a f tg st1) as (lt & new & -> & Hn)
    end.
    split; [|done].
    apply (quiet_not_allowed _ _ new); [reflexivity|].
    destruct Hn as [->| ->]; repeat constructor.
  - eapply guardOutcome_via; [| | | |apply swapPlace_guard]; done.
Qed.

Lemma _onDragOver_hook h s evt st :
  hookOutcome evt st (stateOf (_onDragOver h s evt st)).
Proof.
  unfold _onDragOver.
  top_case; [|apply hook_none, quietStep_refl].
  cbv zeta.
  top_case; [apply hook_none, quietStep_refl|].
  top_case; [apply hook_none, quietStep_refl|].
  top_case; [apply hook_none, completed_quiet|].
  destruct (permission _ _ _ _ _) as [[permitted revert] st1] eqn:Hperm.
  apply permission_frame in Hperm as (Hdom & Hd & Hc & Hl & Ha & _).
  simpl in Hdom, Hd, Hc, Hl, Ha.
  apply (hookOutcome_via evt st st1); try done.
  top_case; [|apply hook_none, quietStep_refl].
  top_case; [|apply hook_none, quietStep_refl].
  top_case; [apply hook_none, quietStep_refl|].
  top_case; [apply hook_none, revertBranch_quiet|].
  top_case; [apply endBranch_hook|].
  top_case; [apply startBranch_hook|].
  assert (∀ tg, hookOutcome evt st1
            (stateOf (fallThrough h s evt (options s0) (bool_decide (activeGroup st = group (options s0)))
                        (Sortable_active st)
                        match putSortable st with Some p => Some p | None => Sortable_active st end
                        tg st1))) as Hfall.
  { intros tg. apply hook_none.
    destruct (fallThrough_shape h s evt (options s0)
                (bool_decide (activeGroup st = group (options s0))) (Sortable_active st)
                match putSortable st with Some p => Some p | None => Sortable_active st end
                tg st1) as (lt & new & -> & Hn).
    apply (quietStep_log new); try done.
    destruct Hn as [->| ->]; repeat constructor. }
  top_case; [top_case|]; [apply swapBranch_hook|apply Hfall..].
Qed.

(** C4.  When a dragover evaluation consults the move hook and the hook
    answers [false], the document is left exactly as it was, the evaluation
    records nothing but that consultation (and, possibly, the look-out for
    a nearby empty list that follows every evaluation without insertion),
    and the session goes on with the same dragged item and the same active
    instance. *)
Theorem veto_discards_placement h s evt st new a :
  let st' := stateOf (_onDragOver h s evt st) in
  log st' = new ++ log st →
  EMove a MvFalse ∈ new →
  dom st' = dom st
  ∧ (new = [EMove a MvFalse] ∨ new = [EDetectEmpty evt; EMove a MvFalse])
  ∧ dragEl st' = dragEl st
  ∧ Sortable_active st' = Sortable_active st.
Proof.
  intros st' Hlog Hin. unfold st' in *. clear st'.
  destruct (_onDragOver_hook h s evt st) as [Hq|[Hv|Ha]].
  - destruct Hq as (new' & Hl & Hf). rewrite Hlog in Hl.
    apply app_inv_tail in Hl as ->.
    rewrite Forall_forall in Hf. by apply Hf in Hin.
  - destruct Hv as (a' & tail & Hl & Htail & Hdom & Hd & Hact).
    rewrite Hlog, (cons_middle _ tail), app_assoc in Hl.
    apply app_inv_tail in Hl as ->.
    assert (a' = a) as ->.
    { apply elem_of_app in Hin as [Hin|Hin].
      - destruct Htail as [->| ->]; [by apply elem_of_nil in Hin|].
        apply list_elem_of_singleton in Hin. done.
      - apply list_elem_of_singleton in Hin. congruence. }
    split_and!; try done.
    destruct Htail as [->| ->]; [by left|by right].
  - destruct Ha as (a' & mv & new' & Hmv & Hl & Hf).
    rewrite Hlog, (cons_middle _ new'), app_assoc in Hl.
    apply app_inv_tail in Hl as ->.
    apply elem_of_app in Hin as [Hin|Hin].
    + rewrite Forall_forall in Hf. by apply Hf in Hin.
    + apply list_elem_of_singleton in Hin. by simplify_eq.
Qed.

Lemma veto_discards_placement_witness :
  let h := exHost exSwap (λ _, MvFalse) in
  let st' := stateOf (_onDragOver h 1 (exOver 11 35) exDragging) in
  dom st' = dom exDragging
  ∧ ([EDetectEmpty (exOver 11 35); EMove exVetoArgs MvFalse] = [EMove exVetoArgs MvFalse]
     ∨ [EDetectEmpty (exOver 11 35); EMove exVetoArgs MvFalse]
       = [EDetectEmpty (exOver 11 35); EMove exVetoArgs MvFalse])
  ∧ dragEl st' = dragEl exDragging
  ∧ Sortable_active st' = Sortable_active exDragging.
Proof.
  apply (veto_discards_placement (exHost exSwap (λ _, MvFalse)) 1%nat (exOver 11 35)
           exDragging [EDetectEmpty (exOver 11 35); EMove exVetoArgs MvFalse] exVetoArgs).
  - vm_compute. reflexivity.
  - apply elem_of_cons. right. apply elem_of_cons. left. reflexivity.
Defined.

(** ** The walk that looks beside the dragged item *)

(** The walk stops by itself: one more step than [parentEl] has children is
    always enough, so the bound on [besideLoop] never cuts it short. *)
Lemma besideLoop_fuel pg d ghost cs direction :
  direction ≠ 0 →
  ∀ fuel fuel' dragIndex,
    (if 0 <? direction
     then Z.max 0 (Z.min dragIndex (Z.of_nat (length cs)))
     else Z.of_nat (length cs) - 1 - Z.max (-1) (Z.min dragIndex (Z.of_nat (length cs) - 1)))
    < Z.of_nat fuel →
    (fuel ≤ fuel')%nat →
    besideLoop fuel' pg d ghost cs direction dragIndex
    = besideLoop fuel pg d ghost cs direction dragIndex.
Proof.
  intros Hdir. induction fuel as [|fuel IH]; intros fuel' dragIndex Hm Hle.
  - destruct (0 <? direction) eqn:Hpos; lia.
  - destruct fuel' as [|fuel']; [lia|]. simpl.
    destruct (dragIndex - direction <? 0) eqn:Hneg; [done|].
    destruct (cs !! Z.to_nat (dragIndex - direction)) as [sib|] eqn:Hsib; [|done].
    apply lookup_lt_Some in Hsib.
    destruct (cssDisplayNone pg d sib || bool_decide (Some sib = ghost)); [|done].
    apply IH; [|lia].
    destruct (0 <? direction) eqn:Hpos; lia.
Qed.

Lemma beside_enough h st direction extra :
  direction ≠ 0 →
  let cs := match parentEl st with Some p => children (dom st) p | None => [] end in
  besideLoop (S (length cs) + extra) (page h) (dom st) (ghostEl st) cs direction
    (index (page h) (dom st) (Sortable_clone st) (dragEl st) None)
  = beside h st direction.
Proof.
  intros Hdir cs. unfold beside. fold cs.
  apply besideLoop_fuel; [done| |lia].
  destruct (0 <? direction); lia.
Qed.

(** C6.  The test for an item already beside its target misses when the
    list keeps its hidden clone in front of the dragged item.  The children
    of root [1] are the clone [15], the dragged item [10], then [11] and
    [12]; the pointer is in the upper half of [11], so the direction is
    [-1]: before the target, where the item already stands.  The walk
    starts at [index(dragEl)], which passes over the clone and is [0], one
    short of the item's place among [parentEl.children]; one step on it
    stands on the dragged item itself, which is neither hidden nor the
    ghost, and the walk ends there instead of on the target.  The move hook
    is consulted, the guard is set, and the item is inserted where it
    is. *)
Theorem beside_check_misses_behind_kept_clone :
  let h := exHost exSwap (λ _, MvOther) in
  let evt := exOver 11 45 in
  let st := exKeptClone in
  let opts := exKeptOptions 1 in
  let st1 := swapDecisionState h 1 opts 10 (getRect h st 10) 11 true st in
  let st' := stateOf (_onDragOver h 1 evt st) in
  (children (dom st) 1 = [15; 10; 11; 12]%nat
   ∧ dragEl st = Some 10%nat
   ∧ cssDisplayNone (page h) (dom st) 15 = true
   ∧ nextElementSibling (dom st) 10 = Some 11%nat)
  ∧ swapDirection h 1 evt opts 10 (getRect h st 10) 11 true st = -1
  ∧ index (page h) (dom st) (Sortable_clone st) (dragEl st) None = 0
  ∧ beside h st1 (-1) = Some 10%nat
  ∧ _onDragOver h 1 evt st = Returns RTrue st'
  ∧ (∃ a, EMove a MvOther ∈ log st')
  ∧ EInsertBefore 1 10 (Some 11%nat) ∈ log st'
  ∧ _silent st' = true
  ∧ timers st' = (30%nat, ClearSilent) :: timers st
  ∧ dom st' = dom st.
Proof.
  cbv zeta. split_and!; try (vm_compute; reflexivity).
  - eexists. vm_compute. do 3 (apply elem_of_cons; right).
    apply elem_of_cons. left. reflexivity.
  - vm_compute. apply elem_of_cons. right. apply elem_of_cons. left. reflexivity.
Qed.

(** ** The re-entrancy guard *)

Lemma quiet_guard st1 st' :
  quietStep st1 st' → _silent st' = _silent st1 ∧ timers st' = timers st1.
Proof. intros (_ & _ & _ & _ & _ & Hs & Ht). done. Qed.

Lemma endBranch_guard h s evt opts isOwner act from d dragRect target elLastChild st :
  let st' := stateOf (endBranch h s evt opts isOwner act from d dragRect
                        target elLastChild st) in
  _silent st' = _silent st ∧ timers st' = timers st.
Proof.
  unfold endBranch.
  top_case; [apply quiet_guard, completed_quiet|].
  cbv zeta.
  destruct (onMove h _) eqn:Hmv; simpl isVetoed; cbv iota.
  { match goal with
    | |- context [fallThrough ?h ?s ?evt ?opts ?o ?a ?f ?tg ?st1] =>
        destruct (fallThrough_shape h s evt opts o a f tg st1) as (lt & new & -> & _)
    end. done. }
  all: match goal with
       | |- context [capture _ _ ?st1] =>
           change (_silent st) with (_silent st1); change (timers st) with (timers st1)
       end.
  all: apply quiet_guard.
  all: eapply quietStep_trans; [|quiet_commit]; quiet_pure.
Qed.

Lemma startBranch_guard h s evt opts isOwner act from d dragRect target st :
  let st' := stateOf (startBranch h s evt opts isOwner act from d dragRect target st) in
  _silent st' = _silent st ∧ timers st' = timers st.
Proof.
  unfold startBranch.
  top_case; [apply quiet_guard, completed_quiet|].
  top_case; [|done].
  cbv zeta.
  destruct (onMove h _) eqn:Hmv; simpl isVetoed; cbv iota.
  { match goal with
    | |- context [fallThrough ?h ?s ?evt ?opts ?o ?a ?f ?tg ?st1] =>
        destruct (fallThrough_shape h s evt opts o a f tg st1) as (lt & new & -> & _)
    end. done. }
  all: match goal with
       | |- context [capture _ _ ?st1] =>
           change (_silent st) with (_silent st1); change (timers st) with (timers st1)
       end.
  all: apply quiet_guard.
  all: eapply quietStep_trans; [|quiet_commit]; quiet_pure.
Qed.

(** C8, as the specification words it, fails: an insertion at the end of
    the list changes the document and leaves the guard unset. *)
Lemma guard_after_every_placement_fails :
  ¬ (∀ h s evt st,
       let st' := stateOf (_onDragOver h s evt st) in
       dom st' ≠ dom st → _silent st' = true).
Proof.
  intros H.
  specialize (H (exHost exSwap (λ _, MvOther)) 1%nat (exOver 1 100) exDragging).
  simpl in H. enough (false = true) by done.
  etransitivity; [|apply H].
  - vm_compute. reflexivity.
  - intros Heq. apply (f_equal (λ d, children d 1)) in Heq.
    vm_compute in Heq. discriminate.
Qed.

(** C8, amended.  While the guard is set, a dragover invocation returns at
    once and leaves the whole state as it was.  A mid-list swap sets the
    guard, and queues the 30 ms timer that clears it, whenever the move
    hook was asked and did not refuse, whether or not the insertion that
    follows changes the document or even succeeds; a swap that did not get
    that far leaves the document, the guard and the timers alone.
    Insertions at the end or the start of the list, and the revert into
    the original list, leave the guard and the timers alone. *)
Theorem guard_set_by_swap_and_respected :
  (∀ h s evt st,
     _silent st = true →
     stateOf (_onDragOver h s evt st) = st
     ∧ (is_Some (Sortable_get st s) → _onDragOver h s evt st = Returns RUndefined st))
  ∧ (∀ h s evt opts isOwner act from d dragRect t vertical st,
       let st' := stateOf (swapBranch h s evt opts isOwner act from d dragRect t vertical st) in
       (hookAllowed st st' →
        _silent st' = true
        ∧ timers st' = (30%nat, ClearSilent) :: timers st
        ∧ fireTimer h ClearSilent st' = Returns () (set__silent false st'))
       ∧ (¬ hookAllowed st st' →
          dom st' = dom st ∧ _silent st' = _silent st ∧ timers st' = timers st))
  ∧ (∀ h s evt opts isOwner act from d dragRect target elLastChild st,
       let st1 := stateOf (endBranch h s evt opts isOwner act from d dragRect
                             target elLastChild st) in
       let st2 := stateOf (startBranch h s evt opts isOwner act from d dragRect target st) in
       let st3 := stateOf (revertBranch h s evt opts isOwner act from d target st) in
       (_silent st1 = _silent st ∧ timers st1 = timers st)
       ∧ (_silent st2 = _silent st ∧ timers st2 = timers st)
       ∧ (_silent st3 = _silent st ∧ timers st3 = timers st)).
Proof.
  split_and!.
  - intros h s evt st Hs. unfold _onDragOver.
    destruct (Sortable_get st s) as [this|]; simpl; rewrite ?Hs; [|split; [done|]].
    + split; [done|]. done.
    + intros [? [=]].
  - intros h s evt opts isOwner act from d dragRect t vertical st st'.
    destruct (swapBranch_guard h s evt opts isOwner act from d dragRect t vertical st)
      as [(Hno & Hd & Hs & Ht)|(Hyes & Hs & Ht)]; fold st' in Hno || fold st' in Hyes.
    + split; [intros Ha; contradiction|]. intros _. done.
    + split; [|intros Hn; contradiction]. intros _. done.
  - intros. split; [|split].
    + apply endBranch_guard.
    + apply startBranch_guard.
    + apply quiet_guard, revertBranch_quiet.
Qed.

Lemma guard_set_by_swap_and_respected_witness :
  let h := exHost exSwap (λ _, MvOther) in
  let blocked := set__silent true exDragging in
  let st' := stateOf (swapBranch h 1 (exOver 11 35) (exOptions 1) true (Some 1%nat)
                        (Some 1%nat) 10 (exRect exDragging 10) 11 true exDragging) in
  (_silent blocked = true ∧ _onDragOver h 1 (exOver 11 35) blocked = Returns RUndefined blocked)
  ∧ (hookAllowed exDragging st'
     ∧ _silent st' = true
     ∧ timers st' = (30%nat, ClearSilent) :: timers exDragging).
Proof.
  destruct guard_set_by_swap_and_respected as (Hblocked & Hswap & _).
  assert (hookAllowed exDragging
            (stateOf (swapBranch (exHost exSwap (λ _, MvOther)) 1 (exOver 11 35)
                        (exOptions 1) true (Some 1%nat) (Some 1%nat) 10
                        (exRect exDragging 10) 11 true exDragging))) as Hyes.
  { eexists _, _, _. split; [|split].
    - vm_compute. symmetry. apply app_nil_r.
    - do 3 (apply elem_of_cons; right). apply elem_of_cons. left. reflexivity.
    - reflexivity. }
  split.
  - split; [reflexivity|].
    apply (Hblocked (exHost exSwap (λ _, MvOther)) 1%nat (exOver 11 35)
             (set__silent true exDragging)); [reflexivity|].
    vm_compute. eexists. reflexivity.
  - split; [exact Hyes|].
    destruct (Hswap (exHost exSwap (λ _, MvOther)) 1%nat (exOver 11 35) (exOptions 1) true
                (Some 1%nat) (Some 1%nat) 10%nat (exRect exDragging 10) 11%nat true
                exDragging) as [Hset _].
    destruct (Hset Hyes) as (Hs & Ht & _).
    split; [exact Hs|exact Ht].
Defined.

(** ** A pointer-down during a session *)

Lemma _onTapStart_dragging h s evt st :
  is_Some (dragEl st) →
  _onTapStart h s evt st = Returns () st
  ∨ _onTapStart h s evt st = Throws st
  ∨ _onTapStart h s evt st
    = Returns () (set_savedInputChecked (_saveInputCheckedState h s (dom st)) st).
Proof.
  intros Hd. unfold _onTapStart.
  destruct (negb (tapCancelable evt)); [by left|].
  destruct (Sortable_get st s) as [this|]; [|by right; left].
  cbv zeta. simpl. rewrite bool_decide_eq_true_2 by done. by right; right.
Qed.

Lemma tap_keeps_session h s evt st :
  is_Some (dragEl st) →
  let st' := stateOf (_onTapStart h s evt st) in
  set_savedInputChecked [] st' = set_savedInputChecked [] st.
Proof.
  intros Hd. destruct (_onTapStart_dragging h s evt st Hd) as [->|[->| ->]]; done.
Qed.

(** C2.  While an item is being dragged, a pointer-down changes nothing of
    the module state but the list of checked inputs, which the handler
    saves before it looks at the session: the handler returns at once
    without preparing a drag, and so does every later pointer-down for as
    long as the session lasts. *)
Theorem second_tap_is_ignored h taps st :
  is_Some (dragEl st) →
  set_savedInputChecked [] (tapAll h taps st) = set_savedInputChecked [] st
  ∧ ∀ s evt this,
      Sortable_get st s = Some this → tapCancelable evt = true →
      _onTapStart h s evt st
      = Returns () (set_savedInputChecked (_saveInputCheckedState h s (dom st)) st).
Proof.
  intros Hd. split.
  - revert st Hd. induction taps as [|[s evt] taps IH]; intros st Hd; [done|].
    simpl. pose proof (tap_keeps_session h s evt st Hd) as Hstep. simpl in Hstep.
    rewrite IH; [done|].
    apply (f_equal dragEl) in Hstep. simpl in Hstep. by rewrite Hstep.
  - intros s evt this Hs Hc. unfold _onTapStart. rewrite Hc, Hs. simpl.
    by rewrite bool_decide_eq_true_2.
Qed.

Lemma second_tap_is_ignored_witness :
  let h := exHost exSwap (λ _, MvOther) in
  let tap := mkTapEvent true true 0 false 11 11 5 5 in
  is_Some (dragEl exDragging)
  ∧ set_savedInputChecked [] (tapAll h [(1%nat, tap); (2%nat, tap)] exDragging)
    = set_savedInputChecked [] exDragging.
Proof.
  split; [eexists; reflexivity|].
  apply (second_tap_is_ignored (exHost exSwap (λ _, MvOther))).
  eexists. reflexivity.
Defined.

Example tap_starts_session_when_idle :
  dragEl (stateOf (_onTapStart (exHost exSwap (λ _, MvOther)) 1
                     (mkTapEvent true true 0 false 11 11 5 5) exIdle))
  = Some 11%nat.
Proof. vm_compute. reflexivity. Qed.

(** A pointer-down on the root itself finds no item.  In a module that has
    seen no drag, [lastDownEl] is [undefined], which is not the [null] the
    search answered: the handler goes on and records [-1] for both origin
    indices, and no item is chosen.  Once a drop has reset [lastDownEl] to
    [null], the handler returns at the comparison. *)
Example tap_on_the_root_itself :
  let h := exHost exSwap (λ _, MvOther) in
  let tap := mkTapEvent true true 0 false 1 1 5 5 in
  let fresh := stateOf (_onTapStart h 1 tap exIdle) in
  let later := stateOf (_onTapStart h 1 tap (_nulling exIdle)) in
  lastDownEl exIdle = ElUndefined
  ∧ oldIndex fresh = Some (-1) ∧ oldDraggableIndex fresh = Some (-1)
  ∧ dragEl fresh = None
  ∧ lastDownEl (_nulling exIdle) = ElNull
  ∧ oldIndex later = None ∧ oldDraggableIndex later = None.
Proof. vm_compute. done. Qed.

(** ** Drop *)

Lemma sameButDom_refl st : sameButDom st st.
Proof. by destruct st. Qed.

Lemma sameButDom_trans st1 st2 st3 :
  sameButDom st1 st2 → sameButDom st2 st3 → sameButDom st1 st3.
Proof.
  unfold sameButDom. destruct st1, st2, st3. simpl. intros [=] [=]. by subst.
Qed.

Lemma removeChild_attached d p n :
  parentNode d n = Some p → is_Some (removeChild d p n).
Proof.
  intros Hp. unfold removeChild.
  rewrite decide_True by by apply parentNode_children. done.
Qed.

Lemma removeIfAttached_returns (n : option nat) st :
  ∃ st',
    match n with
    | Some g => match parentNode (dom st) g with
                | Some p => domRemoveChild p g st
                | None => Returns () st
                end
    | None => Returns () st
    end = Returns () st'
    ∧ sameButDom st st'.
Proof.
  destruct n as [g|]; [|exists st; split; [done|apply sameButDom_refl]].
  destruct (parentNode (dom st) g) as [p|] eqn:Hp;
    [|exists st; split; [done|apply sameButDom_refl]].
  unfold domRemoveChild.
  destruct (removeChild_attached _ _ _ Hp) as [d' ->].
  eexists. split; [done|]. by destruct st.
Qed.

Lemma save_returns a st :
  is_Some (Sortable_get st a) →
  ∃ st', save a st = Returns () st' ∧ sameButDom st st'.
Proof.
  intros [this Hs]. unfold save. rewrite Hs.
  repeat goal_match; eexists; (split; [done|]); by destruct st.
Qed.

(** C7.  At drop time, with an event at hand and a session active, when the
    index computed for the dragged item is [-1], the final index and the
    final draggable-index are set to the origin index and the origin
    draggable-index recorded when the session started, and they hold these
    values when the order is saved. *)
Theorem drop_reports_origin_index h s st d :
  is_Some (Sortable_get st s) →
  dragEl st = Some d →
  is_Some (Sortable_active st) →
  Sortable_eventCanceled st = false →
  (∀ p, putSortable st = Some p → is_Some (Sortable_get st p)) →
  index (page h) (dom st) (Sortable_clone st) (Some d) None = -1 →
  ∃ st',
    dropSettle h s true st = Returns () st'
    ∧ newIndex st' = oldIndex st
    ∧ newDraggableIndex st' = oldDraggableIndex st
    ∧ _onDrop h s true st = Returns () (_nulling st').
Proof.
  intros [this Hs] Hd [act Hact] Hcancel Hput Hidx.
  assert (∃ st', dropSettle h s true st = Returns () st'
                 ∧ newIndex st' = oldIndex st
                 ∧ newDraggableIndex st' = oldDraggableIndex st) as (st' & Hdrop & H1 & H2).
  2: { exists st'. split_and!; try done. unfold _onDrop. by rewrite Hdrop. }
  unfold dropSettle. rewrite Hs. cbv zeta.
  set (st5 := set_timers _ _).
  simpl Sortable_eventCanceled. rewrite Hcancel. simpl negb. cbv iota.
  assert (newIndex st5 = Some (-1)) as Hn5 by (simpl; rewrite Hd; by rewrite Hidx).
  assert (oldIndex st5 = oldIndex st ∧ oldDraggableIndex st5 = oldDraggableIndex st
          ∧ dragEl st5 = Some d ∧ Sortable_active st5 = Some act
          ∧ putSortable st5 = putSortable st ∧ expando st5 = expando st)
    as (Ho5 & Hod5 & Hd5 & Ha5 & Hp5 & He5) by done.
  clearbody st5.
  destruct (removeIfAttached_returns (ghostEl st5) st5) as (st6 & -> & H6).
  simpl andThen.
  assert (∃ st7, (if bool_decide (rootEl st6 = parentEl st6)
                     || match putSortable st6 ≫= Sortable_get st6 with
                        | Some put => negb (bool_decide (lastPutMode put = Some PullClone))
                        | None => false
                        end
                  then match cloneEl st6 with
                       | Some c => match parentNode (dom st6) c with
                                   | Some p => domRemoveChild p c st6
                                   | None => Returns () st6
                                   end
                       | None => Returns () st6
                       end
                  else Returns () st6) = Returns () st7 ∧ sameButDom st6 st7)
    as (st7 & -> & H7).
  { destruct (_ || _); [apply removeIfAttached_returns|].
    exists st6. split; [done|apply sameButDom_refl]. }
  simpl andThen.
  pose proof (sameButDom_trans _ _ _ H6 H7) as H57.
  assert (∀ x, sameButDom st5 x →
            newIndex x = Some (-1) ∧ oldIndex x = oldIndex st
            ∧ oldDraggableIndex x = oldDraggableIndex st ∧ dragEl x = Some d
            ∧ Sortable_active x = Some act ∧ putSortable x = putSortable st
            ∧ expando x = expando st) as Hfacts.
  { intros x Hx. unfold sameButDom in Hx.
    rewrite <- Hn5, <- Ho5, <- Hod5, <- Hd5, <- Ha5, <- Hp5, <- He5, <- Hx.
    done. }
  destruct (Hfacts st7 H57) as (_ & _ & _ & Hd7 & _ & Hp7 & He7).
  rewrite Hd7.
  assert (∃ st8, (if bool_decide (rootEl st7 = parentEl st7) then Returns () st7
                  else match putSortable st7 with
                       | Some put => save put st7
                       | None => Returns () st7
                       end) = Returns () st8 ∧ sameButDom st7 st8)
    as (st8 & -> & H8).
  { destruct (bool_decide _); [exists st7; split; [done|apply sameButDom_refl]|].
    destruct (putSortable st7) as [put|] eqn:Hput7;
      [|exists st7; split; [done|apply sameButDom_refl]].
    apply save_returns. unfold Sortable_get. rewrite He7. apply Hput. congruence. }
  simpl andThen.
  pose proof (sameButDom_trans _ _ _ H57 H8) as H58.
  destruct (Hfacts st8 H58) as (Hn8 & Ho8 & Hod8 & _ & Ha8 & _ & He8).
  rewrite Ha8, Hn8.
  destruct (save_returns s (set_newDraggableIndex (oldDraggableIndex st8)
                              (set_newIndex (oldIndex st8) st8))) as (st9 & Hsave & H9).
  { unfold Sortable_get in *. simpl. rewrite He8, Hs. done. }
  exists st9. split; [exact Hsave|].
  unfold sameButDom in H9.
  split.
  - apply (f_equal newIndex) in H9. simpl in H9. congruence.
  - apply (f_equal newDraggableIndex) in H9. simpl in H9. congruence.
Qed.

Lemma drop_reports_origin_index_witness :
  ∃ st',
    dropSettle (exHost exSwap (λ _, MvOther)) 1 true exDetached = Returns () st'
    ∧ newIndex st' = oldIndex exDetached
    ∧ newDraggableIndex st' = oldDraggableIndex exDetached
    ∧ _onDrop (exHost exSwap (λ _, MvOther)) 1 true exDetached = Returns () (_nulling st').
Proof.
  apply (drop_reports_origin_index (exHost exSwap (λ _, MvOther)) 1%nat exDetached 10%nat).
  - eexists. vm_compute. reflexivity.
  - reflexivity.
  - eexists. reflexivity.
  - reflexivity.
  - intros p Hp. vm_compute in Hp. discriminate.
  - vm_compute. reflexivity.
Defined.

Example drop_keeps_computed_index :
  ∃ st', dropSettle (exHost exSwap (λ _, MvOther)) 1 true exDragging = Returns () st'
         ∧ newIndex st' = Some 0 ∧ newDraggableIndex st' = Some 0.
Proof. eexists. vm_compute. done. Qed.

(** ** Construction *)

Lemma sort_throws h this order useAnimation st :
  sort_ h this order useAnimation st = Throws st.
Proof. reflexivity. Qed.

(** C9.  The refusal of a non-element is not the only way construction
    fails.  On an element, with options that carry a store whose [get] is
    present, the constructor registers the instance at the root, lists the
    root in [sortables], fetches the stored order and calls [this.sort]
    on the new instance; there [Sortable.get(this)] looks for the expando
    on the instance, where it was never written, and the call throws.  The
    constructor ends by that throw, with the instance registered and the
    root listed, and the document as it was. *)
Theorem constructor_with_store_throws h root o sto st :
  let opts := _prepareGroup h root (withDefaults h root o) in
  store opts = Some sto →
  hasGet sto = true →
  passesElementTest (JsElement root) = true
  ∧ ∃ this st',
      Sortable_new h (JsElement root) o st = Throws st'
      ∧ el this = root ∧ options this = opts
      ∧ Sortable_get st' root = Some this
      ∧ sortables st' = sortables st ++ [root]
      ∧ dom st' = dom st
      ∧ log st' = log st.
Proof.
  intros opts Hsto Hget. split; [reflexivity|].
  unfold Sortable_new. fold opts. cbv zeta. rewrite Hsto, Hget.
  rewrite sort_throws.
  exists (mkSortable root opts None None
            (if forceFallback opts then false else supportDraggable h)).
  eexists. split; [reflexivity|].
  split_and!; try reflexivity.
  unfold Sortable_get. simpl. by rewrite lookup_insert_eq.
Qed.

Lemma constructor_with_store_throws_witness :
  passesElementTest (JsElement 1) = true
  ∧ ∃ this st',
      Sortable_new exStoreHost (JsElement 1) exStoreOptions exBare = Throws st'
      ∧ el this = 1%nat
      ∧ options this = _prepareGroup exStoreHost 1 (withDefaults exStoreHost 1 exStoreOptions)
      ∧ Sortable_get st' 1 = Some this
      ∧ sortables st' = sortables exBare ++ [1%nat]
      ∧ dom st' = dom exBare
      ∧ log st' = log exBare.
Proof.
  apply (constructor_with_store_throws exStoreHost 1%nat exStoreOptions
           (mkStore true true) exBare); reflexivity.
Defined.

(** The same construction without a store returns. *)
Example constructor_without_store_returns :
  ∃ st', Sortable_new exStoreHost (JsElement 1) noOptions exBare = Returns () st'
         ∧ children (dom st') 1 = [10; 11; 12]%nat.
Proof. eexists. split; [reflexivity|]. vm_compute. reflexivity. Qed.

(** ** Children after a detachment or a reordering *)

Lemma wfDom_parentNode_children d n p :
  wfDom d → n ∈ children d p → parentNode d n = Some p.
Proof.
  intros Hwf Hin. unfold children in Hin.
  destruct (kids d !! p) as [cs|] eqn:Hp; simpl in Hin.
  - by eapply wfDom_parentNode.
  - by apply elem_of_nil in Hin.
Qed.

Lemma allItems_reorder s l cs (k0 : gmap nat (list nat)) :
  k0 !! s = Some cs → l ≡ₚ cs → allItems (<[s := l]> k0) ≡ₚ allItems k0.
Proof.
  intros Hs Hl. rewrite allItems_insert, (allItems_lookup s k0), Hs, Hl. done.
Qed.

Lemma children_reorder s l (k0 : gmap nat (list nat)) i p :
  children (mkDom (<[s := l]> k0) i) p
  = if decide (s = p) then l else children (mkDom k0 i) p.
Proof.
  unfold children. simpl. rewrite lookup_insert. by case_decide.
Qed.

Lemma children_detach c (k : gmap nat (list nat)) i p :
  children (mkDom (detach c k) i) p = filter (λ x, x ≠ c) (children (mkDom k i) p).
Proof.
  unfold children, detach. simpl. rewrite lookup_fmap.
  by destruct (k !! p).
Qed.

Lemma filter_ne_twice c (l : list nat) :
  filter (λ x, x ≠ c) (filter (λ x, x ≠ c) l) = filter (λ x, x ≠ c) l.
Proof.
  rewrite list_filter_filter. apply list_filter_iff. naive_solver.
Qed.

(** ** Applying an order *)


(** The list [a], [b], [c] of root [1] and its current order, with and
    without animation. *)
Example sort_current_order_scenario :
  sort_ (exHost exSwap (λ _, MvOther)) (exSortable 1) ["a"; "b"; "c"]%string true exIdle
  = Throws exIdle
  ∧ sort_ (exHost exSwap (λ _, MvOther)) (exSortable 1) ["a"; "b"; "c"]%string false exIdle
    = Throws exIdle
  ∧ toArray exPage (exSortable 1) exIdle = Throws exIdle.
Proof. by split_and!. Qed.

(** ** Worked sessions *)

Lemma sessionWf_exDragging : sessionWf exDragging.
Proof.
  split; [exact wfDom_exDom|]. split.
  - intros d [= <-]. unfold attached. apply (bool_decide_unpack _). vm_compute. exact I.
  - intros d [= <-]. discriminate.
Qed.

Lemma placement_conserves_items_witness :
  let h := exHost exSwap (λ _, MvOther) in
  let evs := [(1%nat, exOver 11 35); (2%nat, exOver 20 10); (1%nat, exOver 1 100)] in
  sessionWf exDragging
  ∧ sessionWf (dragOverAll h evs exDragging)
  ∧ dragEl (dragOverAll h evs exDragging) = dragEl exDragging
  ∧ itemsBut (cloneEl exDragging) (dom (dragOverAll h evs exDragging))
    ≡ₚ itemsBut (cloneEl exDragging) (dom exDragging).
Proof.
  split; [exact sessionWf_exDragging|].
  apply (placement_conserves_items (exHost exSwap (λ _, MvOther))
           [(1%nat, exOver 11 35); (2%nat, exOver 20 10); (1%nat, exOver 1 100)]
           exDragging sessionWf_exDragging).
Defined.

(** Dragging [10] over the lower half of [11], then past the end of the
    list: [10 11 12] becomes [11 10 12] and then [11 12 10]. *)
Example drag_down_the_list :
  let h := exHost exSwap (λ _, MvOther) in
  let st1 := stateOf (_onDragOver h 1 (exOver 11 35) exDragging) in
  let st2 := stateOf (_onDragOver h 1 (exOver 1 100)
                        (stateOf (fireTimer h ClearSilent st1))) in
  children (dom st1) 1 = [11; 10; 12]%nat
  ∧ children (dom st2) 1 = [11; 12; 10]%nat
  ∧ newIndex st2 = Some 2.
Proof. vm_compute. done. Qed.

(** Pulling a clone: the item moves to root [2] and its clone takes its
    place in root [1]. *)
Example clone_pull_adds_the_clone :
  let st1 := stateOf (_onDragOver exCloneHost 2 (exOver 20 10) exDragging) in
  children (dom st1) 2 = [10; 20]%nat
  ∧ children (dom st1) 1 = [15; 11; 12]%nat
  ∧ putModeOf st1 2 = Some PullClone.
Proof. vm_compute. done. Qed.

(** ** The child helpers *)

Lemma countedChild_test pg d ghost dragged el draggable inc c :
  negb (styleDisplayNone d c) && negb (bool_decide (Some c = ghost))
  && (inc || negb (bool_decide (Some c = dragged)))
  && bool_decide (is_Some (closest pg d (Some c) (Some draggable) el false)) = true
  ↔ countedChild pg d ghost dragged el draggable inc c.
Proof.
  unfold countedChild, styleDisplayNone.
  rewrite !andb_true_iff, orb_true_iff, !negb_true_iff, !bool_decide_eq_false,
    bool_decide_eq_true.
  tauto.
Qed.

Lemma getChildLoop_filter pg d ghost dragged el draggable inc childNum :
  ∀ rest cur, (cur ≤ childNum)%nat →
    getChildLoop pg d ghost dragged el draggable inc childNum cur rest
    = filter (countedChild pg d ghost dragged el draggable inc) rest !! (childNum - cur)%nat.
Proof.
  induction rest as [|c rest IH]; intros cur Hle; [done|].
  cbn [getChildLoop]. rewrite filter_cons.
  pose proof (countedChild_test pg d ghost dragged el draggable inc c) as Ht.
  match goal with |- (if ?b then _ else _) = _ => destruct b eqn:Hb end;
    destruct (decide (countedChild pg d ghost dragged el draggable inc c)) as [Hc|Hc].
  - destruct (decide (cur = childNum)) as [->|Hcur].
    + by rewrite Nat.sub_diag.
    + rewrite IH by lia.
      replace (childNum - cur)%nat with (S (childNum - S cur)) by lia. done.
  - exfalso. apply Hc. by apply Ht.
  - apply Ht in Hc. congruence.
  - by apply IH.
Qed.

(** [getChild] answers the child number [childNum], counting from zero,
    among the children of [el] that are not hidden by an inline style, are
    not the ghost, are not the dragged item (unless [includeDragEl]) and
    are draggable within [el]; it answers null when there are not that
    many. *)
Theorem getChild_is_nth_counted pg d ghost dragged el childNum draggable includeDragEl :
  getChild pg d ghost dragged el childNum draggable includeDragEl
  = filter (countedChild pg d ghost dragged el draggable includeDragEl) (children d el)
      !! childNum.
Proof.
  unfold getChild. rewrite getChildLoop_filter by lia. by rewrite Nat.sub_0_r.
Qed.

Lemma eligibleLast_test pg d ghost selector c :
  bool_decide (Some c = ghost) || cssDisplayNone pg d c
  || negb (String.eqb selector "") && negb (matches pg c selector) = false
  ↔ eligibleLast pg d ghost selector c.
Proof.
  unfold eligibleLast, cssDisplayNone.
  rewrite !orb_false_iff, andb_false_iff, !negb_false_iff, !bool_decide_eq_false,
    String.eqb_eq.
  tauto.
Qed.

Lemma lastChildLoop_filter pg d ghost selector backwards :
  lastChildLoop pg d ghost selector backwards
  = head (filter (eligibleLast pg d ghost selector) backwards).
Proof.
  induction backwards as [|c rest IH]; [done|].
  cbn [lastChildLoop]. rewrite filter_cons.
  pose proof (eligibleLast_test pg d ghost selector c) as Ht.
  match goal with |- (if ?b then _ else _) = _ => destruct b eqn:Hb end;
    destruct (decide (eligibleLast pg d ghost selector c)) as [Hc|Hc].
  - apply Ht in Hc. congruence.
  - done.
  - done.
  - exfalso. apply Hc. by apply Ht.
Qed.

(** [lastChild] answers the last child of [el] that is not the ghost, is
    not hidden (by an inline style or a style sheet) and matches the
    selector when a non-empty one is given; it answers null when no child
    qualifies. *)
Theorem lastChild_is_last_eligible pg d ghost el selector :
  lastChild pg d ghost el selector
  = last (filter (eligibleLast pg d ghost selector) (children d el)).
Proof.
  unfold lastChild. rewrite lastChildLoop_filter.
  rewrite filter_reverse. apply head_reverse.
Qed.

(** ** The ancestor walk *)

Lemma closestAccepts_test pg d selector ctx includeCTX x :
  (match selector with
   | Some sel =>
       if startsWithGt sel
       then bool_decide (parentNode d x = Some ctx) && matches pg x sel
       else matches pg x sel
   | None => false
   end) || (includeCTX && bool_decide (x = ctx)) = true
  ↔ closestAccepts pg d selector ctx includeCTX x.
Proof.
  unfold closestAccepts. rewrite orb_true_iff, andb_true_iff, bool_decide_eq_true.
  split.
  - intros [H|H]; [left|by right].
    destruct selector as [sel|]; [|done]. exists sel.
    destruct (startsWithGt sel).
    + apply andb_true_iff in H as [H1%bool_decide_eq_true H2]. done.
    + done.
  - intros [(sel & -> & Hm & Hp)|H]; [left|by right].
    destruct (startsWithGt sel); [|done].
    rewrite Hm, andb_true_r. apply bool_decide_eq_true. by apply Hp.
Qed.

Lemma closestLoop_answer pg d selector ctx includeCTX r :
  ∀ fuel el,
    closestLoop fuel pg d el selector ctx includeCTX = Some r →
    ∃ n, ancestorAt d n el = Some r
         ∧ closestAccepts pg d selector ctx includeCTX r
         ∧ ∀ m x, (m < n)%nat → ancestorAt d m el = Some x →
             x ≠ ctx ∧ ¬ closestAccepts pg d selector ctx includeCTX x.
Proof.
  induction fuel as [|fuel IH]; intros el;
    pose proof (closestAccepts_test pg d selector ctx includeCTX el) as Ht;
    cbn [closestLoop];
    match goal with |- (if ?b then _ else _) = _ → _ => destruct b eqn:Hb end.
  - intros [= <-]. exists 0%nat. split_and!; [done|by apply Ht|]. intros m x Hm. lia.
  - destruct (decide (el = ctx)); done.
  - intros [= <-]. exists 0%nat. split_and!; [done|by apply Ht|]. intros m x Hm. lia.
  - destruct (decide (el = ctx)) as [|Hne]; [done|].
    destruct (parentNode d el) as [p|] eqn:Hp; [|done].
    intros (n & Hn & Hr & Hmin)%IH.
    exists (S n). split_and!; [by simpl; rewrite Hp|done|].
    intros [|m] x Hm Hx.
    + simpl in Hx. simplify_eq. split; [done|]. intros Ha%Ht. congruence.
    + simpl in Hx. rewrite Hp in Hx. simpl in Hx. apply (Hmin m); [lia|done].
Qed.

(** What [closest] answers is the element itself or one of its ancestors;
    it is accepted (the selector matches it, and it is a child of the
    context when the selector starts with [>]; or it is the context and the
    context is included); no element below it on the way up is accepted,
    and none of them is the context: the walk never passes the context. *)
Theorem closest_answer pg d el selector ctx includeCTX r :
  closest pg d (Some el) selector ctx includeCTX = Some r →
  ∃ n, ancestorAt d n el = Some r
       ∧ closestAccepts pg d selector ctx includeCTX r
       ∧ ∀ m x, (m < n)%nat → ancestorAt d m el = Some x →
           x ≠ ctx ∧ ¬ closestAccepts pg d selector ctx includeCTX x.
Proof. apply closestLoop_answer. Qed.

Lemma closest_answer_witness :
  closest exPage exDom (Some 11%nat) (Some "li"%string) 1%nat false = Some 11%nat
  ∧ ∃ n, ancestorAt exDom n 11%nat = Some 11%nat
       ∧ closestAccepts exPage exDom (Some "li"%string) 1%nat false 11%nat
       ∧ ∀ m x, (m < n)%nat → ancestorAt exDom m 11%nat = Some x →
           x ≠ 1%nat ∧ ¬ closestAccepts exPage exDom (Some "li"%string) 1%nat false x.
Proof.
  split; [vm_compute; reflexivity|].
  apply (closest_answer exPage exDom 11%nat (Some "li"%string) 1%nat false 11%nat).
  vm_compute. reflexivity.
Defined.

(** [Sortable.utils.is] looks at the element alone, never at an ancestor,
    and a selector that starts with [>] is never satisfied: the element
    would have to be its own child. *)
Theorem utils_is_tests_the_element_only pg d el selector :
  parentNode d el ≠ Some el →
  utils_is pg d el selector = negb (startsWithGt selector) && matches pg el selector.
Proof.
  intros Hself. unfold utils_is, closest.
  assert (∀ fuel, closestLoop fuel pg d el (Some selector) el false
                  = if negb (startsWithGt selector) && matches pg el selector
                    then Some el else None) as ->.
  { intros fuel. destruct fuel; cbn [closestLoop];
      rewrite (bool_decide_eq_false_2 (parentNode d el = Some el)) by done;
      destruct (startsWithGt selector), (matches pg el selector); simpl;
      by rewrite ?decide_True. }
  destruct (negb (startsWithGt selector) && matches pg el selector).
  - by apply bool_decide_eq_true_2.
  - apply bool_decide_eq_false_2. by intros [? ?].
Qed.

Lemma utils_is_tests_the_element_only_witness :
  parentNode exDom 11%nat ≠ Some 11%nat
  ∧ utils_is exPage exDom 11%nat ">li"
    = negb (startsWithGt ">li") && matches exPage 11%nat ">li".
Proof.
  assert (parentNode exDom 11%nat ≠ Some 11%nat) as H by (vm_compute; discriminate).
  split; [exact H|].
  apply (utils_is_tests_the_element_only exPage exDom 11%nat ">li"%string H).
Defined.

(** ** From an index back to the child *)

(** A child of [p] is draggable under a selector that starts with [>]
    exactly when the selector matches it. *)
Lemma draggable_child_matches pg d p c sel :
  wfDom d → c ∈ children d p → parentNode d p ≠ Some p →
  startsWithGt sel = true →
  is_Some (closest pg d (Some c) (Some sel) p false) ↔ matches pg c sel = true.
Proof.
  intros Hwf Hc Hself Hgt.
  pose proof (wfDom_parentNode_children d c p Hwf Hc) as Hpar.
  assert (c ≠ p) as Hne by (intros ->; done).
  assert (allItems (kids d) ≠ []) as Hfuel.
  { intros Hnil. destruct (parentNode_Some d c p Hpar) as (cs & Hk & Hin).
    assert (c ∈ allItems (kids d)) as Hin'.
    { rewrite (allItems_lookup p (kids d)), Hk. simpl.
      apply elem_of_app. by left. }
    rewrite Hnil in Hin'. by apply elem_of_nil in Hin'. }
  unfold closest. destruct (allItems (kids d)) as [|x l]; [done|]. simpl length.
  cbn [closestLoop]. rewrite Hgt, Hpar, bool_decide_eq_true_2 by done.
  simpl. rewrite orb_false_r.
  destruct (matches pg c sel) eqn:Hm.
  - split; [done|]. intros _. by eexists.
  - rewrite decide_False by done.
    assert (∀ f, closestLoop f pg d p (Some sel) p false = None) as ->.
    { intros f. destruct f; cbn [closestLoop];
        rewrite Hgt, (bool_decide_eq_false_2 (parentNode d p = Some p)) by done;
        simpl; by rewrite decide_True. }
    split; [by intros [? ?]|done].
Qed.

Lemma filter_ext_in {A} (P1 P2 : A → Prop)
    `{!∀ x, Decision (P1 x)} `{!∀ x, Decision (P2 x)} (l : list A) :
  (∀ x, x ∈ l → P1 x ↔ P2 x) → filter P1 l = filter P2 l.
Proof.
  induction l as [|a l IH]; intros Hext; [done|].
  rewrite !filter_cons.
  rewrite IH by (intros x Hx; apply Hext; by right).
  destruct (decide (P1 a)) as [Hp|Hp], (decide (P2 a)) as [Hq|Hq]; try done.
  - exfalso. apply Hq, (Hext a); [left|done].
  - exfalso. apply Hp, (Hext a); [left|done].
Qed.

(** The index and the child lookup agree.  In a container whose children
    are neither hidden by an inline style, nor the ghost, nor the clone,
    nor TEMPLATE nodes, and under a draggable selector that starts with
    [>], the child found at the draggable index of an item is that item. *)
Theorem getChild_at_index_is_the_item pg d ghost dragged clone p el draggable :
  wfDom d →
  parentNode d el = Some p →
  parentNode d p ≠ Some p →
  startsWithGt draggable = true →
  matches pg el draggable = true →
  (∀ c, c ∈ children d p →
        (c ∉ inlineNone d) ∧ Some c ≠ ghost ∧ Some c ≠ clone
        ∧ toUpperCase (nodeName pg c) ≠ "TEMPLATE"%string) →
  getChild pg d ghost dragged p
    (Z.to_nat (index pg d clone (Some el) (Some draggable))) draggable true
  = Some el.
Proof.
  intros Hwf Hpar Hself Hgt Hm Hplain.
  destruct (parentNode_Some d el p Hpar) as (cs & Hp & Hin).
  apply list_elem_of_split_l in Hin as (l1 & l2 & -> & Hfresh).
  assert (children d p = l1 ++ el :: l2) as Hcs by (unfold children; by rewrite Hp).
  unfold index. rewrite Hpar, Hcs.
  rewrite (indexLoop_prefix pg d clone (Some draggable) p l1 Hwf el l2 _ 0 Hp)
    by (rewrite length_app; lia).
  rewrite Z.add_0_l, Nat2Z.id.
  unfold getChild. rewrite getChildLoop_filter by lia. rewrite Nat.sub_0_r, Hcs.
  assert (∀ c, c ∈ l1 ++ el :: l2 →
            countedChild pg d ghost dragged p draggable true c
            ↔ matches pg c draggable = true) as Hcount.
  { intros c Hc. rewrite <- Hcs in Hc. destruct (Hplain c Hc) as (H1 & H2 & _).
    unfold countedChild. rewrite (draggable_child_matches pg d p c draggable) by done.
    naive_solver. }
  assert (∀ c, c ∈ l1 ++ el :: l2 →
            counted pg clone (Some draggable) c ↔ matches pg c draggable = true) as Hidx.
  { intros c Hc. rewrite <- Hcs in Hc. destruct (Hplain c Hc) as (_ & _ & H3 & H4).
    unfold counted. split; [|naive_solver].
    intros (_ & _ & [->|H]); [done|done]. }
  rewrite filter_app, filter_cons, decide_True; last first.
  { apply Hcount; [|done]. apply elem_of_app. right. left. }
  rewrite (filter_ext_in (counted pg clone (Some draggable))
             (countedChild pg d ghost dragged p draggable true) l1); last first.
  { intros c Hc. rewrite Hidx, Hcount; [done| |]; apply elem_of_app; by left. }
  by rewrite list_lookup_middle.
Qed.

Lemma getChild_at_index_is_the_item_witness :
  getChild exPage exDom None None 1%nat
    (Z.to_nat (index exPage exDom None (Some 12%nat) (Some ">li"%string))) ">li" true
  = Some 12%nat.
Proof.
  apply (getChild_at_index_is_the_item exPage exDom None None None 1%nat 12%nat ">li"%string).
  - exact wfDom_exDom.
  - vm_compute. reflexivity.
  - vm_compute. discriminate.
  - reflexivity.
  - vm_compute. reflexivity.
  - intros c Hc. vm_compute in Hc.
    apply elem_of_cons in Hc as [->|Hc]; [vm_compute; split_and!; try discriminate; set_solver|].
    apply elem_of_cons in Hc as [->|Hc]; [vm_compute; split_and!; try discriminate; set_solver|].
    apply elem_of_cons in Hc as [->|Hc]; [vm_compute; split_and!; try discriminate; set_solver|].
    by apply elem_of_nil in Hc.
Defined.

(** ** Searching an array of objects, copying properties *)

Section ObjectFacts.
Context {V E : Type} (strictEq : V → V → bool) (get : E → string → V).

Lemma sharesPair_spec (obj : list (string * V)) (e : E) :
  sharesPair strictEq get obj e = true
  ↔ ∃ key v, (key, v) ∈ obj ∧ strictEq v (get e key) = true.
Proof.
  induction obj as [|[key v] obj IH]; simpl.
  - split; [done|]. intros (? & ? & H%elem_of_nil & _). done.
  - destruct (strictEq v (get e key)) eqn:Heq.
    + split; [|done]. intros _. exists key, v. split; [left|done].
    + rewrite IH. split.
      * intros (k & w & Hin & Hw). exists k, w. split; [by right|done].
      * intros (k & w & Hin & Hw). apply elem_of_cons in Hin as [[= -> ->]|Hin].
        -- congruence.
        -- by exists k, w.
Qed.

Lemma indexOfObjectLoop_find (obj : list (string * V)) :
  ∀ (arr : list (option E)) (i : Z),
    indexOfObjectLoop strictEq get arr i obj
    = match list_find (holdsMatch strictEq get obj) arr with
      | Some (n, _) => i + Z.of_nat n
      | None => -1
      end.
Proof.
  induction arr as [|[e|] arr IH]; intros i; [done|..]; cbn [indexOfObjectLoop list_find].
  - destruct (sharesPair strictEq get obj e) eqn:Hs.
    + rewrite decide_True by done. lia.
    + rewrite decide_False by (simpl; congruence).
      rewrite IH. destruct (list_find _ arr) as [[n x]|]; simpl; lia.
  - rewrite decide_False by (simpl; tauto).
    rewrite IH. destruct (list_find _ arr) as [[n x]|]; simpl; lia.
Qed.

(** [indexOfObject] answers the first index whose element shares an own
    key-value pair of [obj] (compared with [===]), and [-1] when no
    element does; holes are passed over, and an [obj] without own
    properties is never found. *)
Theorem indexOfObject_first_match (arr : list (option E)) (obj : list (string * V)) :
  let shares e := ∃ key v, (key, v) ∈ obj ∧ strictEq v (get e key) = true in
  (indexOfObject strictEq get arr obj = -1
   ↔ ∀ n e, arr !! n = Some (Some e) → ¬ shares e)
  ∧ (∀ n, indexOfObject strictEq get arr obj = Z.of_nat n ↔
       ∃ e, arr !! n = Some (Some e) ∧ shares e
            ∧ ∀ m e', (m < n)%nat → arr !! m = Some (Some e') → ¬ shares e')
  ∧ (obj = [] → indexOfObject strictEq get arr obj = -1).
Proof.
  intros shares.
  assert (∀ e, shares e ↔ sharesPair strictEq get obj e = true) as Hsh.
  { intros e. symmetry. apply sharesPair_spec. }
  unfold indexOfObject. rewrite indexOfObjectLoop_find.
  assert ((match list_find (holdsMatch strictEq get obj) arr with
           | Some (n, _) => 0 + Z.of_nat n
           | None => -1
           end = -1)
          ↔ ∀ n e, arr !! n = Some (Some e) → ¬ shares e) as Hminus.
  { destruct (list_find (holdsMatch strictEq get obj) arr) as [[n x]|] eqn:Hf.
    - apply list_find_Some in Hf as (Hl & Hx & _).
      split; [lia|]. intros Hall. exfalso.
      destruct x as [e|]; [|done]. apply (Hall n e Hl). by apply Hsh.
    - split; [|done]. intros _ n e Hl He%Hsh.
      apply list_find_None in Hf. rewrite Forall_forall in Hf.
      apply (Hf (Some e)); [by eapply list_elem_of_lookup_2|done]. }
  split_and!.
  - exact Hminus.
  - intros n. destruct (list_find (holdsMatch strictEq get obj) arr) as [[k x]|] eqn:Hf.
    + apply list_find_Some in Hf as (Hl & Hx & Hmin).
      destruct x as [e|]; [|done]. simpl in Hx.
      split.
      * intros Hk. assert (k = n) as -> by lia.
        exists e. split_and!; [done|by apply Hsh|].
        intros m e' Hm Hl' He'%Hsh. by apply (Hmin m (Some e')).
      * intros (e1 & Hl1 & Hs1%Hsh & Hmin1).
        destruct (Nat.lt_trichotomy k n) as [Hlt|[Heq|Hgt]].
        -- exfalso. apply (Hmin1 k e Hlt Hl). by apply Hsh.
        -- lia.
        -- exfalso. by apply (Hmin n (Some e1)).
    + split; [lia|]. intros (e & Hl & Hs & _). exfalso.
      destruct Hminus as [Hm _]. by apply (Hm eq_refl n e).
  - intros ->. apply Hminus. intros n e _ (k & v & Hin%elem_of_nil & _). done.
Qed.
End ObjectFacts.

Lemma extend_lookup {V} (d s : gmap string V) key :
  map_fold (λ k v acc, <[k := v]> acc) d s !! key
  = match s !! key with Some v => Some v | None => d !! key end.
Proof.
  induction s as [|k v s Hk Hfold IH] using map_first_key_ind.
  - by rewrite map_fold_empty, lookup_empty.
  - rewrite map_fold_insert_first_key by done.
    destruct (decide (k = key)) as [->|Hne].
    + by rewrite !lookup_insert_eq.
    + by rewrite !lookup_insert_ne.
Qed.

(** [extend] gives every own property of [src] to [dst], replacing what
    [dst] had under the same key and keeping the rest of [dst]; with a null
    [dst] or [src] it answers [dst] as it was.  Extending twice with the
    same source changes nothing more. *)
Theorem extend_overrides_and_keeps {V} (dst src : option (gmap string V)) :
  extend dst src
  = match dst, src with
    | Some d, Some s => Some (s ∪ d)
    | _, _ => dst
    end
  ∧ extend (extend dst src) src = extend dst src.
Proof.
  assert (∀ d s : gmap string V,
            map_fold (λ k v acc, <[k := v]> acc) d s = s ∪ d) as Hfold.
  { intros d s. apply map_eq. intros key.
    rewrite extend_lookup, lookup_union.
    destruct (s !! key), (d !! key); done. }
  destruct dst as [d|], src as [s|]; simpl; try done.
  rewrite !Hfold. split; [done|].
  f_equal. by rewrite (assoc_L (∪)), (idemp_L (∪)).
Qed.

(** ** Comparing rectangles *)

Lemma Math_round_bounds (x : Q) :
  (inject_Z (Math_round x) - (1 # 2) <= x)%Q ∧ (x < inject_Z (Math_round x) + (1 # 2))%Q.
Proof.
  unfold Math_round.
  pose proof (Qfloor_le (x + (1 # 2))) as H1.
  pose proof (Qlt_floor (x + (1 # 2))) as H2.
  rewrite inject_Z_plus in H2. change (inject_Z 1) with 1%Q in H2.
  split; lra.
Qed.

Lemma roundedEqual_withinOne a b : roundedEqual a b = true → withinOne a b.
Proof.
  destruct a as [| | |x], b as [| | |y]; simpl; try done;
    [by intros _; right; right|by intros _; right; left|].
  intros Heq%Z.eqb_eq. left. exists x, y. split_and!; [done..|].
  destruct (Math_round_bounds x) as [Hx1 Hx2].
  destruct (Math_round_bounds y) as [Hy1 Hy2].
  rewrite Heq in *.
  apply Qabs_case; intros _; lra.
Qed.

(** Rectangles that [isRectEqual] takes for equal have no [NaN] among top,
    left, height and width, and each of these is either finite and less
    than one pixel from its counterpart or the same infinity as its
    counterpart. *)
Theorem isRectEqual_within_a_pixel rect1 rect2 :
  isRectEqual rect1 rect2 = true →
  withinOne (prTop rect1) (prTop rect2)
  ∧ withinOne (prLeft rect1) (prLeft rect2)
  ∧ withinOne (prHeight rect1) (prHeight rect2)
  ∧ withinOne (prWidth rect1) (prWidth rect2).
Proof.
  unfold isRectEqual. rewrite !andb_true_iff.
  intros (((H1 & H2) & H3) & H4).
  split_and!; by apply roundedEqual_withinOne.
Qed.

Lemma isRectEqual_within_a_pixel_witness :
  let r1 := mkPartialRect (Finite (5 # 2)) (Finite 0) NaN NaN PosInfinity (Finite 20) in
  let r2 := mkPartialRect (Finite (34 # 10)) (Finite 0) (Finite 7) NaN PosInfinity (Finite 20) in
  withinOne (prTop r1) (prTop r2)
  ∧ withinOne (prLeft r1) (prLeft r2)
  ∧ withinOne (prHeight r1) (prHeight r2)
  ∧ withinOne (prWidth r1) (prWidth r2).
Proof.
  apply (isRectEqual_within_a_pixel
           (mkPartialRect (Finite (5 # 2)) (Finite 0) NaN NaN PosInfinity (Finite 20))
           (mkPartialRect (Finite (34 # 10)) (Finite 0) (Finite 7) NaN PosInfinity (Finite 20))).
  vm_compute. reflexivity.
Defined.

Lemma roundedEqual_sym a b : roundedEqual a b = roundedEqual b a.
Proof. destruct a, b; simpl; try done. apply Z.eqb_sym. Qed.

Lemma roundedEqual_trans a b c :
  roundedEqual a b = true → roundedEqual b c = true → roundedEqual a c = true.
Proof.
  destruct a, b, c; simpl; try done.
  rewrite !Z.eqb_eq. congruence.
Qed.

Lemma roundedEqual_refl a : roundedEqual a a = true ↔ a ≠ NaN.
Proof.
  destruct a; simpl; rewrite ?Z.eqb_refl; split; done.
Qed.

(** [isRectEqual] is symmetric and transitive; a rectangle equals itself
    exactly when its top, left, height and width are all numbers; and the
    bottom and right edges play no part. *)
Theorem isRectEqual_partial_equivalence :
  (∀ r1 r2, isRectEqual r1 r2 = isRectEqual r2 r1)
  ∧ (∀ r1 r2 r3, isRectEqual r1 r2 = true → isRectEqual r2 r3 = true →
       isRectEqual r1 r3 = true)
  ∧ (∀ r, isRectEqual r r = true ↔ numericRect r)
  ∧ (∀ r1 r2 b r,
       isRectEqual
         (mkPartialRect (prTop r1) (prLeft r1) b r (prWidth r1) (prHeight r1)) r2
       = isRectEqual r1 r2).
Proof.
  split_and!.
  - intros r1 r2. unfold isRectEqual.
    by rewrite (roundedEqual_sym (prTop r1)), (roundedEqual_sym (prLeft r1)),
      (roundedEqual_sym (prHeight r1)), (roundedEqual_sym (prWidth r1)).
  - intros r1 r2 r3. unfold isRectEqual. rewrite !andb_true_iff.
    intros (((H1 & H2) & H3) & H4) (((G1 & G2) & G3) & G4).
    split_and!; by eapply roundedEqual_trans.
  - intros r. unfold isRectEqual, numericRect.
    rewrite !andb_true_iff, !roundedEqual_refl. tauto.
  - done.
Qed.

(** ** Throttling *)

Lemma throttleStep_wf st e : throttleWf st → throttleWf (throttleStep st e).
Proof.
  unfold throttleWf. destruct st as [[id|] pending next inv]; simpl.
  - intros [ms ->]. destruct e as [cb ms' arg|id'|]; simpl.
    + by exists ms.
    + unfold throttleElapsed. simpl.
      destruct (bool_decide (id' ∈ [id])) eqn:Hb; simpl; [|by exists ms].
      apply bool_decide_eq_true in Hb. apply list_elem_of_singleton in Hb as ->.
      by rewrite filter_cons_False by (simpl; tauto).
    + by rewrite filter_cons_False by (simpl; tauto).
  - intros ->. destruct e as [cb ms' arg|id'|]; simpl.
    + by exists ms'.
    + unfold throttleElapsed. simpl.
      destruct (bool_decide (id' ∈ [])) eqn:Hb; simpl; [|done].
      apply bool_decide_eq_true in Hb. by apply elem_of_nil in Hb.
    + done.
Qed.

Lemma throttleRun_wf es st : throttleWf st → throttleWf (throttleRun es st).
Proof.
  revert st. induction es as [|e es IH]; intros st Hwf; [done|].
  simpl. apply IH. by apply throttleStep_wf.
Qed.

Lemma throttleRun_bound es :
  ∀ st, (length (invoked (throttleRun es st)) ≤ length (invoked st) + throttleOpenings st es)%nat.
Proof.
  unfold throttleOpenings.
  induction es as [|e es IH]; intros st; [simpl; lia|].
  change (throttleRun (e :: es) st) with (throttleRun es (throttleStep st e)).
  etransitivity; [apply IH|].
  rewrite filter_cons.
  set (n := length (filter (λ e, isThCall e = false) es)).
  destruct e as [cb ms arg|id|].
  - rewrite decide_False by done. fold n.
    unfold throttleStep, throttle.
    destruct (_throttleTimeout st) eqn:Ht; cbn [invoked _throttleTimeout length];
      rewrite ?Ht; lia.
  - rewrite decide_True by done. cbn [length]. fold n.
    unfold throttleStep, throttleElapsed.
    destruct (bool_decide _); destruct (_throttleTimeout st) eqn:Ht;
      cbn [invoked _throttleTimeout length]; rewrite ?Ht; lia.
  - rewrite decide_True by done. cbn [length]. fold n.
    unfold throttleStep, cancelThrottle.
    destruct (_throttleTimeout st) eqn:Ht; cbn [invoked _throttleTimeout length];
      rewrite ?Ht; lia.
Qed.

(** Whatever is called, elapses or is cancelled, from the moment the module
    is loaded: at most one timeout is pending, and it is the one recorded
    in [_throttleTimeout]; and the callbacks invoked number at most one
    more than the timeouts elapsed and cancellations made.  The throttle
    is one for the whole module: it does not tell the throttled functions
    apart. *)
Theorem throttle_one_call_per_opening es :
  let st := throttleRun es throttleInit in
  match _throttleTimeout st with
  | Some id => ∃ ms, pendingTimeouts st = [(id, ms)]
  | None => pendingTimeouts st = []
  end
  ∧ (length (invoked st) ≤ 1 + length (filter (λ e, isThCall e = false) es))%nat.
Proof.
  intros st. split.
  - apply (throttleRun_wf es throttleInit). done.
  - pose proof (throttleRun_bound es throttleInit) as H.
    unfold throttleOpenings in H. simpl in H. exact H.
Qed.

Lemma throttle_closed_run calls st :
  Forall (λ e, isThCall e = true) calls →
  is_Some (_throttleTimeout st) →
  throttleRun calls st = st.
Proof.
  intros Hall [id Hid]. induction Hall as [|e calls He _ IH]; [done|].
  simpl. destruct e as [cb ms arg| |]; try done.
  simpl. unfold throttle. rewrite Hid. exact IH.
Qed.

(** Of a burst of calls, to whichever throttled functions and with no
    timeout elapsing in between, only the first runs its callback; the
    others are dropped, not postponed. *)
Theorem throttle_burst_runs_first_only callback ms arg calls :
  Forall (λ e, isThCall e = true) calls →
  invoked (throttleRun (ThCall callback ms arg :: calls) throttleInit) = [(callback, arg)].
Proof.
  intros Hall. simpl.
  rewrite throttle_closed_run; [done|done|]. by eexists.
Qed.

Lemma throttle_burst_runs_first_only_witness :
  invoked (throttleRun [ThCall 1 50 7; ThCall 2 10 8; ThCall 1 50 9]%nat throttleInit)
  = [(1, 7)]%nat.
Proof.
  apply (throttle_burst_runs_first_only 1 50 7 [ThCall 2 10 8; ThCall 1 50 9]%nat).
  repeat constructor.
Defined.

(** After [cancelThrottle] the next call runs its callback, and the
    timeout that was pending never elapses. *)
Theorem cancelThrottle_reopens es callback ms arg :
  let st := cancelThrottle (throttleRun es throttleInit) in
  pendingTimeouts st = []
  ∧ invoked (throttle callback ms arg st) = (callback, arg) :: invoked st.
Proof.
  intros st.
  pose proof (throttleRun_wf es throttleInit eq_refl) as Hwf.
  pose proof (throttleStep_wf _ ThCancel Hwf) as Hwf'.
  unfold throttleWf in Hwf'. simpl in Hwf'.
  split; [exact Hwf'|done].
Qed.

(** ** The end of a session *)

Lemma idle_nulling st : idle (_nulling st).
Proof. unfold idle. simpl. split_and!; reflexivity. Qed.

Lemma detach_unattached n (k : gmap nat (list nat)) :
  (∀ p cs, k !! p = Some cs → n ∉ cs) → detach n k = k.
Proof.
  intros Hn. apply map_eq. intros p. unfold detach. rewrite lookup_fmap.
  destruct (k !! p) as [cs|] eqn:Hp; [|done]. simpl. f_equal.
  apply filter_ne_fresh. by eapply Hn.
Qed.

Lemma detachNode_unattached n d :
  parentNode d n = None → detachNode (Some n) d = d.
Proof.
  intros Hp. unfold detachNode. rewrite detach_unattached; [by destruct d|].
  intros p cs Hk. by eapply parentNode_None.
Qed.

(** Removing a node from wherever it is attached. *)
Lemma removeIfAttached_dom (n : option nat) st :
  ∃ st',
    match n with
    | Some g => match parentNode (dom st) g with
                | Some p => domRemoveChild p g st
                | None => Returns () st
                end
    | None => Returns () st
    end = Returns () st'
    ∧ sameButDom st st'
    ∧ dom st' = detachNode n (dom st)
    ∧ (∃ new, log st' = new ++ log st
              ∧ Forall (λ e, ∃ p c, e = ERemoveChild p c ∧ n = Some c) new).
Proof.
  destruct n as [g|]; [|exists st; split_and!; [done|apply sameButDom_refl|done|by exists []]].
  destruct (parentNode (dom st) g) as [p|] eqn:Hp.
  - unfold domRemoveChild, removeChild.
    rewrite decide_True by by apply parentNode_children.
    eexists. split_and!; [done|by destruct st|done|].
    exists [ERemoveChild p g]. split; [done|]. repeat constructor. by eexists _, _.
  - exists st. split_and!; [done|apply sameButDom_refl| |by exists []].
    by rewrite detachNode_unattached.
Qed.

Lemma save_log a st :
  is_Some (Sortable_get st a) →
  ∃ st', save a st = Returns () st' ∧ sameButDom st st' ∧ dom st' = dom st
         ∧ (log st' = log st ∨ log st' = EStoreSet a :: log st).
Proof.
  intros [this Hs]. unfold save. rewrite Hs.
  repeat goal_match; eexists; (split_and!; [done|by destruct st|done|]); eauto.
Qed.

(** What [dropSettle] leaves: it returns; the registry and the lasting
    flags are as they were; the document is the one [dropDom] describes;
    the calls recorded are removals of the ghost and the clone and
    savings of the order, and without an event there are none. *)
Lemma dropSettle_result h s hasEvt st :
  is_Some (Sortable_get st s) →
  (∀ p, putSortable st = Some p → is_Some (Sortable_get st p)) →
  ∃ st',
    dropSettle h s hasEvt st = Returns () st'
    ∧ sameRegistry st st'
    ∧ dom st' = dropDom hasEvt st
    ∧ (∃ new, log st' = new ++ log st ∧ Forall (dropCall st) new
              ∧ (hasEvt = false → new = [])).
Proof.
  intros [this Hs] Hput. unfold dropSettle, dropDom. rewrite Hs. cbv zeta.
  set (st3 := set_newDraggableIndex _ (set_newIndex _ (set_parentEl _ _))).
  assert (Sortable_eventCanceled st3 = Sortable_eventCanceled st) as -> by done.
  destruct (Sortable_eventCanceled st) eqn:Hcancel.
  { rewrite andb_false_r. exists st3. split_and!; try done. by exists []. }
  rewrite andb_true_r.
  set (st5 := set_timers _ _).
  destruct hasEvt; [|exists st5; split_and!; try done; by exists []]. simpl negb. cbv iota.
  assert (expando st5 = expando st ∧ sortables st5 = sortables st
          ∧ _silent st5 = _silent st
          ∧ Sortable_eventCanceled st5 = Sortable_eventCanceled st
          ∧ ignoreNextClick st5 = ignoreNextClick st
          ∧ dom st5 = dom st ∧ ghostEl st5 = ghostEl st ∧ cloneEl st5 = cloneEl st
          ∧ rootEl st5 = rootEl st
          ∧ parentEl st5 = dragEl st ≫= parentNode (dom st)
          ∧ putSortable st5 = putSortable st
          ∧ dragEl st5 = dragEl st ∧ Sortable_active st5 = Sortable_active st
          ∧ log st5 = log st)
    as (He5 & Hs5 & Hsi5 & Hc5 & Hi5 & Hd5 & Hg5 & Hcl5 & Hr5 & Hp5 & Hpu5 & Hdr5 & Hac5 & Hl5)
    by done.
  clearbody st5. clear st3.
  assert (∀ x, sameButDom st5 x →
            expando x = expando st ∧ sortables x = sortables st
            ∧ _silent x = _silent st
            ∧ Sortable_eventCanceled x = Sortable_eventCanceled st
            ∧ ignoreNextClick x = ignoreNextClick st
            ∧ ghostEl x = ghostEl st ∧ cloneEl x = cloneEl st
            ∧ rootEl x = rootEl st
            ∧ parentEl x = dragEl st ≫= parentNode (dom st)
            ∧ putSortable x = putSortable st
            ∧ dragEl x = dragEl st ∧ Sortable_active x = Sortable_active st) as Hfacts.
  { intros x Hx. unfold sameButDom in Hx.
    rewrite <- He5, <- Hs5, <- Hsi5, <- Hc5, <- Hi5, <- Hg5, <- Hcl5, <- Hr5, <- Hp5, <- Hpu5,
      <- Hdr5, <- Hac5, <- Hx.
    done. }
  destruct (removeIfAttached_dom (ghostEl st5) st5) as (st6 & -> & H6 & Hd6 & new6 & Hl6 & Hn6).
  simpl andThen.
  destruct (Hfacts st6 H6) as (He6 & _ & _ & _ & _ & _ & Hcl6 & Hr6 & Hp6 & Hpu6 & _).
  assert (bool_decide (rootEl st6 = parentEl st6)
          || match putSortable st6 ≫= Sortable_get st6 with
             | Some put => negb (bool_decide (lastPutMode put = Some PullClone))
             | None => false
             end = cloneLeaves st) as ->.
  { unfold cloneLeaves, Sortable_get. by rewrite Hr6, Hp6, Hpu6, He6. }
  assert (∃ st7, (if cloneLeaves st
                  then match cloneEl st6 with
                       | Some c => match parentNode (dom st6) c with
                                   | Some p => domRemoveChild p c st6
                                   | None => Returns () st6
                                   end
                       | None => Returns () st6
                       end
                  else Returns () st6) = Returns () st7
                 ∧ sameButDom st6 st7
                 ∧ dom st7 = (if cloneLeaves st then detachNode (cloneEl st) else id)
                               (detachNode (ghostEl st) (dom st))
                 ∧ ∃ new, log st7 = new ++ log st ∧ Forall (dropCall st) new)
    as (st7 & -> & H7 & Hd7 & new7 & Hl7 & Hn7).
  { assert (Forall (dropCall st) new6) as Hn6'.
    { eapply Forall_impl; [exact Hn6|]. intros e (p & c & -> & Hc). left.
      exists p, c. split; [done|left]. congruence. }
    destruct (cloneLeaves st).
    - destruct (removeIfAttached_dom (cloneEl st6) st6)
        as (st7 & Hrun & H7 & Hd7 & new & Hl & Hn).
      exists st7. split_and!; [done|done|by rewrite Hd7, Hd6, Hcl6, Hg5, Hd5|].
      exists (new ++ new6). split; [by rewrite Hl, Hl6, Hl5, app_assoc|].
      apply Forall_app. split; [|done].
      eapply Forall_impl; [exact Hn|]. intros e (p & c & -> & Hc). left.
      exists p, c. split; [done|right]. congruence.
    - exists st6. split_and!; [done|apply sameButDom_refl|by rewrite Hd6, Hg5, Hd5|].
      exists new6. split; [by rewrite Hl6, Hl5|done]. }
  simpl andThen.
  pose proof (sameButDom_trans _ _ _ H6 H7) as H57.
  destruct (Hfacts st7 H57) as (He7 & _ & _ & _ & _ & _ & _ & _ & _ & Hpu7 & Hdr7 & _).
  destruct (dragEl st7) as [d|] eqn:Hd; [|exists st7; split_and!;
    [done|unfold sameRegistry; destruct (Hfacts st7 H57); tauto|done|
     exists new7; split_and!; done]].
  assert (is_Some (dragEl st)) as Hdrag by (rewrite <- Hdr7; by eexists).
  assert (∃ st8, (if bool_decide (rootEl st7 = parentEl st7) then Returns () st7
                  else match putSortable st7 with
                       | Some put => save put st7
                       | None => Returns () st7
                       end) = Returns () st8 ∧ sameButDom st7 st8 ∧ dom st8 = dom st7
                 ∧ ∃ new, log st8 = new ++ log st ∧ Forall (dropCall st) new)
    as (st8 & -> & H8 & Hd8 & new8 & Hl8 & Hn8).
  { destruct (bool_decide _);
      [exists st7; split_and!; [done|apply sameButDom_refl|done|by exists new7]|].
    destruct (putSortable st7) as [put|] eqn:Hput7;
      [|exists st7; split_and!; [done|apply sameButDom_refl|done|by exists new7]].
    destruct (save_log put st7) as (st8 & Hrun & H8 & Hd8 & Hl8).
    { unfold Sortable_get. rewrite He7. apply Hput. congruence. }
    exists st8. split_and!; try done.
    destruct Hl8 as [Hl8|Hl8]; [exists new7; by rewrite Hl8|].
    exists (EStoreSet put :: new7). split; [by rewrite Hl8, Hl7|].
    constructor; [|done]. right. exists put. split_and!; [done|done|].
    right. by rewrite <- Hpu7. }
  simpl andThen.
  pose proof (sameButDom_trans _ _ _ H57 H8) as H58.
  destruct (Sortable_active st8) as [act|] eqn:Hact8;
    [|exists st8; split_and!;
      [done|unfold sameRegistry; destruct (Hfacts st8 H58); tauto|congruence|
       exists new8; split_and!; done]].
  set (st9 := match newIndex st8 with
              | None | Some (-1) => _ | Some _ => st8 end).
  assert (expando st9 = expando st8 ∧ dom st9 = dom st8 ∧ sortables st9 = sortables st8
          ∧ _silent st9 = _silent st8
          ∧ Sortable_eventCanceled st9 = Sortable_eventCanceled st8
          ∧ ignoreNextClick st9 = ignoreNextClick st8
          ∧ log st9 = log st8) as (He9 & Hd9 & Hs9 & Hsi9 & Hc9 & Hi9 & Hl9).
  { unfold st9. destruct (newIndex st8) as [[|?|[?|?|]]|]; done. }
  clearbody st9.
  destruct (Hfacts st8 H58) as (He8 & Hs8 & Hsi8 & Hc8 & Hi8 & _ & _ & _ & _ & _ & _ & Hac8).
  destruct (save_log s st9) as (st10 & Hrun & H10 & Hd10 & Hl10).
  { unfold Sortable_get in *. rewrite He9, He8, Hs. done. }
  exists st10. rewrite Hrun.
  unfold sameButDom in H10.
  split_and!; [done| |congruence|].
  - unfold sameRegistry.
    rewrite <- He8, <- Hs8, <- Hsi8, <- Hc8, <- Hi8, <- He9, <- Hs9, <- Hsi9, <- Hc9, <- Hi9,
      <- H10.
    done.
  - destruct Hl10 as [Hl10|Hl10]; [exists new8; split_and!; [congruence|done|done]|].
    exists (EStoreSet s :: new8). split_and!; [by rewrite Hl10, Hl9, Hl8| |done].
    constructor; [|done]. right. exists s. split_and!; [done|done|].
    left. rewrite <- Hac8, Hact8. by eexists.
Qed.

Lemma _onDrop_result h s hasEvt st :
  is_Some (Sortable_get st s) →
  (∀ p, putSortable st = Some p → is_Some (Sortable_get st p)) →
  ∃ st',
    _onDrop h s hasEvt st = Returns () st'
    ∧ idle st'
    ∧ sameRegistry st st'
    ∧ dom st' = dropDom hasEvt st
    ∧ (∃ new, log st' = new ++ log st ∧ Forall (dropCall st) new
              ∧ (hasEvt = false → new = [])).
Proof.
  intros Hs Hput.
  destruct (dropSettle_result h s hasEvt st Hs Hput) as (st1 & Hrun & Hreg & Hdom & Hlog).
  exists (_nulling st1). unfold _onDrop. rewrite Hrun. simpl.
  split_and!; [done|apply idle_nulling|exact Hreg|exact Hdom|exact Hlog].
Qed.

(** A drop always closes the session.  Whether or not an event comes with
    it, and whether or not the drag was cancelled, [_onDrop] returns with
    every session variable reset, and with the registry of instances, the
    dragover guard and the click flag as they were.  Called without an
    event it changes nothing in the document and calls no one. *)
Theorem drop_ends_the_session h s hasEvt st :
  is_Some (Sortable_get st s) →
  (∀ p, putSortable st = Some p → is_Some (Sortable_get st p)) →
  ∃ st',
    _onDrop h s hasEvt st = Returns () st'
    ∧ idle st'
    ∧ sameRegistry st st'
    ∧ (hasEvt = false → dom st' = dom st ∧ log st' = log st).
Proof.
  intros Hs Hput.
  destruct (_onDrop_result h s hasEvt st Hs Hput) as (st' & Hrun & Hidle & Hreg & Hdom & Hlog).
  exists st'. split_and!; try done.
  intros ->. split; [by rewrite Hdom|].
  destruct Hlog as (new & Hl & _ & Hnil). by rewrite Hl, Hnil.
Qed.

Lemma drop_ends_the_session_witness :
  ∃ st',
    _onDrop (exHost exSwap (λ _, MvOther)) 1 true exDragging = Returns () st'
    ∧ idle st'
    ∧ sameRegistry exDragging st'
    ∧ (true = false → dom st' = dom exDragging ∧ log st' = log exDragging).
Proof.
  apply (drop_ends_the_session (exHost exSwap (λ _, MvOther)) 1%nat true exDragging).
  - eexists. vm_compute. reflexivity.
  - intros p Hp. vm_compute in Hp. discriminate.
Defined.

Lemma filter_always {A} (P : A → Prop) `{!∀ x, Decision (P x)} (l : list A) :
  (∀ x, P x) → filter P l = l.
Proof.
  intros HP. induction l as [|a l IH]; [done|].
  by rewrite filter_cons_True, IH.
Qed.

Lemma children_detachNode n d p :
  children (detachNode (Some n) d) p = filter (λ x, x ≠ n) (children d p).
Proof. destruct d. apply children_detach. Qed.

Lemma attached_detachNode n d x :
  attached (detachNode (Some n) d) x ↔ attached d x ∧ x ≠ n.
Proof.
  unfold attached, detachNode. simpl. rewrite allItems_detach, list_elem_of_filter. tauto.
Qed.

(** A drop moves nothing.  With an event and no cancellation it takes the
    ghost out of the document, and the clone too unless the item was put
    into another list that pulled it as a clone; every other element keeps
    its parent and its place among its siblings.  A cancelled drop leaves
    the document as it is. *)
Theorem drop_detaches_ghost_and_clone_only h s st :
  is_Some (Sortable_get st s) →
  (∀ p, putSortable st = Some p → is_Some (Sortable_get st p)) →
  ∃ st',
    _onDrop h s true st = Returns () st'
    ∧ (∀ p, filter (λ x, Some x ≠ ghostEl st ∧ Some x ≠ cloneEl st) (children (dom st') p)
            = filter (λ x, Some x ≠ ghostEl st ∧ Some x ≠ cloneEl st) (children (dom st) p))
    ∧ (if Sortable_eventCanceled st then dom st' = dom st
       else (∀ g, ghostEl st = Some g → ¬ attached (dom st') g)
            ∧ (∀ c, cloneEl st = Some c →
                 if cloneLeaves st then ¬ attached (dom st') c
                 else ghostEl st ≠ Some c →
                      ∀ p, children (dom st') p
                           = filter (λ x, Some x ≠ ghostEl st) (children (dom st) p))).
Proof.
  intros Hs Hput.
  destruct (_onDrop_result h s true st Hs Hput) as (st' & Hrun & _ & _ & Hdom & _).
  exists st'. split; [done|]. rewrite Hdom. unfold dropDom. simpl andb.
  destruct (Sortable_eventCanceled st); simpl negb; cbv iota; [done|].
  assert (∀ g d p, children (detachNode g d) p
                   = filter (λ x, Some x ≠ g) (children d p)) as Hch.
  { intros [g|] d p.
    - rewrite children_detachNode. apply list_filter_iff. intros x. naive_solver.
    - simpl. symmetry. by apply filter_always. }
  split_and!.
  - intros p. destruct (cloneLeaves st); unfold id;
      rewrite ?Hch, ?list_filter_filter; apply list_filter_iff; intros x; naive_solver.
  - intros g Hg. rewrite Hg.
    destruct (cloneLeaves st), (cloneEl st) as [c|]; unfold id; cbn [detachNode];
      change (mkDom (detach g (kids (dom st))) (inlineNone (dom st)))
        with (detachNode (Some g) (dom st));
      rewrite ?attached_detachNode; try naive_solver.
    change (mkDom (detach c (kids (detachNode (Some g) (dom st))))
              (inlineNone (detachNode (Some g) (dom st))))
      with (detachNode (Some c) (detachNode (Some g) (dom st))).
    rewrite !attached_detachNode. naive_solver.
  - intros c Hc. rewrite Hc. destruct (cloneLeaves st); unfold id.
    + rewrite attached_detachNode. naive_solver.
    + intros _ p. apply Hch.
Qed.

Lemma drop_detaches_ghost_and_clone_only_witness :
  ∃ st',
    _onDrop (exHost exSwap (λ _, MvOther)) 1 true exDragging = Returns () st'
    ∧ ∀ p, filter (λ x, x ≠ 15%nat) (children (dom st') p)
           = filter (λ x, x ≠ 15%nat) (children (dom exDragging) p).
Proof.
  destruct (drop_detaches_ghost_and_clone_only (exHost exSwap (λ _, MvOther)) 1%nat exDragging)
    as (st' & Hrun & Hothers & _).
  - eexists. vm_compute. reflexivity.
  - intros p Hp. vm_compute in Hp. discriminate.
  - exists st'. split; [exact Hrun|].
    intros p. specialize (Hothers p).
    assert (∀ x : nat, (Some x ≠ ghostEl exDragging ∧ Some x ≠ cloneEl exDragging)
                       ↔ x ≠ 15%nat) as Hiff.
    { intros x. vm_compute. split; [intros [_ H] ->; by apply H|].
      intros H. split; [discriminate|]. intros [= ->]. by apply H. }
    rewrite !(list_filter_iff _ _ _ Hiff) in Hothers. exact Hothers.
Defined.

(** What a drop calls.  Besides removing the ghost and the clone, a drop
    calls nothing but [store.set], and that only when an item was being
    dragged: on the instance itself when a session was active, and on the
    list the item was put into.  The move hook is not consulted and
    nothing is inserted anywhere. *)
Theorem drop_calls_only_the_store h s hasEvt st :
  is_Some (Sortable_get st s) →
  (∀ p, putSortable st = Some p → is_Some (Sortable_get st p)) →
  ∃ st' new,
    _onDrop h s hasEvt st = Returns () st'
    ∧ log st' = new ++ log st
    ∧ Forall (dropCall st) new.
Proof.
  intros Hs Hput.
  destruct (_onDrop_result h s hasEvt st Hs Hput)
    as (st' & Hrun & _ & _ & _ & new & Hl & Hn & _).
  by exists st', new.
Qed.

Lemma drop_calls_only_the_store_witness :
  ∃ st' new,
    _onDrop (exHost exSwap (λ _, MvOther)) 1 true exDragging = Returns () st'
    ∧ log st' = new ++ log exDragging
    ∧ Forall (dropCall exDragging) new.
Proof.
  apply (drop_calls_only_the_store (exHost exSwap (λ _, MvOther)) 1%nat true exDragging).
  - eexists. vm_compute. reflexivity.
  - intros p Hp. vm_compute in Hp. discriminate.
Defined.

(** ** Teardown and the registry *)

Lemma Sortable_new_registry h el o st :
  let st' := stateOf (Sortable_new h el o st) in
  (registered st → registered st')
  ∧ sortables st' = sortables st ++ constructedRoots [RegNew el o].
Proof.
  unfold Sortable_new.
  destruct el as [|root|nt]; cbv zeta; try (simpl; by rewrite app_nil_r).
  set (this := mkSortable root _ None None _).
  set (st1 := set_sortables _ _).
  assert (∀ o' : Outcome unit, o' = Returns () st1 ∨ o' = Throws st1 → stateOf o' = st1)
    as Hst by (by intros o' [->| ->]).
  rewrite Hst.
  2: { destruct (store _) as [sto|]; [|by left].
       destruct (hasGet sto); [by right|by left]. }
  split; [|done].
  intros Hreg s x. unfold Sortable_get, st1. simpl.
  destruct (decide (root = s)) as [->|Hne].
  - rewrite lookup_insert_eq. intros [= <-]. split; [done|].
    apply elem_of_app. right. by left.
  - rewrite lookup_insert_ne by done. intros Hx.
    destruct (Hreg s x Hx) as [He Hin]. split; [done|].
    apply elem_of_app. by left.
Qed.

Lemma destroy_registry h this st :
  let st' := stateOf (destroy h this st) in
  destroy h this st = Throws st'
  ∧ (registered st → registered st')
  ∧ sortables st' = sortables st
  ∧ Sortable_get st' (el this) = None.
Proof.
  unfold destroy. simpl. split_and!; try done.
  - intros Hreg s x. unfold Sortable_get. simpl.
    destruct (decide (el this = s)) as [->|Hne].
    + by rewrite lookup_delete_eq.
    + rewrite lookup_delete_ne by done. apply Hreg.
  - unfold Sortable_get. simpl. apply lookup_delete_eq.
Qed.

Lemma registryStep_result h op st :
  registered st →
  registered (registryStep h st op)
  ∧ sortables (registryStep h st op) = sortables st ++ constructedRoots [op].
Proof.
  intros Hreg. destruct op as [el o|this].
  - destruct (Sortable_new_registry h el o st) as [Hr Hs]. split; [by apply Hr|exact Hs].
  - destruct (destroy_registry h this st) as (_ & Hr & Hs & _).
    split; [by apply Hr|]. unfold registryStep. rewrite Hs.
    symmetry. apply app_nil_r.
Qed.

Lemma constructedRoots_cons op ops :
  constructedRoots (op :: ops) = constructedRoots [op] ++ constructedRoots ops.
Proof. by destruct op as [[|root|nt] o|this]. Qed.

Lemma registryRun_result h ops st :
  registered st →
  registered (registryRun h ops st)
  ∧ sortables (registryRun h ops st) = sortables st ++ constructedRoots ops.
Proof.
  revert st. induction ops as [|op ops IH]; intros st Hreg.
  - split; [done|]. symmetry. apply app_nil_r.
  - change (registryRun h (op :: ops) st) with (registryRun h ops (registryStep h st op)).
    destruct (registryStep_result h op st Hreg) as [Hr Hs].
    destruct (IH _ Hr) as [Hr' Hs']. split; [done|].
    by rewrite Hs', Hs, (constructedRoots_cons op ops), app_assoc.
Qed.

(** Through any sequence of constructions and calls of [destroy], every
    root that has an instance stays listed in [sortables] and every
    instance knows its root.  The list only grows: each construction on an
    element appends its root, and [destroy], which clears the expando of
    its root and then throws, takes nothing off it, so that a destroyed
    root stays listed. *)
Theorem registry_stays_consistent h ops st :
  registered st →
  registered (registryRun h ops st)
  ∧ sortables (registryRun h ops st) = sortables st ++ constructedRoots ops
  ∧ ∀ this, destroy h this st = Throws (stateOf (destroy h this st))
            ∧ Sortable_get (stateOf (destroy h this st)) (el this) = None
            ∧ sortables (stateOf (destroy h this st)) = sortables st.
Proof.
  intros Hreg. destruct (registryRun_result h ops st Hreg) as [Hr Hs].
  split_and!; try done.
  intros this. destruct (destroy_registry h this st) as (H1 & _ & H2 & H3). done.
Qed.

Lemma registry_stays_consistent_witness :
  let ops := [RegDestroy (exSortable 1); RegNew (JsElement 1) noOptions;
              RegDestroy (exSortable 2)] in
  let h := exHost exSwap (λ _, MvOther) in
  registered (registryRun h ops exIdle)
  ∧ sortables (registryRun h ops exIdle) = [1; 2; 1]%nat
  ∧ ∀ this, destroy h this exIdle = Throws (stateOf (destroy h this exIdle))
            ∧ Sortable_get (stateOf (destroy h this exIdle)) (el this) = None
            ∧ sortables (stateOf (destroy h this exIdle)) = sortables exIdle.
Proof.
  cbv zeta.
  apply (registry_stays_consistent (exHost exSwap (λ _, MvOther))
           [RegDestroy (exSortable 1); RegNew (JsElement 1) noOptions;
            RegDestroy (exSortable 2)] exIdle).
  intros s this Hs.
  destruct (decide (s = 1%nat)) as [->|H1]; [vm_compute in Hs; simplify_eq; split;
    [reflexivity|left]|].
  destruct (decide (s = 2%nat)) as [->|H2]; [vm_compute in Hs; simplify_eq; split;
    [reflexivity|right; left]|].
  exfalso. unfold Sortable_get, exIdle in Hs. simpl in Hs.
  rewrite !lookup_insert_ne in Hs by done. by rewrite lookup_empty in Hs.
Defined.

(** ** Events outside a session *)

(** While no session is under way the module stays idle whatever event an
    instance is handed, a drop included: the listener returns, changes
    nothing in the document, calls no one and leaves the registry alone. *)
Theorem idle_module_ignores_events h s evt st :
  idle st →
  is_Some (Sortable_get st s) →
  ∃ st',
    handleEvent h s evt st = Returns () st'
    ∧ idle st'
    ∧ dom st' = dom st
    ∧ log st' = log st
    ∧ sameRegistry st st'.
Proof.
  intros Hidle Hs. unfold handleEvent.
  assert (dragEl st = None ∧ ghostEl st = None ∧ cloneEl st = None ∧ putSortable st = None)
    as (Hd & Hg & Hc & Hp) by (unfold idle in Hidle; tauto).
  destruct (_ || _).
  - destruct (_onDrop_result h s true st Hs)
      as (st' & Hrun & Hidle' & Hreg & Hdom & new & Hl & Hn & _).
    { intros p. rewrite Hp. done. }
    exists st'. split_and!; try done.
    + rewrite Hdom. unfold dropDom. rewrite Hg, Hc.
      by destruct (_ && _), (cloneLeaves st).
    + destruct new as [|e new]; [done|].
      apply Forall_cons in Hn as [[(p & c & _ & [He|He])|(a & _ & [d Hd'] & _)] _];
        congruence.
  - destruct (_ || _); [|by exists st].
    rewrite Hd. rewrite bool_decide_eq_false_2 by (by intros [? ?]).
    by exists st.
Qed.

Lemma idle_module_ignores_events_witness :
  ∃ st',
    handleEvent (exHost exSwap (λ _, MvOther)) 1
      (mkDomEvent "drop" (exOver 11 35)) exIdle = Returns () st'
    ∧ idle st'
    ∧ dom st' = dom exIdle
    ∧ log st' = log exIdle
    ∧ sameRegistry exIdle st'.
Proof.
  apply (idle_module_ignores_events (exHost exSwap (λ _, MvOther)) 1%nat
           (mkDomEvent "drop" (exOver 11 35)) exIdle).
  - vm_compute. repeat split; reflexivity.
  - eexists. vm_compute. reflexivity.
Defined.

(** ** The start of a session *)

Lemma _onDrop_without_event_idle h s st :
  is_Some (Sortable_get st s) →
  ∃ st', _onDrop h s false st = Returns () st' ∧ idle st'.
Proof.
  intros [this Hs]. unfold _onDrop, dropSettle. rewrite Hs. cbv zeta.
  set (st3 := set_newDraggableIndex _ (set_newIndex _ (set_parentEl _ _))).
  destruct (Sortable_eventCanceled st3); simpl; eexists; (split; [reflexivity|]);
    apply idle_nulling.
Qed.

Lemma _prepareDragStart_start h s evt target st this t :
  Sortable_get st s = Some this →
  dragEl st = None →
  let st' := stateOf (_prepareDragStart h s evt target st) in
  dragEl st' = Some t →
  target = Some t
  ∧ parentNode (dom st) t = Some s
  ∧ rootEl st' = Some s ∧ parentEl st' = Some s
  ∧ nextEl st' = nextElementSibling (dom st) t
  ∧ lastDownEl st' = ElNode t ∧ Sortable_dragged st' = Some t
  ∧ activeGroup st' = group (options this)
  ∧ oldIndex st' = oldIndex st ∧ oldDraggableIndex st' = oldDraggableIndex st
  ∧ dom st' = dom st ∧ log st' = log st
  ∧ Sortable_active st' = Sortable_active st
  ∧ (timers st' = timers st
     ∨ (delay (options this) ≠ 0%nat
        ∧ timers st' = (delay (options this), DragStartFn s) :: timers st)).
Proof.
  intros Hs Hd. unfold _prepareDragStart. rewrite Hs. cbv zeta.
  destruct target as [t'|]; [|simpl; congruence].
  rewrite Hd. simpl negb. rewrite andb_true_l.
  destruct (bool_decide (parentNode (dom st) t' = Some s)) eqn:Hpar; [|simpl; congruence].
  apply bool_decide_eq_true in Hpar.
  set (st1 := set_tapEvt _ _).
  assert (is_Some (Sortable_get st1 s)) as Hs1 by (by exists this).
  destruct (_onDrop_without_event_idle h s st1 Hs1) as (stn & Hdrop & Hidle).
  assert (dragEl stn = None) as Hdn by (unfold idle in Hidle; tauto).
  destruct (_ && _) eqn:Hdelay.
  - destruct (Sortable_eventCanceled st1); [rewrite Hdrop; simpl; congruence|].
    simpl. intros [= <-]. split_and!; try done.
    right. split; [|done].
    apply andb_true_iff in Hdelay as [[Hdelay _]%andb_true_iff _].
    apply negb_true_iff, Nat.eqb_neq in Hdelay. done.
  - unfold dragStartFn.
    destruct (Sortable_eventCanceled st1); [rewrite Hdrop; simpl; congruence|].
    simpl. intros [= <-]. split_and!; try done. by left.
Qed.

(** What it takes to start, and what is in place once started.  A
    pointer-down that leaves an item chosen ([dragEl] set where it was not)
    came as a cancelable event to an instance that is not disabled, with
    the left button if it was a mouse or pointer event; the item is the
    closest draggable element around the target and a child of the root;
    root, parent, next sibling, group and both origin indices are
    recorded for it.  The document is untouched, nothing was called, and
    the instance is not yet the active one. *)
Theorem tap_start_prepares_the_session h s evt st t :
  dragEl st = None →
  let st' := stateOf (_onTapStart h s evt st) in
  dragEl st' = Some t →
  ∃ this,
    Sortable_get st s = Some this
    ∧ tapCancelable evt = true
    ∧ disabled (options this) = false
    ∧ (tapIsMouseOrPointerDown evt = true → tapButton evt = 0)
    ∧ isContentEditable (page h) (tapOriginalTarget evt) = false
    ∧ closest (page h) (dom st) (Some (tapTarget evt))
        (Some (draggable (options this))) s false = Some t
    ∧ parentNode (dom st) t = Some s
    ∧ rootEl st' = Some s ∧ parentEl st' = Some s
    ∧ nextEl st' = nextElementSibling (dom st) t
    ∧ lastDownEl st' = ElNode t ∧ Sortable_dragged st' = Some t
    ∧ activeGroup st' = group (options this)
    ∧ oldIndex st' = Some (index (page h) (dom st) (Sortable_clone st) (Some t) None)
    ∧ oldDraggableIndex st'
      = Some (index (page h) (dom st) (Sortable_clone st) (Some t)
                (Some (draggable (options this))))
    ∧ dom st' = dom st ∧ log st' = log st
    ∧ Sortable_active st' = Sortable_active st.
Proof.
  intros Hd. unfold _onTapStart.
  destruct (tapCancelable evt) eqn:Hc; simpl negb; cbv iota; [|simpl; congruence].
  destruct (Sortable_get st s) as [this|] eqn:Hs; [|simpl; congruence].
  cbv zeta.
  set (st1 := set_savedInputChecked _ st).
  assert (dragEl st1 = None) as Hd1 by done.
  rewrite Hd1. rewrite bool_decide_eq_false_2 by (by intros [? ?]).
  destruct (_ || disabled (options this)) eqn:Hdis; [simpl; congruence|].
  apply orb_false_iff in Hdis as [Hbtn Hdis].
  destruct (isContentEditable (page h) (tapOriginalTarget evt)) eqn:Hce; [simpl; congruence|].
  destruct (_ && String.eqb _ "SELECT") eqn:Hsel; [simpl; congruence|].
  set (target := closest (page h) (dom st1) (Some (tapTarget evt)) _ s false).
  destruct (match target with Some t0 => animated (page h) t0 | None => false end);
    [simpl; congruence|].
  destruct (sameRef (lastDownEl st1) target); [simpl; congruence|].
  set (st3 := set_oldDraggableIndex _ (set_oldIndex _ st1)).
  destruct (match filter_ (options this) with Some _ => _ | None => false end);
    [simpl; congruence|].
  destruct (match handle (options this) with Some _ => _ | None => false end);
    [simpl; congruence|].
  intros Ht.
  destruct (_prepareDragStart_start h s evt target st3 this t)
    as (Htar & Hpar & Hr & Hp & Hn & Hl & Hsd & Hag & Hoi & Hodi & Hdom & Hlog & Hact & _);
    [done|done|exact Ht|].
  exists this.
  assert (oldIndex st3 = Some (index (page h) (dom st) (Sortable_clone st) target None)
          ∧ oldDraggableIndex st3
            = Some (index (page h) (dom st) (Sortable_clone st) target
                      (Some (draggable (options this))))) as [Hoi3 Hodi3] by done.
  assert (dom st3 = dom st ∧ log st3 = log st ∧ Sortable_active st3 = Sortable_active st)
    as (Hdom3 & Hlog3 & Hact3) by done.
  rewrite Hoi, Hodi, Hoi3, Hodi3, Hdom, Hlog, Hact, Hn, Hdom3, Hlog3, Hact3.
  rewrite Hdom3 in Hpar.
  clearbody st3. rewrite Htar in *.
  split_and!; try done.
  intros Hm. rewrite Hm in Hbtn. simpl in Hbtn.
  apply negb_false_iff, Z.eqb_eq in Hbtn. done.
Qed.

Lemma tap_start_prepares_the_session_witness :
  let h := exHost exSwap (λ _, MvOther) in
  let evt := mkTapEvent true true 0 false 11 11 5 5 in
  let st' := stateOf (_onTapStart h 1 evt exIdle) in
  ∃ this,
    Sortable_get exIdle 1%nat = Some this
    ∧ tapCancelable evt = true
    ∧ disabled (options this) = false
    ∧ (tapIsMouseOrPointerDown evt = true → tapButton evt = 0)
    ∧ isContentEditable (page h) (tapOriginalTarget evt) = false
    ∧ closest (page h) (dom exIdle) (Some (tapTarget evt))
        (Some (draggable (options this))) 1%nat false = Some 11%nat
    ∧ parentNode (dom exIdle) 11%nat = Some 1%nat
    ∧ rootEl st' = Some 1%nat ∧ parentEl st' = Some 1%nat
    ∧ nextEl st' = nextElementSibling (dom exIdle) 11%nat
    ∧ lastDownEl st' = ElNode 11 ∧ Sortable_dragged st' = Some 11%nat
    ∧ activeGroup st' = group (options this)
    ∧ oldIndex st' = Some (index (page h) (dom exIdle) (Sortable_clone exIdle) (Some 11%nat) None)
    ∧ oldDraggableIndex st'
      = Some (index (page h) (dom exIdle) (Sortable_clone exIdle) (Some 11%nat)
                (Some (draggable (options this))))
    ∧ dom st' = dom exIdle ∧ log st' = log exIdle
    ∧ Sortable_active st' = Sortable_active exIdle.
Proof.
  cbv zeta.
  apply (tap_start_prepares_the_session (exHost exSwap (λ _, MvOther)) 1%nat
           (mkTapEvent true true 0 false 11 11 5 5) exIdle 11%nat).
  - reflexivity.
  - vm_compute. reflexivity.
Defined.

(** ** Dragovers that are turned away *)

Lemma permission_refuses h s this evt st :
  Sortable_active st = None
  ∨ disabled (options this) = true
  ∨ (activeGroup st = group (options this) ∧ sort (options this) = false
     ∧ parentEl st = rootEl st)
  ∨ (activeGroup st ≠ group (options this) ∧ putSortable st ≠ Some s
     ∧ ∀ a, Sortable_active st = Some a →
         match activeGroup st with
         | None => True
         | Some g =>
             checkPull h g s a (dragEl st) evt = PullFalse
             ∨ match group (options this) with
               | None => True
               | Some g' => checkPut h g' s a (dragEl st) evt = false
               end
         end) →
  (permission h s (options this) evt (set_ignoreNextClick false st)).1.1 = false.
Proof.
  unfold permission. simpl.
  intros [Ha|[Hdis|[(Hg & Hsort & Hp)|(Hg & Hput & Hpull)]]].
  - by rewrite Ha.
  - destruct (Sortable_active st); [|done]. by rewrite Hdis.
  - destruct (Sortable_active st); [|done]. destruct (disabled _); [done|].
    rewrite bool_decide_eq_true_2, Hsort by done. simpl.
    by rewrite bool_decide_eq_true_2.
  - destruct (Sortable_active st) as [a|]; [|done]. destruct (disabled _); [done|].
    rewrite bool_decide_eq_false_2 by done.
    rewrite (bool_decide_eq_false_2 (putSortable st = Some s)) by done.
    specialize (Hpull a eq_refl).
    destruct (activeGroup st) as [g|]; simpl; [|done].
    destruct Hpull as [->|Hput']; [done|].
    destruct (checkPull h g s a (dragEl st) evt); [done|..];
      destruct (group (options this)); simpl; done.
Qed.

(** A dragover that is turned away moves nothing: the document, the dragged
    item, its recorded parent and the indices stay as they were, and the
    move hook is not consulted; at most the look-out for a nearby empty
    list is called. *)
Theorem dragover_turned_away_moves_nothing h s this evt st :
  Sortable_get st s = Some this →
  turnedAway h s this evt st →
  let st' := stateOf (_onDragOver h s evt st) in
  dom st' = dom st
  ∧ dragEl st' = dragEl st
  ∧ parentEl st' = parentEl st
  ∧ newIndex st' = newIndex st
  ∧ newDraggableIndex st' = newDraggableIndex st
  ∧ (log st' = log st ∨ log st' = EDetectEmpty evt :: log st).
Proof.
  intros Hs Hturn. unfold _onDragOver. rewrite Hs. cbv zeta.
  destruct (_silent st) eqn:Hsilent; [by split_and!; try done; left|].
  destruct (Sortable_eventCanceled st) eqn:Hcancel; [by split_and!; try done; left|].
  match goal with
  | |- context [stateOf (if ?c then _ else _)] => destruct c eqn:Hbusy
  end.
  { match goal with
    | |- context [completed ?h ?s ?evt ?opts ?o ?a ?f ?tg false ?st1] =>
        destruct (completed_false_shape h s evt opts o a f tg st1) as (lt & new & -> & Hn)
    end.
    split_and!; try done. destruct Hn as [->| ->]; [by left|by right]. }
  assert ((permission h s (options this) evt (set_ignoreNextClick false st)).1.1 = false)
    as Hperm.
  { apply permission_refuses.
    destruct Hturn as [H|[H|[H|[H|[H|[H|(d & Hd & Hin)]]]]]]; try congruence; eauto.
    rewrite Hd, Hin in Hbusy. done. }
  destruct (permission _ _ _ _ _) as [[permitted revert] st1] eqn:Hp.
  simpl in Hperm. subst permitted.
  destruct (permission_shape h s (options this) evt (set_ignoreNextClick false st))
    as [H|[pull H]]; rewrite Hp in H; simpl in H; subst st1; simpl;
    split_and!; try done; by left.
Qed.

Lemma dragover_turned_away_moves_nothing_witness :
  let h := exHost exSwap (λ _, MvOther) in
  let st' := stateOf (_onDragOver h 1 (exOver 11 35) exIdle) in
  dom st' = dom exIdle
  ∧ dragEl st' = dragEl exIdle
  ∧ parentEl st' = parentEl exIdle
  ∧ newIndex st' = newIndex exIdle
  ∧ newDraggableIndex st' = newDraggableIndex exIdle
  ∧ (log st' = log exIdle ∨ log st' = EDetectEmpty (exOver 11 35) :: log exIdle).
Proof.
  cbv zeta.
  apply (dragover_turned_away_moves_nothing (exHost exSwap (λ _, MvOther)) 1%nat
           (exSortable 1) (exOver 11 35) exIdle).
  - vm_compute. reflexivity.
  - right. right. left. reflexivity.
Defined.

(** ** What a dragover answers *)

Lemma andThen_onlyTrue {A} (o : Outcome A) (k : A → State → Outcome Ret) :
  (∀ a st, onlyTrue (k a st)) → onlyTrue (andThen o k).
Proof. intros Hk. destruct o; simpl; [apply Hk|done]. Qed.

Lemma onlyTrue_trueOrUnmoved st o : onlyTrue o → trueOrUnmoved st o.
Proof. destruct o as [r st'|]; simpl; [by intros ->|done]. Qed.

Lemma completedTail_onlyTrue h s evt opts target insertion st :
  onlyTrue (completedTail h s evt opts target insertion st).
Proof.
  unfold completedTail. repeat (goal_match; simpl; try done).
Qed.

Lemma completed_onlyTrue h s evt opts isOwner act from target insertion st :
  onlyTrue (completed h s evt opts isOwner act from target insertion st).
Proof.
  unfold completed. destruct insertion; [|apply completedTail_onlyTrue].
  apply andThen_onlyTrue. intros [] st1. apply completedTail_onlyTrue.
Qed.

Lemma fallThrough_answer h s evt opts isOwner act from target st0 st :
  dom st = dom st0 →
  trueOrUnmoved st0 (fallThrough h s evt opts isOwner act from target st).
Proof.
  intros Hdom. unfold fallThrough. destruct (contains _ _ _); [|done].
  apply onlyTrue_trueOrUnmoved, completed_onlyTrue.
Qed.

Lemma revertBranch_answer h s evt opts isOwner act from d target st :
  onlyTrue (revertBranch h s evt opts isOwner act from d target st).
Proof.
  unfold revertBranch. cbv zeta.
  apply andThen_onlyTrue. intros [] st2.
  apply andThen_onlyTrue. intros [] st3. apply completed_onlyTrue.
Qed.

Lemma endBranch_answer h s evt opts isOwner act from d dragRect target elLastChild st :
  trueOrUnmoved st
    (endBranch h s evt opts isOwner act from d dragRect target elLastChild st).
Proof.
  unfold endBranch. cbv zeta.
  destruct (bool_decide (elLastChild = Some d));
    [apply onlyTrue_trueOrUnmoved, completed_onlyTrue|].
  destruct (isVetoed _); [by apply fallThrough_answer|].
  apply onlyTrue_trueOrUnmoved, andThen_onlyTrue. intros [] st3. apply completed_onlyTrue.
Qed.

Lemma startBranch_answer h s evt opts isOwner act from d dragRect target st :
  trueOrUnmoved st (startBranch h s evt opts isOwner act from d dragRect target st).
Proof.
  unfold startBranch. cbv zeta.
  destruct (bool_decide (_ = Some d));
    [apply onlyTrue_trueOrUnmoved, completed_onlyTrue|].
  destruct (getChild _ _ _ _ _ _ _ _) as [fc|]; [|done].
  destruct (isVetoed _); [by apply fallThrough_answer|].
  apply onlyTrue_trueOrUnmoved, andThen_onlyTrue. intros [] st3. apply completed_onlyTrue.
Qed.

Lemma swapPlace_answer h s evt opts isOwner act from d dragRect t vertical
    targetRect scrolled before direction st :
  trueOrUnmoved st
    (swapPlace h s evt opts isOwner act from d dragRect t vertical
       targetRect scrolled before direction st).
Proof.
  unfold swapPlace. cbv zeta.
  destruct (isVetoed _); [by apply fallThrough_answer|].
  apply onlyTrue_trueOrUnmoved, andThen_onlyTrue. intros [] st6. apply completed_onlyTrue.
Qed.

Lemma trueOrUnmoved_via st0 st o :
  dom st = dom st0 → trueOrUnmoved st o → trueOrUnmoved st0 o.
Proof. intros Hdom. destruct o as [[| |] st'|]; simpl; congruence. Qed.

Lemma swapBranch_answer h s evt opts isOwner act from d dragRect t vertical st :
  trueOrUnmoved st (swapBranch h s evt opts isOwner act from d dragRect t vertical st).
Proof.
  unfold swapBranch. cbv zeta.
  destruct (swapDecisionState_frame h s opts d dragRect t vertical st) as (inv & past & ->).
  destruct (_ || _); [apply onlyTrue_trueOrUnmoved, completed_onlyTrue|].
  eapply trueOrUnmoved_via; [|apply swapPlace_answer]. done.
Qed.

Lemma _onDragOver_answer h s evt st :
  match _onDragOver h s evt st with
  | Returns RUndefined st' => _silent st = true ∧ st' = st
  | Returns RFalse st' => _silent st = false ∧ dom st' = dom st
  | Returns RTrue _ => _silent st = false
  | Throws _ => True
  end.
Proof.
  unfold _onDragOver.
  destruct (Sortable_get st s) as [this|]; [|done]. cbv zeta.
  destruct (_silent st) eqn:Hsilent; [done|].
  assert (∀ o, trueOrUnmoved st o →
            match o with
            | Returns RUndefined st' => false = true ∧ st' = st
            | Returns RFalse st' => false = false ∧ dom st' = dom st
            | Returns RTrue _ => false = false
            | Throws _ => True
            end) as Hwrap.
  { intros [[| |] st'|]; simpl; done. }
  apply Hwrap.
  destruct (Sortable_eventCanceled st); [done|].
  match goal with
  | |- trueOrUnmoved _ (if ?c then _ else _) => destruct c
  end; [apply onlyTrue_trueOrUnmoved, completed_onlyTrue|].
  destruct (permission _ _ _ _ _) as [[permitted revert] st1] eqn:Hperm.
  apply permission_frame in Hperm as (Hdom & _). simpl in Hdom.
  apply (trueOrUnmoved_via st st1); [done|].
  destruct permitted; [|done].
  destruct (dragEl st1) as [d|]; [|done].
  destruct (Sortable_eventCanceled st1); [done|].
  destruct revert; [apply onlyTrue_trueOrUnmoved, revertBranch_answer|].
  match goal with
  | |- trueOrUnmoved _ (if ?c then _ else _) => destruct c
  end; [apply endBranch_answer|].
  destruct (_ghostIsFirst _ _ _ _ _); [apply startBranch_answer|].
  destruct (closest _ _ _ _ _ _) as [t|]; [|by apply fallThrough_answer].
  destruct (bool_decide _); [apply swapBranch_answer|by apply fallThrough_answer].
Qed.

(** What [_onDragOver] answers.  It answers nothing (undefined) exactly
    when the guard was set, and has then done nothing; it answers [false]
    only if it left the document as it was; whenever it has changed the
    document it answers [true]. *)
Theorem dragover_answers_true_when_it_moved h s evt st r st' :
  _onDragOver h s evt st = Returns r st' →
  (r = RUndefined ↔ _silent st = true)
  ∧ (r = RUndefined → st' = st)
  ∧ (r = RFalse → dom st' = dom st)
  ∧ (dom st' ≠ dom st → r = RTrue).
Proof.
  intros Hrun. pose proof (_onDragOver_answer h s evt st) as H. rewrite Hrun in H.
  destruct r.
  - destruct H as [Hs ->]. by split_and!.
  - destruct H as [Hs Hd]. split_and!; try done.
    split; [done|congruence].
  - split_and!; try done. split; [done|congruence].
Qed.

Lemma dragover_answers_true_when_it_moved_witness :
  let h := exHost exSwap (λ _, MvOther) in
  let st' := stateOf (_onDragOver h 1 (exOver 11 35) exDragging) in
  (RTrue = RUndefined ↔ _silent exDragging = true)
  ∧ (RTrue = RUndefined → st' = exDragging)
  ∧ (RTrue = RFalse → dom st' = dom exDragging)
  ∧ (dom st' ≠ dom exDragging → RTrue = RTrue).
Proof.
  cbv zeta.
  apply (dragover_answers_true_when_it_moved (exHost exSwap (λ _, MvOther)) 1%nat
           (exOver 11 35) exDragging RTrue).
  vm_compute. reflexivity.
Defined.

(** ** Who moves during a drag *)

Lemma filter_insertAt n r (cs : list nat) :
  filter (λ x, x ≠ n) (insertAt n r cs) = filter (λ x, x ≠ n) cs.
Proof.
  induction cs as [|c cs IH]; simpl.
  - by rewrite filter_cons_False by naive_solver.
  - case_decide.
    + by rewrite filter_cons_False by naive_solver.
    + rewrite !filter_cons. by rewrite IH.
Qed.

Lemma children_kids d p : children d p = default [] (kids d !! p).
Proof. done. Qed.

Lemma removeChild_others d p n d' :
  removeChild d p n = Some d' →
  ∀ q, filter (λ x, x ≠ n) (children d' q) = filter (λ x, x ≠ n) (children d q).
Proof.
  unfold removeChild. case_decide; [|done]. intros [= <-] q.
  destruct d as [k i]. rewrite children_detach. apply filter_ne_twice.
Qed.

Lemma appendChild_others d p n d' :
  appendChild d p n = Some d' →
  ∀ q, filter (λ x, x ≠ n) (children d' q) = filter (λ x, x ≠ n) (children d q).
Proof.
  unfold appendChild. destruct (contains d n (Some p)); [done|].
  intros [= <-] q. destruct d as [k i]. simpl.
  rewrite children_reorder. case_decide as Hq.
  - subst q. rewrite filter_app, filter_cons_False, filter_nil, app_nil_r by naive_solver.
    change (default [] (detach n k !! p)) with (children (mkDom (detach n k) i) p).
    rewrite children_detach. apply filter_ne_twice.
  - rewrite children_detach. apply filter_ne_twice.
Qed.

Lemma insertBefore_others d p n ref d' :
  insertBefore d p n ref = Some d' →
  ∀ q, filter (λ x, x ≠ n) (children d' q) = filter (λ x, x ≠ n) (children d q).
Proof.
  unfold insertBefore. destruct ref as [r|]; [|apply appendChild_others].
  destruct (contains d n (Some p)); [done|]. case_decide; [|done].
  intros [= <-] q. destruct d as [k i]. simpl.
  rewrite children_reorder. case_decide as Hq.
  - subst q.
    change (default [] (detach n k !! p)) with (children (mkDom (detach n k) i) p).
    destruct (if decide (r = n) then _ else _) as [r'|].
    + rewrite filter_insertAt, children_detach. apply filter_ne_twice.
    + rewrite filter_app, filter_cons_False, filter_nil, app_nil_r by naive_solver.
      rewrite children_detach. apply filter_ne_twice.
  - rewrite children_detach. apply filter_ne_twice.
Qed.

Lemma othersStay_refl st : othersStay st st.
Proof. by split_and!. Qed.

Lemma othersStay_trans st1 st2 st3 :
  othersStay st1 st2 → othersStay st2 st3 → othersStay st1 st3.
Proof.
  intros (Hd & Hc & H12) (Hd' & Hc' & H23). split_and!; [congruence..|].
  intros p. rewrite <- H12. rewrite Hd, Hc in H23. apply H23.
Qed.

Lemma othersStay_kids st st' :
  kids (dom st') = kids (dom st) → dragEl st' = dragEl st → cloneEl st' = cloneEl st →
  othersStay st st'.
Proof.
  intros Hk Hd Hc. split_and!; [done..|]. intros p. by rewrite !children_kids, Hk.
Qed.

Lemma othersStay_via st0 st st' :
  kids (dom st) = kids (dom st0) → dragEl st = dragEl st0 → cloneEl st = cloneEl st0 →
  othersStay st st' → othersStay st0 st'.
Proof.
  intros Hk Hd Hc H. eapply othersStay_trans; [|exact H]. by apply othersStay_kids.
Qed.

Lemma othersStay_then_pure st st1 st2 :
  othersStay st st1 →
  kids (dom st2) = kids (dom st1) → dragEl st2 = dragEl st1 → cloneEl st2 = cloneEl st1 →
  othersStay st st2.
Proof.
  intros H Hk Hd Hc. eapply othersStay_trans; [exact H|]. by apply othersStay_kids.
Qed.

Lemma andThen_othersStay {A B} st (o : Outcome A) (k : A → State → Outcome B) :
  othersStay st (stateOf o) →
  (∀ a st1, o = Returns a st1 → othersStay st1 (stateOf (k a st1))) →
  othersStay st (stateOf (andThen o k)).
Proof.
  intros Ho Hk. destruct o as [a st1|st1]; simpl in *; [|done].
  eapply othersStay_trans; [exact Ho|]. by apply Hk.
Qed.

(** A node that is the dragged item or the clone may be moved. *)
Lemma moved_othersStay st st' n :
  dragEl st = Some n ∨ cloneEl st = Some n →
  dragEl st' = dragEl st → cloneEl st' = cloneEl st →
  (∀ q, filter (λ x, x ≠ n) (children (dom st') q)
        = filter (λ x, x ≠ n) (children (dom st) q)) →
  othersStay st st'.
Proof.
  intros Hn Hd Hc Hq. split_and!; [done..|]. intros p.
  rewrite <- (list_filter_filter_l _ (λ x, x ≠ n) (children (dom st') p)),
    <- (list_filter_filter_l _ (λ x, x ≠ n) (children (dom st) p)).
  - by rewrite Hq.
  - intros x [H1 H2] ->. destruct Hn; congruence.
  - intros x [H1 H2] ->. destruct Hn; congruence.
Qed.

Lemma domInsertBefore_moved p n ref st :
  dragEl st = Some n ∨ cloneEl st = Some n →
  othersStay st (stateOf (domInsertBefore p n ref st)).
Proof.
  intros Hn. unfold domInsertBefore.
  destruct (insertBefore _ _ _ _) as [d'|] eqn:E; simpl; [|apply othersStay_refl].
  apply (moved_othersStay _ _ n); try done. by apply (insertBefore_others _ p n ref).
Qed.

Lemma domAppendChild_moved p n st :
  dragEl st = Some n ∨ cloneEl st = Some n →
  othersStay st (stateOf (domAppendChild p n st)).
Proof.
  intros Hn. unfold domAppendChild.
  destruct (appendChild _ _ _) as [d'|] eqn:E; simpl; [|apply othersStay_refl].
  apply (moved_othersStay _ _ n); try done. by apply (appendChild_others _ p n).
Qed.

Lemma domRemoveChild_moved p n st :
  dragEl st = Some n ∨ cloneEl st = Some n →
  othersStay st (stateOf (domRemoveChild p n st)).
Proof.
  intros Hn. unfold domRemoveChild.
  destruct (removeChild _ _ _) as [d'|] eqn:E; simpl; [|apply othersStay_refl].
  apply (moved_othersStay _ _ n); try done. by apply (removeChild_others _ p n).
Qed.

Ltac stay_pure := apply othersStay_kids; frame_solve.

Lemma _hideClone_othersStay a st : othersStay st (stateOf (_hideClone a st)).
Proof.
  unfold _hideClone.
  destruct (Sortable_get st a) as [this|]; [|apply othersStay_refl].
  destruct (cloneHidden st); [apply othersStay_refl|].
  destruct (Sortable_eventCanceled st); [apply othersStay_refl|].
  destruct (cloneEl st) as [c|] eqn:Hc.
  - set (st1 := set_dom _ st).
    apply (othersStay_via st st1); [done..|].
    destruct (removeCloneOnHide (options this)); [|simpl; stay_pure].
    replace (cloneEl st1) with (Some c) by done.
    destruct (parentNode (dom st1) c) as [p|]; [|simpl; stay_pure].
    apply andThen_othersStay; [apply domRemoveChild_moved; by right|].
    intros [] st2 _. simpl. stay_pure.
  - rewrite Hc. destruct (removeCloneOnHide (options this)); simpl; [apply othersStay_refl|].
    stay_pure.
Qed.

Lemma _showClone_othersStay a s st : othersStay st (stateOf (_showClone a s st)).
Proof.
  unfold _showClone.
  destruct (Sortable_get st a) as [this|]; [|apply othersStay_refl].
  destruct (Sortable_get st s) as [putS|]; [|apply othersStay_refl].
  destruct (negb _); [apply _hideClone_othersStay|].
  destruct (negb (cloneHidden st)); [apply othersStay_refl|].
  destruct (Sortable_eventCanceled st); [apply othersStay_refl|].
  destruct (dragEl st) as [d|] eqn:Hd; [|apply othersStay_refl].
  cbv zeta.
  apply andThen_othersStay.
  - repeat top_case; simpl; try apply othersStay_refl;
      first [apply domInsertBefore_moved | apply domAppendChild_moved]; by right.
  - intros [] st1 _. destruct (group (options this)) as [g|]; simpl; [|apply othersStay_refl].
    stay_pure.
Qed.

Lemma insertionEffects_othersStay s isOwner act from target st :
  othersStay st (stateOf (insertionEffects s isOwner act from target st)).
Proof.
  unfold insertionEffects.
  apply andThen_othersStay.
  - destruct act as [a|]; [|apply othersStay_refl].
    destruct isOwner; [apply _hideClone_othersStay|apply _showClone_othersStay].
  - intros [] st1 _. stay_pure.
Qed.

Lemma completed_othersStay h s evt opts isOwner act from target insertion st :
  othersStay st (stateOf (completed h s evt opts isOwner act from target insertion st)).
Proof.
  unfold completed.
  assert (∀ st1 ins, othersStay st1 (stateOf (completedTail h s evt opts target ins st1)))
    as Htail.
  { intros st1 ins.
    destruct (completedTail_shape h s evt opts target ins st1) as (lt & new & -> & _).
    by apply othersStay_kids. }
  destruct insertion; [|apply Htail].
  apply andThen_othersStay; [apply insertionEffects_othersStay|].
  intros [] st1 _. apply Htail.
Qed.

Lemma fallThrough_othersStay h s evt opts isOwner act from target st :
  othersStay st (stateOf (fallThrough h s evt opts isOwner act from target st)).
Proof.
  unfold fallThrough. destruct (contains _ _ _); [apply completed_othersStay|].
  apply othersStay_refl.
Qed.

Lemma revertBranch_othersStay h s evt opts isOwner act from d target st :
  dragEl st = Some d →
  othersStay st (stateOf (revertBranch h s evt opts isOwner act from d target st)).
Proof.
  intros Hd. unfold revertBranch. cbv zeta.
  set (st1 := capture s from (set_parentEl (rootEl st) st)).
  apply (othersStay_via st st1); [unfold st1; frame_solve..|].
  assert (dragEl st1 = Some d) as Hd1 by (rewrite <- Hd; unfold st1; frame_solve).
  clearbody st1.
  pose proof (_hideClone_othersStay s st1) as Hh.
  apply andThen_othersStay; [done|]. intros [] st2 Hst2.
  rewrite Hst2 in Hh. simpl in Hh.
  assert (dragEl st2 = Some d) as Hd2 by (destruct Hh as (-> & _); done).
  apply andThen_othersStay.
  - repeat goal_match; simpl; try apply othersStay_refl;
      first [apply domInsertBefore_moved | apply domAppendChild_moved]; by left.
  - intros [] st3 _. apply completed_othersStay.
Qed.

Lemma endBranch_othersStay h s evt opts isOwner act from d dragRect target elLastChild st :
  dragEl st = Some d →
  othersStay st (stateOf (endBranch h s evt opts isOwner act from d dragRect
                            target elLastChild st)).
Proof.
  intros Hd. unfold endBranch.
  top_case; [apply completed_othersStay|].
  cbv zeta. top_case.
  { eapply othersStay_via; [| | |apply fallThrough_othersStay]; frame_solve. }
  match goal with
  | |- context [capture ?s ?f ?x] => set (st2 := capture s f x)
  end.
  apply (othersStay_via st st2); [unfold st2; frame_solve..|].
  assert (dragEl st2 = Some d) as Hd2 by (rewrite <- Hd; unfold st2; frame_solve).
  clearbody st2.
  apply andThen_othersStay.
  { top_case; first [apply domInsertBefore_moved | apply domAppendChild_moved]; by left. }
  intros [] st3 _.
  eapply othersStay_via; [| | |apply completed_othersStay]; frame_solve.
Qed.

Lemma startBranch_othersStay h s evt opts isOwner act from d dragRect target st :
  dragEl st = Some d →
  othersStay st (stateOf (startBranch h s evt opts isOwner act from d dragRect target st)).
Proof.
  intros Hd. unfold startBranch.
  top_case; [apply completed_othersStay|].
  top_case; [|apply othersStay_refl].
  cbv zeta. top_case.
  { eapply othersStay_via; [| | |apply fallThrough_othersStay]; frame_solve. }
  match goal with
  | |- context [capture ?s ?f ?x] => set (st2 := capture s f x)
  end.
  apply (othersStay_via st st2); [unfold st2; frame_solve..|].
  assert (dragEl st2 = Some d) as Hd2 by (rewrite <- Hd; unfold st2; frame_solve).
  clearbody st2.
  apply andThen_othersStay.
  { apply domInsertBefore_moved. by left. }
  intros [] st3 _.
  eapply othersStay_via; [| | |apply completed_othersStay]; frame_solve.
Qed.

Lemma swapPlace_othersStay h s evt opts isOwner act from d dragRect t vertical
    targetRect scrolled before direction st :
  dragEl st = Some d →
  othersStay st
    (stateOf (swapPlace h s evt opts isOwner act from d dragRect t vertical
                targetRect scrolled before direction st)).
Proof.
  intros Hd. unfold swapPlace. cbv zeta.
  top_case.
  { eapply othersStay_via; [| | |apply fallThrough_othersStay]; frame_solve. }
  match goal with
  | |- context [capture ?s ?f ?x] => set (st5 := capture s f x)
  end.
  apply (othersStay_via st st5); [unfold st5; frame_solve..|].
  assert (dragEl st5 = Some d) as Hd5 by (rewrite <- Hd; unfold st5; frame_solve).
  clearbody st5.
  apply andThen_othersStay.
  { top_case; [|top_case].
    - apply domAppendChild_moved. by left.
    - apply domInsertBefore_moved. by left.
    - apply othersStay_refl. }
  intros [] st6 _.
  eapply othersStay_via; [| | |apply completed_othersStay]; frame_solve.
Qed.

Lemma swapBranch_othersStay h s evt opts isOwner act from d dragRect t vertical st :
  dragEl st = Some d →
  othersStay st
    (stateOf (swapBranch h s evt opts isOwner act from d dragRect t vertical st)).
Proof.
  intros Hd. unfold swapBranch. cbv zeta.
  destruct (swapDecisionState_frame h s opts d dragRect t vertical st) as (inv & past & ->).
  top_case.
  - eapply othersStay_via; [| | |apply completed_othersStay]; done.
  - eapply othersStay_via; [| | |apply (swapPlace_othersStay _ _ _ _ _ _ _ d)]; done.
Qed.

Lemma _onDragOver_othersStay h s evt st :
  othersStay st (stateOf (_onDragOver h s evt st)).
Proof.
  unfold _onDragOver.
  top_case; [|apply othersStay_refl].
  cbv zeta.
  top_case; [apply othersStay_refl|].
  top_case; [apply othersStay_refl|].
  top_case; [apply completed_othersStay|].
  destruct (permission _ _ _ _ _) as [[permitted revert] st1] eqn:Hperm.
  apply permission_frame in Hperm as (Hdom & Hd & Hc & _).
  simpl in Hdom, Hd, Hc.
  apply (othersStay_via st st1); [by rewrite Hdom|done..|].
  top_case; [|apply othersStay_refl].
  top_case; [|apply othersStay_refl].
  top_case; [apply othersStay_refl|].
  top_case; [by apply revertBranch_othersStay|].
  top_case; [by apply endBranch_othersStay|].
  top_case; [by apply startBranch_othersStay|].
  top_case; [top_case|].
  - by apply swapBranch_othersStay.
  - apply fallThrough_othersStay.
  - apply fallThrough_othersStay.
Qed.

Lemma dragOverAll_othersStay h evs st : othersStay st (dragOverAll h evs st).
Proof.
  revert st. induction evs as [|[s evt] evs IH]; intros st; simpl.
  - apply othersStay_refl.
  - eapply othersStay_trans; [apply _onDragOver_othersStay|]. apply IH.
Qed.

(** Only the dragged item and the clone ever move.  Through any run of
    dragover events, on whatever instances, every other element keeps its
    parent and its place among the other children of that parent; the
    dragged item and the clone stay the same nodes.  Nothing is assumed of
    the document or of the session. *)
Theorem dragover_moves_only_the_item_and_the_clone h evs st :
  let st' := dragOverAll h evs st in
  dragEl st' = dragEl st
  ∧ cloneEl st' = cloneEl st
  ∧ ∀ p, filter (λ x, Some x ≠ dragEl st ∧ Some x ≠ cloneEl st) (children (dom st') p)
         = filter (λ x, Some x ≠ dragEl st ∧ Some x ≠ cloneEl st) (children (dom st) p).
Proof. apply dragOverAll_othersStay. Qed.

(** ** What a dragover leaves of the start of the drag *)

Lemma options_alter (f : Sortable → Sortable) x (m : gmap nat Sortable) s :
  (∀ y, options (f y) = options y) →
  options <$> alter f x m !! s = options <$> m !! s.
Proof.
  intros Hf. destruct (decide (x = s)) as [->|Hne].
  - rewrite lookup_alter_eq. destruct (m !! s); simpl; [by rewrite Hf|done].
  - by rewrite lookup_alter_ne.
Qed.

Lemma originKept_refl st : originKept st st.
Proof. unfold originKept. by split_and!. Qed.

Lemma originKept_trans st1 st2 st3 :
  originKept st1 st2 → originKept st2 st3 → originKept st1 st3.
Proof.
  unfold originKept. intros H12 H23.
  destruct_and!. split_and!; congruence.
Qed.

Lemma andThen_originKept {A B} st (o : Outcome A) (k : A → State → Outcome B) :
  originKept st (stateOf o) →
  (∀ a st1, originKept st1 (stateOf (k a st1))) →
  originKept st (stateOf (andThen o k)).
Proof.
  intros Ho Hk. destruct o as [a st1|st1]; simpl in *; [|done].
  eapply originKept_trans; [exact Ho|]. apply Hk.
Qed.

(** A state built from [st] by the setters of the placement. *)
Ltac kept_pure :=
  unfold originKept, optionsOf, Sortable_get, capture, changed, emit, updSortable,
    _isOutsideThisEl, swapDecisionState, latchSwapState, setInlineNone,
    domInsertBefore, domAppendChild, domRemoveChild;
  repeat (goal_match; simpl);
  (split_and!; try reflexivity; try congruence);
  intros; simpl;
  rewrite ?options_alter by (intros []; reflexivity);
  first [reflexivity | congruence].

Lemma domInsertBefore_originKept p n ref st :
  originKept st (stateOf (domInsertBefore p n ref st)).
Proof. kept_pure. Qed.

Lemma domAppendChild_originKept p n st :
  originKept st (stateOf (domAppendChild p n st)).
Proof. kept_pure. Qed.

Lemma domRemoveChild_originKept p n st :
  originKept st (stateOf (domRemoveChild p n st)).
Proof. kept_pure. Qed.

Lemma originKept_via st0 st st' :
  originKept st0 st → originKept st st' → originKept st0 st'.
Proof. apply originKept_trans. Qed.

Lemma _hideClone_originKept a st : originKept st (stateOf (_hideClone a st)).
Proof.
  unfold _hideClone.
  destruct (Sortable_get st a) as [this|]; [|apply originKept_refl].
  destruct (cloneHidden st); [apply originKept_refl|].
  destruct (Sortable_eventCanceled st); [apply originKept_refl|].
  set (st1 := match cloneEl st with Some c => _ | None => st end).
  assert (originKept st st1) as H1 by (unfold st1; kept_pure).
  apply (originKept_via st st1); [done|]. clearbody st1.
  destruct (removeCloneOnHide (options this)); [|simpl; kept_pure].
  destruct (cloneEl st1) as [c|]; [|apply originKept_refl].
  destruct (parentNode (dom st1) c) as [p|]; [|simpl; kept_pure].
  apply andThen_originKept; [apply domRemoveChild_originKept|].
  intros [] st2. simpl. kept_pure.
Qed.

Lemma _showClone_originKept a s st : originKept st (stateOf (_showClone a s st)).
Proof.
  unfold _showClone.
  destruct (Sortable_get st a) as [this|]; [|apply originKept_refl].
  destruct (Sortable_get st s) as [putS|]; [|apply originKept_refl].
  destruct (negb _); [apply _hideClone_originKept|].
  destruct (negb (cloneHidden st)); [apply originKept_refl|].
  destruct (Sortable_eventCanceled st); [apply originKept_refl|].
  destruct (dragEl st) as [d|] eqn:Hd; [|apply originKept_refl].
  cbv zeta.
  apply andThen_originKept.
  - repeat top_case; simpl; try apply originKept_refl;
      first [apply domInsertBefore_originKept | apply domAppendChild_originKept].
  - intros [] st1. destruct (group (options this)) as [g|]; simpl; [|apply originKept_refl].
    kept_pure.
Qed.

Lemma insertionEffects_originKept s isOwner act from target st :
  originKept st (stateOf (insertionEffects s isOwner act from target st)).
Proof.
  unfold insertionEffects.
  apply andThen_originKept.
  - destruct act as [a|]; [|apply originKept_refl].
    destruct isOwner; [apply _hideClone_originKept|apply _showClone_originKept].
  - intros [] st1. kept_pure.
Qed.

Lemma completed_originKept h s evt opts isOwner act from target insertion st :
  originKept st (stateOf (completed h s evt opts isOwner act from target insertion st)).
Proof.
  unfold completed.
  assert (∀ st1 ins, originKept st1 (stateOf (completedTail h s evt opts target ins st1)))
    as Htail.
  { intros st1 ins.
    destruct (completedTail_shape h s evt opts target ins st1) as (lt & new & -> & _).
    kept_pure. }
  destruct insertion; [|apply Htail].
  apply andThen_originKept; [apply insertionEffects_originKept|].
  intros [] st1. apply Htail.
Qed.

Lemma fallThrough_originKept h s evt opts isOwner act from target st :
  originKept st (stateOf (fallThrough h s evt opts isOwner act from target st)).
Proof.
  unfold fallThrough. destruct (contains _ _ _); [apply completed_originKept|].
  apply originKept_refl.
Qed.

Ltac kept_then lem :=
  eapply originKept_via; [|apply lem]; kept_pure.

Lemma revertBranch_originKept h s evt opts isOwner act from d target st :
  originKept st (stateOf (revertBranch h s evt opts isOwner act from d target st)).
Proof.
  unfold revertBranch. cbv zeta.
  apply andThen_originKept.
  { kept_then _hideClone_originKept. }
  intros [] st2.
  apply andThen_originKept.
  - repeat goal_match; simpl; try apply originKept_refl;
      first [apply domInsertBefore_originKept | apply domAppendChild_originKept].
  - intros [] st3. apply completed_originKept.
Qed.

Lemma endBranch_originKept h s evt opts isOwner act from d dragRect target elLastChild st :
  originKept st (stateOf (endBranch h s evt opts isOwner act from d dragRect
                            target elLastChild st)).
Proof.
  unfold endBranch.
  top_case; [apply completed_originKept|].
  cbv zeta. top_case.
  { kept_then fallThrough_originKept. }
  apply andThen_originKept.
  { top_case;
      [kept_then domInsertBefore_originKept | kept_then domAppendChild_originKept]. }
  intros [] st3. kept_then completed_originKept.
Qed.

Lemma startBranch_originKept h s evt opts isOwner act from d dragRect target st :
  originKept st (stateOf (startBranch h s evt opts isOwner act from d dragRect target st)).
Proof.
  unfold startBranch.
  top_case; [apply completed_originKept|].
  top_case; [|apply originKept_refl].
  cbv zeta. top_case.
  { kept_then fallThrough_originKept. }
  apply andThen_originKept.
  { kept_then domInsertBefore_originKept. }
  intros [] st3. kept_then completed_originKept.
Qed.

Lemma swapPlace_originKept h s evt opts isOwner act from d dragRect t vertical
    targetRect scrolled before direction st :
  originKept st
    (stateOf (swapPlace h s evt opts isOwner act from d dragRect t vertical
                targetRect scrolled before direction st)).
Proof.
  unfold swapPlace. cbv zeta.
  top_case.
  { kept_then fallThrough_originKept. }
  apply andThen_originKept.
  { top_case; [|top_case].
    - kept_then domAppendChild_originKept.
    - kept_then domInsertBefore_originKept.
    - simpl. kept_pure. }
  intros [] st6. kept_then completed_originKept.
Qed.

Lemma swapBranch_originKept h s evt opts isOwner act from d dragRect t vertical st :
  originKept st
    (stateOf (swapBranch h s evt opts isOwner act from d dragRect t vertical st)).
Proof.
  unfold swapBranch. cbv zeta.
  destruct (swapDecisionState_frame h s opts d dragRect t vertical st) as (inv & past & ->).
  top_case.
  - kept_then completed_originKept.
  - kept_then swapPlace_originKept.
Qed.

Lemma _onDragOver_originKept h s evt st :
  originKept st (stateOf (_onDragOver h s evt st)).
Proof.
  unfold _onDragOver.
  top_case; [|apply originKept_refl].
  cbv zeta.
  top_case; [apply originKept_refl|].
  top_case; [apply originKept_refl|].
  top_case; [apply completed_originKept|].
  destruct (permission _ _ _ _ _) as [[permitted revert] st1] eqn:Hperm.
  assert (originKept st st1) as H1.
  { destruct (permission_shape h s (options s0) evt (set_ignoreNextClick false st))
      as [H|[pull H]]; rewrite Hperm in H; simpl in H; subst st1; kept_pure. }
  apply (originKept_via st st1); [done|]. clear Hperm H1.
  top_case; [|apply originKept_refl].
  top_case; [|apply originKept_refl].
  top_case; [apply originKept_refl|].
  top_case; [apply revertBranch_originKept|].
  top_case; [apply endBranch_originKept|].
  top_case; [apply startBranch_originKept|].
  top_case; [top_case|].
  - apply swapBranch_originKept.
  - apply fallThrough_originKept.
  - apply fallThrough_originKept.
Qed.

Lemma dragOverAll_originKept h evs st : originKept st (dragOverAll h evs st).
Proof.
  revert st. induction evs as [|[s evt] evs IH]; intros st; simpl.
  - apply originKept_refl.
  - eapply originKept_trans; [apply _onDragOver_originKept|]. apply IH.
Qed.

(** A dragover never rewrites the start of the drag.  Through any run of
    dragover events the root the item came from, its next sibling there,
    both origin indices, the group and the recorded pointer-down stay as
    they were, the item, the ghost and the clone stay the same nodes, the
    active instance stays the active one, and no instance is registered,
    unregistered or given other options. *)
Theorem dragover_keeps_the_origin h evs st :
  let st' := dragOverAll h evs st in
  dragEl st' = dragEl st
  ∧ rootEl st' = rootEl st
  ∧ nextEl st' = nextEl st
  ∧ oldIndex st' = oldIndex st
  ∧ oldDraggableIndex st' = oldDraggableIndex st
  ∧ activeGroup st' = activeGroup st
  ∧ lastDownEl st' = lastDownEl st
  ∧ tapEvt st' = tapEvt st
  ∧ moved st' = moved st
  ∧ awaitingDragStarted st' = awaitingDragStarted st
  ∧ ghostEl st' = ghostEl st
  ∧ cloneEl st' = cloneEl st
  ∧ savedInputChecked st' = savedInputChecked st
  ∧ Sortable_dragged st' = Sortable_dragged st
  ∧ Sortable_ghost st' = Sortable_ghost st
  ∧ Sortable_clone st' = Sortable_clone st
  ∧ Sortable_active st' = Sortable_active st
  ∧ Sortable_eventCanceled st' = Sortable_eventCanceled st
  ∧ sortables st' = sortables st
  ∧ ∀ s, optionsOf st' s = optionsOf st s.
Proof. apply dragOverAll_originKept. Qed.

(** ** The flag of the clone *)

Lemma insertBefore_inlineNone d p n ref d' :
  insertBefore d p n ref = Some d' → inlineNone d' = inlineNone d.
Proof.
  unfold insertBefore, appendChild. intros Hi.
  repeat match type of Hi with
         | context [match ?x with _ => _ end] => destruct x
         end; by simplify_eq.
Qed.

Lemma appendChild_inlineNone d p n d' :
  appendChild d p n = Some d' → inlineNone d' = inlineNone d.
Proof. unfold appendChild. intros Hi. destruct (contains _ _ _); by simplify_eq. Qed.

Lemma removeChild_inlineNone d p n d' :
  removeChild d p n = Some d' → inlineNone d' = inlineNone d.
Proof. unfold removeChild. intros Hi. destruct (decide _); by simplify_eq. Qed.

Lemma keepsCloneFlag_same st st' :
  cloneEl st' = cloneEl st → cloneHidden st' = cloneHidden st →
  inlineNone (dom st') = inlineNone (dom st) →
  keepsCloneFlag st st'.
Proof.
  intros Hc Hh Hi. split; [done|]. unfold cloneFlagSound.
  rewrite Hc, Hh, Hi. done.
Qed.

Lemma keepsCloneFlag_refl st : keepsCloneFlag st st.
Proof. by split. Qed.

Lemma keepsCloneFlag_trans st1 st2 st3 :
  keepsCloneFlag st1 st2 → keepsCloneFlag st2 st3 → keepsCloneFlag st1 st3.
Proof.
  intros [Hc12 H12] [Hc23 H23]. split; [congruence|auto].
Qed.

Lemma andThen_keepsCloneFlag {A B} st (o : Outcome A) (k : A → State → Outcome B) :
  keepsCloneFlag st (stateOf o) →
  (∀ a st1, keepsCloneFlag st1 (stateOf (k a st1))) →
  keepsCloneFlag st (stateOf (andThen o k)).
Proof.
  intros Ho Hk. destruct o as [a st1|st1]; simpl in *; [|done].
  eapply keepsCloneFlag_trans; [exact Ho|]. apply Hk.
Qed.

(** A state built from [st] by the setters of the placement. *)
Ltac flag_pure :=
  apply keepsCloneFlag_same;
  unfold capture, changed, emit, updSortable, _isOutsideThisEl, swapDecisionState,
    latchSwapState;
  repeat (goal_match; simpl);
  reflexivity.

Lemma domInsertBefore_keepsCloneFlag p n ref st :
  keepsCloneFlag st (stateOf (domInsertBefore p n ref st)).
Proof.
  unfold domInsertBefore. destruct (insertBefore _ _ _ _) eqn:Hi; simpl;
    [|apply keepsCloneFlag_refl].
  apply keepsCloneFlag_same; simpl; [done|done|]. by eapply insertBefore_inlineNone.
Qed.

Lemma domAppendChild_keepsCloneFlag p n st :
  keepsCloneFlag st (stateOf (domAppendChild p n st)).
Proof.
  unfold domAppendChild. destruct (appendChild _ _ _) eqn:Hi; simpl;
    [|apply keepsCloneFlag_refl].
  apply keepsCloneFlag_same; simpl; [done|done|]. by eapply appendChild_inlineNone.
Qed.

Lemma domRemoveChild_keepsCloneFlag p n st :
  keepsCloneFlag st (stateOf (domRemoveChild p n st)).
Proof.
  unfold domRemoveChild. destruct (removeChild _ _ _) eqn:Hi; simpl;
    [|apply keepsCloneFlag_refl].
  apply keepsCloneFlag_same; simpl; [done|done|]. by eapply removeChild_inlineNone.
Qed.

Lemma keepsCloneFlag_via st0 st st' :
  keepsCloneFlag st0 st → keepsCloneFlag st st' → keepsCloneFlag st0 st'.
Proof. apply keepsCloneFlag_trans. Qed.

Lemma keepsCloneFlag_none st st' :
  cloneEl st = None → cloneEl st' = None → keepsCloneFlag st st'.
Proof.
  intros H0 H1. split; [congruence|]. intros _ c Hc. congruence.
Qed.

Lemma keepsCloneFlag_hidden st st' c :
  cloneEl st = Some c → cloneEl st' = Some c →
  cloneHidden st' = true → c ∈ inlineNone (dom st') →
  keepsCloneFlag st st'.
Proof.
  intros H0 H1 Hh Hi. split; [congruence|]. intros _ c' Hc'.
  assert (c' = c) as -> by congruence. by rewrite Hh.
Qed.

Lemma keepsCloneFlag_shown st st' c :
  cloneEl st = Some c → cloneEl st' = Some c →
  cloneHidden st' = false → c ∉ inlineNone (dom st') →
  keepsCloneFlag st st'.
Proof.
  intros H0 H1 Hh Hi. split; [congruence|]. intros _ c' Hc'.
  assert (c' = c) as -> by congruence. rewrite Hh. split; [done|]. intros; contradiction.
Qed.

Lemma _hideClone_keepsCloneFlag a st : keepsCloneFlag st (stateOf (_hideClone a st)).
Proof.
  unfold _hideClone.
  destruct (Sortable_get st a) as [this|]; [|apply keepsCloneFlag_refl].
  destruct (cloneHidden st); [apply keepsCloneFlag_refl|].
  destruct (Sortable_eventCanceled st); [apply keepsCloneFlag_refl|].
  destruct (cloneEl st) as [c|] eqn:Hc.
  2: { apply keepsCloneFlag_none; [done|].
       rewrite Hc. destruct (removeCloneOnHide (options this)); simpl; done. }
  assert (c ∈ inlineNone (setInlineNone c true (dom st))) as Hin
    by (simpl; set_solver).
  destruct (removeCloneOnHide (options this)).
  - cbn [cloneEl set_dom]. rewrite Hc.
    destruct (parentNode _ c) as [p|] eqn:Hp.
    + apply parentNode_children in Hp.
      unfold domRemoveChild, removeChild. cbn [dom set_dom].
      destruct (decide (c ∈ children (setInlineNone c true (dom st)) p)); [|done].
      simpl. by eapply keepsCloneFlag_hidden.
    + simpl. by eapply keepsCloneFlag_hidden.
  - simpl. by eapply keepsCloneFlag_hidden.
Qed.

Lemma _showClone_keepsCloneFlag a s st : keepsCloneFlag st (stateOf (_showClone a s st)).
Proof.
  unfold _showClone.
  destruct (Sortable_get st a) as [this|]; [|apply keepsCloneFlag_refl].
  destruct (Sortable_get st s) as [putS|]; [|apply keepsCloneFlag_refl].
  destruct (negb _); [apply _hideClone_keepsCloneFlag|].
  destruct (negb (cloneHidden st)); [apply keepsCloneFlag_refl|].
  destruct (Sortable_eventCanceled st); [apply keepsCloneFlag_refl|].
  destruct (dragEl st) as [d|] eqn:Hd; [|apply keepsCloneFlag_refl].
  cbv zeta.
  apply andThen_keepsCloneFlag.
  - repeat top_case; simpl; try apply keepsCloneFlag_refl;
      first [apply domInsertBefore_keepsCloneFlag | apply domAppendChild_keepsCloneFlag].
  - intros [] st1. destruct (group (options this)) as [g|]; simpl;
      [|apply keepsCloneFlag_refl].
    set (st2 := if revertClone g then _ else st1).
    assert (cloneEl st2 = cloneEl st1 ∧ dom st2 = dom st1) as [Hc2 Hd2]
      by (unfold st2; destruct (revertClone g); done).
    clearbody st2.
    destruct (cloneEl st1) as [c|] eqn:Hc1.
    + rewrite Hc2. eapply keepsCloneFlag_shown; [done|simpl; done|done|].
      simpl. set_solver.
    + rewrite Hc2. by apply keepsCloneFlag_none.
Qed.

Lemma insertionEffects_keepsCloneFlag s isOwner act from target st :
  keepsCloneFlag st (stateOf (insertionEffects s isOwner act from target st)).
Proof.
  unfold insertionEffects.
  apply andThen_keepsCloneFlag.
  - destruct act as [a|]; [|apply keepsCloneFlag_refl].
    destruct isOwner; [apply _hideClone_keepsCloneFlag|apply _showClone_keepsCloneFlag].
  - intros [] st1. flag_pure.
Qed.

Lemma completed_keepsCloneFlag h s evt opts isOwner act from target insertion st :
  keepsCloneFlag st (stateOf (completed h s evt opts isOwner act from target insertion st)).
Proof.
  unfold completed.
  assert (∀ st1 ins, keepsCloneFlag st1 (stateOf (completedTail h s evt opts target ins st1)))
    as Htail.
  { intros st1 ins.
    destruct (completedTail_shape h s evt opts target ins st1) as (lt & new & -> & _).
    flag_pure. }
  destruct insertion; [|apply Htail].
  apply andThen_keepsCloneFlag; [apply insertionEffects_keepsCloneFlag|].
  intros [] st1. apply Htail.
Qed.

Lemma fallThrough_keepsCloneFlag h s evt opts isOwner act from target st :
  keepsCloneFlag st (stateOf (fallThrough h s evt opts isOwner act from target st)).
Proof.
  unfold fallThrough. destruct (contains _ _ _); [apply completed_keepsCloneFlag|].
  apply keepsCloneFlag_refl.
Qed.

Ltac flag_then lem :=
  eapply keepsCloneFlag_via; [|apply lem]; flag_pure.

Lemma revertBranch_keepsCloneFlag h s evt opts isOwner act from d target st :
  keepsCloneFlag st (stateOf (revertBranch h s evt opts isOwner act from d target st)).
Proof.
  unfold revertBranch. cbv zeta.
  apply andThen_keepsCloneFlag.
  { flag_then _hideClone_keepsCloneFlag. }
  intros [] st2.
  apply andThen_keepsCloneFlag.
  - repeat goal_match; simpl; try apply keepsCloneFlag_refl;
      first [apply domInsertBefore_keepsCloneFlag | apply domAppendChild_keepsCloneFlag].
  - intros [] st3. apply completed_keepsCloneFlag.
Qed.

Lemma endBranch_keepsCloneFlag h s evt opts isOwner act from d dragRect target elLastChild st :
  keepsCloneFlag st (stateOf (endBranch h s evt opts isOwner act from d dragRect
                            target elLastChild st)).
Proof.
  unfold endBranch.
  top_case; [apply completed_keepsCloneFlag|].
  cbv zeta. top_case.
  { flag_then fallThrough_keepsCloneFlag. }
  apply andThen_keepsCloneFlag.
  { top_case;
      [flag_then domInsertBefore_keepsCloneFlag | flag_then domAppendChild_keepsCloneFlag]. }
  intros [] st3. flag_then completed_keepsCloneFlag.
Qed.

Lemma startBranch_keepsCloneFlag h s evt opts isOwner act from d dragRect target st :
  keepsCloneFlag st (stateOf (startBranch h s evt opts isOwner act from d dragRect target st)).
Proof.
  unfold startBranch.
  top_case; [apply completed_keepsCloneFlag|].
  top_case; [|apply keepsCloneFlag_refl].
  cbv zeta. top_case.
  { flag_then fallThrough_keepsCloneFlag. }
  apply andThen_keepsCloneFlag.
  { flag_then domInsertBefore_keepsCloneFlag. }
  intros [] st3. flag_then completed_keepsCloneFlag.
Qed.

Lemma swapPlace_keepsCloneFlag h s evt opts isOwner act from d dragRect t vertical
    targetRect scrolled before direction st :
  keepsCloneFlag st
    (stateOf (swapPlace h s evt opts isOwner act from d dragRect t vertical
                targetRect scrolled before direction st)).
Proof.
  unfold swapPlace. cbv zeta.
  top_case.
  { flag_then fallThrough_keepsCloneFlag. }
  apply andThen_keepsCloneFlag.
  { top_case; [|top_case].
    - flag_then domAppendChild_keepsCloneFlag.
    - flag_then domInsertBefore_keepsCloneFlag.
    - simpl. flag_pure. }
  intros [] st6. flag_then completed_keepsCloneFlag.
Qed.

Lemma swapBranch_keepsCloneFlag h s evt opts isOwner act from d dragRect t vertical st :
  keepsCloneFlag st
    (stateOf (swapBranch h s evt opts isOwner act from d dragRect t vertical st)).
Proof.
  unfold swapBranch. cbv zeta.
  destruct (swapDecisionState_frame h s opts d dragRect t vertical st) as (inv & past & ->).
  top_case.
  - flag_then completed_keepsCloneFlag.
  - flag_then swapPlace_keepsCloneFlag.
Qed.

Lemma _onDragOver_keepsCloneFlag h s evt st :
  keepsCloneFlag st (stateOf (_onDragOver h s evt st)).
Proof.
  unfold _onDragOver.
  top_case; [|apply keepsCloneFlag_refl].
  cbv zeta.
  top_case; [apply keepsCloneFlag_refl|].
  top_case; [apply keepsCloneFlag_refl|].
  top_case; [apply completed_keepsCloneFlag|].
  destruct (permission _ _ _ _ _) as [[permitted revert] st1] eqn:Hperm.
  assert (keepsCloneFlag st st1) as H1.
  { destruct (permission_shape h s (options s0) evt (set_ignoreNextClick false st))
      as [H|[pull H]]; rewrite Hperm in H; simpl in H; subst st1; flag_pure. }
  apply (keepsCloneFlag_via st st1); [done|]. clear Hperm H1.
  top_case; [|apply keepsCloneFlag_refl].
  top_case; [|apply keepsCloneFlag_refl].
  top_case; [apply keepsCloneFlag_refl|].
  top_case; [apply revertBranch_keepsCloneFlag|].
  top_case; [apply endBranch_keepsCloneFlag|].
  top_case; [apply startBranch_keepsCloneFlag|].
  top_case; [top_case|].
  - apply swapBranch_keepsCloneFlag.
  - apply fallThrough_keepsCloneFlag.
  - apply fallThrough_keepsCloneFlag.
Qed.

Lemma dragOverAll_keepsCloneFlag h evs st : keepsCloneFlag st (dragOverAll h evs st).
Proof.
  revert st. induction evs as [|[s evt] evs IH]; intros st; simpl.
  - apply keepsCloneFlag_refl.
  - eapply keepsCloneFlag_trans; [apply _onDragOver_keepsCloneFlag|]. apply IH.
Qed.

(** Through any run of dragover events the clone stays the same node and
    the flag [cloneHidden] keeps telling the truth about it: when it was set
    exactly while the clone carried the inline style [display: none], it
    still is afterwards. *)
Theorem dragover_keeps_clone_flag_sound h evs st :
  cloneFlagSound st →
  cloneFlagSound (dragOverAll h evs st).
Proof. apply dragOverAll_keepsCloneFlag. Qed.

Lemma dragover_keeps_clone_flag_sound_witness :
  cloneFlagSound (dragOverAll exCloneHost [(2%nat, exOver 20 5)] exHiddenClone).
Proof.
  apply (dragover_keeps_clone_flag_sound exCloneHost [(2%nat, exOver 20 5)] exHiddenClone).
  intros c Hc. vm_compute in Hc. injection Hc as <-.
  split; [intros _; vm_compute; set_solver|reflexivity].
Defined.

(** ** Construction on a value that is not an element *)

(** The constructor refuses, before anything is written, every value that
    is missing or whose [nodeType] is not 1.  On an element it registers
    the instance at the root and lists the root, whatever follows, and does
    not end in that refusal. *)
Theorem constructor_rejects_non_element h el o st :
  (passesElementTest el = false → Sortable_new h el o st = Throws st)
  ∧ (∀ root,
       let st' := stateOf (Sortable_new h (JsElement root) o st) in
       passesElementTest (JsElement root) = true
       ∧ sortables st' = sortables st ++ [root]
       ∧ is_Some (Sortable_get st' root)
       ∧ dom st' = dom st
       ∧ Sortable_new h (JsElement root) o st ≠ Throws st).
Proof.
  split.
  - destruct el as [|root|[[|[]|]|]]; simpl; done.
  - intros root st'.
    destruct (Sortable_new_registry h (JsElement root) o st) as [_ Hs].
    cbv zeta in Hs.
    change (constructedRoots [RegNew (JsElement root) o]) with [root] in Hs.
    fold st' in Hs.
    assert (is_Some (Sortable_get st' root) ∧ dom st' = dom st) as [Hi Hd].
    { unfold st', Sortable_new. cbv zeta.
      destruct (store _) as [sto|]; [destruct (hasGet sto)|];
        (split; [|done]); unfold Sortable_get; simpl; rewrite lookup_insert_eq;
        by eexists. }
    split_and!; try done.
    intros Heq. unfold st' in Hs. rewrite Heq in Hs. simpl in Hs.
    apply (f_equal length) in Hs. rewrite length_app in Hs. simpl in Hs. lia.
Qed.

Lemma constructor_rejects_non_element_witness :
  Sortable_new (exHost exSwap (λ _, MvOther)) (JsOther (Some 3)) noOptions exIdle
  = Throws exIdle
  ∧ Sortable_new (exHost exSwap (λ _, MvOther)) JsNullish noOptions exIdle = Throws exIdle
  ∧ Sortable_new (exHost exSwap (λ _, MvOther)) (JsOther None) noOptions exIdle
    = Throws exIdle.
Proof.
  split; [|split].
  - apply (constructor_rejects_non_element (exHost exSwap (λ _, MvOther))
             (JsOther (Some 3)) noOptions exIdle). reflexivity.
  - apply (constructor_rejects_non_element (exHost exSwap (λ _, MvOther))
             JsNullish noOptions exIdle). reflexivity.
  - apply (constructor_rejects_non_element (exHost exSwap (λ _, MvOther))
             (JsOther None) noOptions exIdle). reflexivity.
Defined.

(** ** The walk beside the dragged item *)

Lemma passedOver_test pg d ghost x :
  cssDisplayNone pg d x || bool_decide (Some x = ghost) = true ↔ passedOver pg d ghost x.
Proof. unfold passedOver. by rewrite orb_true_iff, bool_decide_eq_true. Qed.

Lemma head_filter_Some {A} (P : A → Prop) `{!∀ x, Decision (P x)} (l : list A) t :
  head (filter P l) = Some t
  ↔ ∃ mid l2, l = mid ++ t :: l2 ∧ Forall (λ x, ¬ P x) mid ∧ P t.
Proof.
  induction l as [|x l IH].
  - split; [done|]. intros (mid & l2 & Hl & _). by destruct mid.
  - destruct (decide (P x)) as [Hx|Hx].
    + rewrite filter_cons_True by done. simpl. split.
      * intros [= ->]. by exists [], l.
      * intros (mid & l2 & Hl & Hmid & Ht). destruct mid as [|y mid].
        -- simpl in Hl. by simplify_eq.
        -- simpl in Hl. simplify_eq. by apply Forall_cons in Hmid as [? _].
    + rewrite filter_cons_False by done. rewrite IH. split.
      * intros (mid & l2 & -> & Hmid & Ht). exists (x :: mid), l2.
        split; [done|]. split; [by constructor|done].
      * intros (mid & l2 & Hl & Hmid & Ht). destruct mid as [|y mid].
        -- simpl in Hl. by simplify_eq.
        -- simpl in Hl. simplify_eq. apply Forall_cons in Hmid as [_ Hmid].
           by exists mid, l2.
Qed.

(** Stepping up from the item: the walk ends on the first of the later
    siblings that is not passed over. *)
Lemma besideLoop_forward pg d ghost rest :
  ∀ pre fuel,
    (length rest < fuel)%nat →
    besideLoop fuel pg d ghost (pre ++ rest) (-1) (Z.of_nat (length pre) - 1)
    = head (filter (λ x, ¬ passedOver pg d ghost x) rest).
Proof.
  induction rest as [|x rest IH]; intros pre fuel Hf.
  - destruct fuel as [|fuel]; [simpl in Hf; lia|]. simpl.
    replace (Z.of_nat (length pre) - 1 - -1) with (Z.of_nat (length pre)) by lia.
    assert ((Z.of_nat (length pre) <? 0) = false) as -> by (apply Z.ltb_ge; lia).
    rewrite Nat2Z.id, app_nil_r. by rewrite lookup_ge_None_2.
  - destruct fuel as [|fuel]; [simpl in Hf; lia|]. simpl besideLoop.
    replace (Z.of_nat (length pre) - 1 - -1) with (Z.of_nat (length pre)) by lia.
    assert ((Z.of_nat (length pre) <? 0) = false) as -> by (apply Z.ltb_ge; lia).
    rewrite Nat2Z.id, lookup_app_r, Nat.sub_diag by lia. simpl.
    destruct (cssDisplayNone pg d x || bool_decide (Some x = ghost)) eqn:E.
    + apply passedOver_test in E.
      rewrite filter_cons_False by (intros H; by apply H).
      specialize (IH (pre ++ [x]) fuel).
      rewrite <- app_assoc, length_app in IH. simpl in IH.
      replace (Z.of_nat (length pre + 1) - 1) with (Z.of_nat (length pre)) in IH by lia.
      apply IH. simpl in Hf. lia.
    + rewrite filter_cons_True; [done|].
      intros H%passedOver_test. congruence.
Qed.

(** Stepping down from the item: the walk ends on the nearest of the
    earlier siblings that is not passed over. *)
Lemma besideLoop_backward pg d ghost pre :
  ∀ post fuel,
    (length pre < fuel)%nat →
    besideLoop fuel pg d ghost (pre ++ post) 1 (Z.of_nat (length pre))
    = head (filter (λ x, ¬ passedOver pg d ghost x) (reverse pre)).
Proof.
  induction pre as [|x pre IH] using rev_ind; intros post fuel Hf.
  - destruct fuel as [|fuel]; [simpl in Hf; lia|]. done.
  - destruct fuel as [|fuel]; [simpl in Hf; lia|]. simpl besideLoop.
    rewrite length_app in *. simpl in *.
    replace (Z.of_nat (length pre + 1) - 1) with (Z.of_nat (length pre)) by lia.
    assert ((Z.of_nat (length pre) <? 0) = false) as -> by (apply Z.ltb_ge; lia).
    rewrite Nat2Z.id, <- app_assoc, lookup_app_r, Nat.sub_diag by lia. simpl.
    rewrite reverse_app. simpl.
    destruct (cssDisplayNone pg d x || bool_decide (Some x = ghost)) eqn:E.
    + apply passedOver_test in E.
      rewrite filter_cons_False by (intros H; by apply H).
      apply IH. lia.
    + rewrite filter_cons_True; [done|].
      intros H%passedOver_test. congruence.
Qed.

Lemma filter_always_in {A} (P : A → Prop) `{!∀ x, Decision (P x)} (l : list A) :
  (∀ x, x ∈ l → P x) → filter P l = l.
Proof.
  induction l as [|a l IH]; intros Hall; [done|].
  rewrite filter_cons_True by (apply Hall; left).
  f_equal. apply IH. intros x Hx. apply Hall. by right.
Qed.

Lemma NoDup_split_unique (d : nat) l1 r l1' r' :
  NoDup (l1 ++ d :: r) → l1 ++ d :: r = l1' ++ d :: r' → l1 = l1' ∧ r = r'.
Proof.
  intros Hnd Heq.
  assert (length l1 = length l1') as Hlen.
  { apply (NoDup_lookup (l1 ++ d :: r) _ _ d Hnd).
    - by rewrite lookup_app_r, Nat.sub_diag by lia.
    - rewrite Heq. by rewrite lookup_app_r, Nat.sub_diag by lia. }
  apply app_inj_1 in Heq as [-> Heq]; [|done]. by simplify_eq.
Qed.

Lemma index_is_position pg d clone p l1 n l2 :
  wfDom d → kids d !! p = Some (l1 ++ n :: l2) → allCounted pg clone l1 →
  index pg d clone (Some n) None = Z.of_nat (length l1).
Proof.
  intros Hwf Hk Hall. unfold index.
  assert (n ∈ children d p) as Hin.
  { unfold children. rewrite Hk. simpl. apply elem_of_app. right. by left. }
  rewrite (wfDom_parentNode_children d n p Hwf Hin).
  rewrite (indexLoop_prefix pg d clone None p l1 Hwf n l2 _ 0 Hk).
  - rewrite Z.add_0_l. f_equal. f_equal.
    assert (filter (counted pg clone None) l1 = l1) as ->; [|done].
    apply filter_always_in. intros c Hc.
    unfold allCounted in Hall. rewrite Forall_forall in Hall.
    destruct (Hall c Hc) as [H1 H2]. done.
  - unfold children. rewrite Hk. simpl. rewrite length_app. lia.
Qed.

(** The walk, read as a reader would: with every sibling before the
    dragged item counted by [index], it ends on the target exactly when
    the item already stands beside the target on the side the direction
    names. *)
Lemma beside_stands h st p d t direction l1 l2 :
  wfDom (dom st) →
  parentEl st = Some p → dragEl st = Some d →
  kids (dom st) !! p = Some (l1 ++ d :: l2) →
  allCounted (page h) (Sortable_clone st) l1 →
  direction = 1 ∨ direction = -1 →
  ¬ passedOver (page h) (dom st) (ghostEl st) t →
  beside h st direction = Some t
  ↔ standsBeside (page h) (dom st) (ghostEl st) (l1 ++ d :: l2) d t direction.
Proof.
  intros Hwf Hp Hd Hk Hall Hdir Ht.
  assert (children (dom st) p = l1 ++ d :: l2) as Hcs
    by (unfold children; by rewrite Hk).
  assert (NoDup (l1 ++ d :: l2)) as Hnd
    by (rewrite <- Hcs; by apply wfDom_children_NoDup).
  unfold beside. rewrite Hp, Hd, Hcs.
  rewrite (index_is_position (page h) (dom st) (Sortable_clone st) p l1 d l2) by done.
  destruct Hdir as [-> | ->].
  - rewrite (besideLoop_backward _ _ _ l1 (d :: l2))
      by (rewrite length_app; simpl; lia).
    rewrite head_filter_Some. split.
    + intros (mid & r & Hrev & Hmid & _).
      exists (reverse r), (reverse mid), l2. split.
      * apply Forall_reverse. eapply Forall_impl; [exact Hmid|].
        intros x Hx. simpl in Hx. by destruct (decide (passedOver (page h) (dom st) (ghostEl st) x)).
      * right. split; [done|].
        apply (f_equal reverse) in Hrev.
        rewrite reverse_involutive, reverse_app, reverse_cons in Hrev.
        rewrite Hrev, <- !app_assoc. done.
    + intros (l1' & mid & l2' & Hmid & [[Hc _]|[_ Heq]]); [lia|].
      replace (l1' ++ t :: mid ++ d :: l2') with ((l1' ++ t :: mid) ++ d :: l2') in Heq
        by (by rewrite <- app_assoc).
      apply NoDup_split_unique in Heq as [-> ->]; [|done].
      exists (reverse mid), (reverse l1'). split_and!; [|by apply Forall_reverse; eapply Forall_impl; [exact Hmid|]; intros x Hx Hn|done].
      by rewrite reverse_app, reverse_cons, <- app_assoc.
  - replace (Z.of_nat (length l1)) with (Z.of_nat (length (l1 ++ [d])) - 1)
      by (rewrite length_app; simpl; lia).
    rewrite (cons_middle d l1 l2), app_assoc.
    rewrite (besideLoop_forward _ _ _ l2 (l1 ++ [d]))
      by (rewrite !length_app; simpl; lia).
    rewrite head_filter_Some. rewrite <- app_assoc, <- cons_middle. split.
    + intros (mid & r & -> & Hmid & _).
      exists l1, mid, r. split.
      * eapply Forall_impl; [exact Hmid|].
        intros x Hx. simpl in Hx. by destruct (decide (passedOver (page h) (dom st) (ghostEl st) x)).
      * by left.
    + intros (l1' & mid & l2' & Hmid & [[_ Heq]|[Hc _]]); [|lia].
      apply NoDup_split_unique in Heq as [-> ->]; [|done].
      exists mid, l2'. split_and!; [done| |done].
      eapply Forall_impl; [exact Hmid|]. by intros x Hx Hn.
Qed.

Lemma swapPlace_asks h s evt opts isOwner act from d dragRect t vertical
    targetRect scrolled before direction st :
  let st' := stateOf (swapPlace h s evt opts isOwner act from d dragRect t vertical
                        targetRect scrolled before direction st) in
  lastDirection st' = Some direction
  ∧ ∃ a mv new,
      log st' = new ++ EMove a mv :: log st
      ∧ mvDragEl a = Some d ∧ mvTarget a = Some t
      ∧ mvWillInsertAfter a = (direction =? 1).
Proof.
  unfold swapPlace. cbv zeta.
  destruct (onMove h _) eqn:Hmv; simpl isVetoed; cbv iota.
  { match goal with
    | |- context [fallThrough ?h ?s ?evt ?opts ?o ?a ?f ?tg ?st1] =>
        destruct (fallThrough_shape h s evt opts o a f tg st1) as (lt & new & -> & Hn)
    end.
    split; [done|]. eexists _, _, new. split; [reflexivity|]. done. }
  all: match goal with
       | |- context [stateOf ?o] =>
           match o with
           | context [capture _ _ ?st4] =>
               assert (quietStep st4 (stateOf o)) as ((new & Hl & Hf) & _ & _ & _ & Hld & _)
           end
       end.
  all: try (eapply quietStep_trans; [|quiet_commit]; quiet_pure).
  all: split; [by rewrite Hld|].
  all: eexists _, _, new; split; [rewrite Hl; reflexivity|done].
Qed.

(** When every sibling before the dragged item is counted by [index], the
    test of a mid-list swap does what its comment says.  An item that
    already stands beside the target on the side the direction names, with
    nothing in between but hidden elements and the ghost, is left alone:
    the document is as it was, the move hook is not asked and no direction
    is recorded.  An item that does not stand there goes on to the move
    hook, which is asked about this item and this target. *)
Theorem item_beside_target_is_left_alone h s evt opts isOwner act from d dragRect t
    vertical st p l1 l2 :
  let st1 := swapDecisionState h s opts d dragRect t vertical st in
  let direction := swapDirection h s evt opts d dragRect t vertical st in
  let o := swapBranch h s evt opts isOwner act from d dragRect t vertical st in
  let st' := stateOf o in
  let beside_ := standsBeside (page h) (dom st) (ghostEl st) (l1 ++ d :: l2) d t direction in
  wfDom (dom st) →
  parentEl st = Some p → dragEl st = Some d →
  kids (dom st) !! p = Some (l1 ++ d :: l2) →
  allCounted (page h) (Sortable_clone st) l1 →
  direction = 1 ∨ direction = -1 →
  ¬ passedOver (page h) (dom st) (ghostEl st) t →
  (beside_ →
   o = completed h s evt opts isOwner act from (Some t) false st1
   ∧ dom st' = dom st
   ∧ lastDirection st' = lastDirection st
   ∧ ∃ new, log st' = new ++ log st ∧ (new = [] ∨ new = [EDetectEmpty evt]))
  ∧ (¬ beside_ →
     lastDirection st' = Some direction
     ∧ ∃ a mv new,
         log st' = new ++ EMove a mv :: log st
         ∧ mvDragEl a = Some d ∧ mvTarget a = Some t
         ∧ mvWillInsertAfter a = (direction =? 1)).
Proof.
  intros st1 direction o st' beside_ Hwf Hp Hd Hk Hall Hdir Ht.
  assert (beside h st1 direction = Some t ↔ beside_) as Hwalk.
  { unfold st1.
    destruct (swapDecisionState_frame h s opts d dragRect t vertical st) as (inv & past & ->).
    exact (beside_stands h (set_isCircumstantialInvert inv (set_pastFirstInvertThresh past st))
             p d t direction l1 l2 Hwf Hp Hd Hk Hall Hdir Ht). }
  assert ((direction =? 0) = false) as Hnz by (apply Z.eqb_neq; lia).
  split.
  - intros Hb. apply Hwalk in Hb.
    assert (o = completed h s evt opts isOwner act from (Some t) false st1) as Heq.
    { unfold o, swapBranch. cbv zeta. fold st1 direction.
      rewrite Hnz, Hb. simpl. by rewrite bool_decide_eq_true_2. }
    split; [done|]. unfold st'. rewrite Heq.
    destruct (completed_false_shape h s evt opts isOwner act from (Some t) st1)
      as (lt & new & -> & Hn).
    split_and!.
    + unfold st1. frame_solve.
    + unfold st1. frame_solve.
    + exists new. split; [|done]. unfold st1. frame_solve.
  - intros Hnb.
    assert (beside h st1 direction ≠ Some t) as Hne by (intros Hb; by apply Hnb, Hwalk).
    unfold st', o, swapBranch. cbv zeta. fold st1 direction.
    rewrite Hnz. simpl. rewrite bool_decide_eq_false_2 by done.
    match goal with
    | |- context [swapPlace ?h ?s ?evt ?opts ?io ?a ?f ?d ?dr ?t ?v ?tr ?sc ?bf ?dir ?st1] =>
        destruct (swapPlace_asks h s evt opts io a f d dr t v tr sc bf dir st1)
          as (Hld & a' & mv & new & Hl & Ha)
    end.
    split; [exact Hld|]. exists a', mv, new. split; [|exact Ha].
    rewrite Hl. unfold st1. f_equal. f_equal. frame_solve.
Qed.

Lemma item_beside_target_is_left_alone_witness :
  let h := exHost exSwap (λ _, MvOther) in
  let evt := exOver 11 25 in
  let st1 := swapDecisionState h 1 (exOptions 1) 10 (exRect exDragging 10) 11 true exDragging in
  let direction := swapDirection h 1 evt (exOptions 1) 10 (exRect exDragging 10) 11 true
                     exDragging in
  let o := swapBranch h 1 evt (exOptions 1) true (Some 1%nat) (Some 1%nat) 10
             (exRect exDragging 10) 11 true exDragging in
  let st' := stateOf o in
  let beside_ := standsBeside (page h) (dom exDragging) (ghostEl exDragging)
                   ([] ++ 10%nat :: [11; 12]%nat) 10 11 direction in
  (beside_ →
   o = completed h 1 evt (exOptions 1) true (Some 1%nat) (Some 1%nat) (Some 11%nat) false st1
   ∧ dom st' = dom exDragging
   ∧ lastDirection st' = lastDirection exDragging
   ∧ ∃ new, log st' = new ++ log exDragging ∧ (new = [] ∨ new = [EDetectEmpty evt]))
  ∧ (¬ beside_ →
     lastDirection st' = Some direction
     ∧ ∃ a mv new,
         log st' = new ++ EMove a mv :: log exDragging
         ∧ mvDragEl a = Some 10%nat ∧ mvTarget a = Some 11%nat
         ∧ mvWillInsertAfter a = (direction =? 1)).
Proof.
  cbv zeta.
  apply (item_beside_target_is_left_alone (exHost exSwap (λ _, MvOther)) 1%nat (exOver 11 25)
           (exOptions 1) true (Some 1%nat) (Some 1%nat) 10%nat (exRect exDragging 10)
           11%nat true exDragging 1%nat [] [11; 12]%nat).
  - exact wfDom_exDom.
  - reflexivity.
  - reflexivity.
  - vm_compute. reflexivity.
  - constructor.
  - right. vm_compute. reflexivity.
  - intros [H|H]; vm_compute in H; discriminate.
Defined.

(** The item [10] stands before [11], and the pointer in the upper half of
    [11] asks for that side: nothing is done. *)
Example item_beside_target_example :
  let h := exHost exSwap (λ _, MvOther) in
  standsBeside (page h) (dom exDragging) (ghostEl exDragging) [10; 11; 12]%nat 10 11 (-1)
  ∧ log (stateOf (_onDragOver h 1 (exOver 11 25) exDragging)) = [EDetectEmpty (exOver 11 25)]
  ∧ dom (stateOf (_onDragOver h 1 (exOver 11 25) exDragging)) = dom exDragging.
Proof.
  split; [|split; vm_compute; reflexivity].
  exists [], [], [12%nat]. split; [constructor|]. by left.
Qed.
